(** * Route planning and grid path finding of the waste-collection patrol

    Shallow embedding of [public/map/reference.py] (single floor, with the
    A-star and Dijkstra searches) and [public/map/multifloor_reference.py]
    (several floors, A-star only).
    Grid cells are pairs of Python integers ([Z]); the obstacle array
    [blocked] is read as a function of its two indices, dictionaries are
    [gmap]s, the [visited] set is a [gset], and [heapq] is a list from which
    [heappop] takes the least tuple. *)

From Stdlib Require Import ZArith QArith List Lia Permutation.
From stdpp Require Import gmap strings list sorting.

Local Close Scope Q_scope.
Local Open Scope Z_scope.

Abbreviation pos := (Z * Z)%type (only parsing).

(** ** Layout constants *)

Definition GRID_W : Z := 35.
Definition GRID_H : Z := 20.

(** The test [0 <= x < GRID_W and 0 <= y < GRID_H] that guards every access
    to [blocked]. *)
Definition in_bounds (x y : Z) : bool :=
  (0 <=? x) && (x <? GRID_W) && (0 <=? y) && (y <? GRID_H).

(** ** heapq *)

Module Heapq.
Section Heapq.
Context {A : Type} (ltb : A → A → bool).

Definition heappush (heap : list A) (item : A) : list A := item :: heap.

(** [heappop] returns the least item together with the remaining heap;
    [None] stands for the empty heap, on which the [while] loops stop. *)
Fixpoint heappop (heap : list A) : option (A * list A) :=
  match heap with
  | [] => None
  | x :: rest =>
      match heappop rest with
      | None => Some (x, [])
      | Some (m, rest') =>
          if ltb m x then Some (m, x :: rest') else Some (x, rest)
      end
  end.
End Heapq.
End Heapq.
Import Heapq.

(** ** Path finding *)

(** The candidate moves, in the order of the [for dx,dy in ...] loops. *)
Definition DIRS : list (Z * Z) := [(1, 0); (-1, 0); (0, 1); (0, -1)].

(** [h] inside [astar]: the Manhattan distance to [goal]. *)
Definition h (goal p : pos) : Z := Z.abs (p.1 - goal.1) + Z.abs (p.2 - goal.2).

(** Entries of the heap of [astar]: [(f, g, cur, parent)]. *)
Abbreviation aentry := (Z * Z * (Z * Z) * option (Z * Z))%type (only parsing).

(** Python orders the tuples lexicographically.  The first three components
    decide: no two entries of one heap agree on [(g, cur)] (lemma
    [astar_keys_distinct]), so the parents are never compared. *)
Definition aentry_ltb (a b : aentry) : bool :=
  let '(fa, ga, (xa, ya), _) := a in
  let '(fb, gb, (xb, yb), _) := b in
  (fa <? fb) || ((fa =? fb) && ((ga <? gb) || ((ga =? gb) &&
      ((xa <? xb) || ((xa =? xb) && (ya <? yb)))))).

(** Entries of the Dijkstra queue: [(d, cur)]. *)
Abbreviation dentry := (Z * (Z * Z))%type (only parsing).

Definition dentry_ltb (a b : dentry) : bool :=
  let '(da, (xa, ya)) := a in
  let '(db, (xb, yb)) := b in
  (da <? db) || ((da =? db) && ((xa <? xb) || ((xa =? xb) && (ya <? yb)))).

(** All cells of the grid, and the number of pops that [astar] and
    [dijkstra] can need: a cell is expanded once and pushes four entries at
    most. *)
Definition cells : list pos :=
  x ← seqZ 0 GRID_W; y ← seqZ 0 GRID_H; [(x, y)].

Definition search_fuel : nat := (5 * S (length cells) + 2)%nat.

Section PathFinder.
(** The obstacle array: the module-level [blocked] of [reference.py], the
    first argument of [astar] in [multifloor_reference.py]. *)
Variable blocked : Z → Z → bool.

(** [while p is not None: path.append(p); p = came[p]], then [path[::-1]].
    [None] is a missing key or an exhausted [fuel]. *)
Fixpoint astar_walk_back (fuel : nat) (came : gmap pos (option pos))
    (p : option pos) (path : list pos) : option (list pos) :=
  match p with
  | None => Some (rev path)
  | Some q =>
      match fuel with
      | O => None
      | S fuel' =>
          match came !! q with
          | None => None
          | Some p' => astar_walk_back fuel' came p' (path ++ [q])
          end
      end
  end.

(** One round of the neighbour loop of [astar]. *)
Definition astar_relax (goal : pos) (g : Z) (cur : pos)
    (acc : gmap pos Z * list aentry) (d : Z * Z) : gmap pos Z * list aentry :=
  let '(gscore, openh) := acc in
  let nx := cur.1 + d.1 in
  let ny := cur.2 + d.2 in
  if negb (in_bounds nx ny) then acc
  else if blocked nx ny then acc
  else
    let ng := g + 1 in
    if match gscore !! (nx, ny) with
       | None => true
       | Some old => ng <? old
       end
    then (<[(nx, ny) := ng]> gscore,
          heappush openh (ng + h goal (nx, ny), ng, (nx, ny), Some cur))
    else acc.

(** The [while openh:] loop of [astar]; one unit of [fuel] per pop.  The
    parent chain of a cell popped with cost [g] has [g + 1] cells, which
    bounds the reconstruction loop. *)
Fixpoint astar_loop (fuel : nat) (goal : pos) (openh : list aentry)
    (came : gmap pos (option pos)) (gscore : gmap pos Z)
    (visited : gset pos) : option (list pos) :=
  match fuel with
  | O => None
  | S fuel' =>
      match heappop aentry_ltb openh with
      | None => Some []
      | Some ((_, g, cur, parent), openh1) =>
          if decide (cur ∈ visited)
          then astar_loop fuel' goal openh1 came gscore visited
          else
            let visited' := {[cur]} ∪ visited in
            let came' := <[cur := parent]> came in
            if decide (cur = goal)
            then astar_walk_back (S (Z.to_nat g)) came' (Some cur) []
            else
              let '(gscore', openh') :=
                foldl (astar_relax goal g cur) (gscore, openh1) DIRS in
              astar_loop fuel' goal openh' came' gscore' visited'
      end
  end.

Definition astar (start goal : pos) : option (list pos) :=
  if decide (start = goal) then Some [start]
  else
    astar_loop search_fuel goal
      (heappush [] (h goal start, 0, start, None)) ∅ {[start := 0]} ∅.

(** The reconstruction loop of [dijkstra]:
    [while p in prev or p == start: path.append(p);
       if p == start: break; p = prev[p]]. *)
Fixpoint dijkstra_walk_back (fuel : nat) (start : pos) (prev : gmap pos pos)
    (p : pos) (path : list pos) : option (list pos) :=
  match fuel with
  | O => None
  | S fuel' =>
      if decide (is_Some (prev !! p) ∨ p = start)
      then
        let path' := path ++ [p] in
        if decide (p = start) then Some (rev path')
        else
          match prev !! p with
          | None => None
          | Some q => dijkstra_walk_back fuel' start prev q path'
          end
      else Some (rev path)
  end.

Abbreviation dstate :=
  (gmap (Z * Z) Z * gmap (Z * Z) (Z * Z) * list (Z * (Z * Z)))%type
  (only parsing).

(** One round of the neighbour loop of [dijkstra];
    [dist.get((nx,ny), math.inf)] is larger than any [nd]. *)
Definition dijkstra_relax (d : Z) (cur : pos) (acc : dstate) (dir : Z * Z)
    : dstate :=
  let '(dist, prev, pq) := acc in
  let nx := cur.1 + dir.1 in
  let ny := cur.2 + dir.2 in
  if negb (in_bounds nx ny) then acc
  else if blocked nx ny then acc
  else
    let nd := d + 1 in
    if match dist !! (nx, ny) with
       | None => true
       | Some old => nd <? old
       end
    then (<[(nx, ny) := nd]> dist, <[(nx, ny) := cur]> prev,
          heappush pq (nd, (nx, ny)))
    else acc.

(** The [while pq:] loop of [dijkstra]. *)
Fixpoint dijkstra_loop (fuel : nat) (start goal : pos) (pq : list dentry)
    (dist : gmap pos Z) (prev : gmap pos pos) (visited : gset pos)
    : option (list pos) :=
  match fuel with
  | O => None
  | S fuel' =>
      match heappop dentry_ltb pq with
      | None => Some []
      | Some ((d, cur), pq1) =>
          if decide (cur ∈ visited)
          then dijkstra_loop fuel' start goal pq1 dist prev visited
          else
            let visited' := {[cur]} ∪ visited in
            if decide (cur = goal)
            then dijkstra_walk_back (S (Z.to_nat d)) start prev cur []
            else
              let '(dist', prev', pq') :=
                foldl (dijkstra_relax d cur) (dist, prev, pq1) DIRS in
              dijkstra_loop fuel' start goal pq' dist' prev' visited'
      end
  end.

Definition dijkstra (start goal : pos) : option (list pos) :=
  if decide (start = goal) then Some [start]
  else
    dijkstra_loop search_fuel start goal (heappush [] (0, start))
      {[start := 0]} ∅ ∅.

End PathFinder.


(** ** Obstacle marking *)

(** [blocked[x, y] = v] at an index that passed the bounds test. *)
Definition set_cell (blocked : Z → Z → bool) (x y : Z) (v : bool)
    : Z → Z → bool :=
  fun x' y' => if decide ((x', y') = (x, y)) then v else blocked x' y'.

(** [range(a, b)]. *)
Definition py_range (a b : Z) : list Z := seqZ a (b - a).

Definition block_rect (blocked : Z → Z → bool) (x y w h : Z) : Z → Z → bool :=
  foldl (fun blocked xx =>
    foldl (fun blocked yy =>
      if in_bounds xx yy then set_cell blocked xx yy true else blocked)
      blocked (py_range y (y + h)))
    blocked (py_range x (x + w)).

Definition block_hline (blocked : Z → Z → bool) (x0 x1 y : Z) : Z → Z → bool :=
  let a := Z.min x0 x1 in
  let b := Z.max x0 x1 in
  foldl (fun blocked xx =>
    if in_bounds xx y then set_cell blocked xx y true else blocked)
    blocked (py_range a (b + 1)).

Definition block_vline (blocked : Z → Z → bool) (x y0 y1 : Z) : Z → Z → bool :=
  let a := Z.min y0 y1 in
  let b := Z.max y0 y1 in
  foldl (fun blocked yy =>
    if in_bounds x yy then set_cell blocked x yy true else blocked)
    blocked (py_range a (b + 1)).

(** The unguarded single-cell writes ([blocked[bx, by] = True] for a bin,
    [blocked[sx, sy] = False] for a service point) are numpy item
    assignments on an array of shape [(GRID_W, GRID_H)]: an index in
    [[-n, 0)] counts from the end of its axis, any other index outside
    [[0, n)] raises [IndexError] ([None]). *)
Definition np_index (n i : Z) : option Z :=
  if (0 <=? i) && (i <? n) then Some i
  else if (- n <=? i) && (i <? 0) then Some (i + n)
  else None.

Definition np_setitem (blocked : Z → Z → bool) (x y : Z) (v : bool)
    : option (Z → Z → bool) :=
  x' ← np_index GRID_W x; y' ← np_index GRID_H y;
  Some (set_cell blocked x' y' v).

(** ** Clusters, thresholds and dwell times *)

(** A cluster dictionary.  [pct] is the entry that the floor driver of
    [multifloor_reference.py] adds before building routes; [reference.py]
    keeps the percentages in [PCT_FILL], keyed by name, and does not read
    it. *)
Record cluster := {
  name : string;
  bins : list pos;
  service : pos;
  zone : string;
  pct : Q
}.

Definition SERVICE_PAUSE_SEC : Z := 4.
Definition QUICK_CHECK_SEC : Z := 1.
Definition FPS : Z := 8.

Definition ZONE_RANK : gmap string Z :=
  list_to_map [("bottom_left", 0); ("bottom_center", 1); ("bottom_right", 2);
               ("kantin", 3); ("koperasi", 4); ("lain", 5)]%string.

(** [dict.get(key, default)]. *)
Definition dict_get {K V} `{Countable K} (m : gmap K V) (k : K) (dflt : V) : V :=
  default dflt (m !! k).

(** [max(1, int(secs * FPS))], the number of repeated frames of a stop. *)
Definition dwell_frames (secs : Z) : nat := Z.to_nat (Z.max 1 (secs * FPS)).

(** [abs(p[0]-cur[0]) + abs(p[1]-cur[1])], the key of the nearest-due
    choice. *)
Definition manhattan (cur p : pos) : Z :=
  Z.abs (p.1 - cur.1) + Z.abs (p.2 - cur.2).

(** [min(iterable, key=...)] on a non-empty list [x :: l]: the first of the
    items with the least key. *)
Fixpoint py_min_by {A} (key : A → Z) (x : A) (l : list A) : A :=
  match l with
  | [] => x
  | y :: l' => py_min_by key (if key y <? key x then y else x) l'
  end.

(** [list.remove(x)]: drops the first item equal to [x]. *)
Fixpoint py_remove (x : pos) (l : list pos) : list pos :=
  match l with
  | [] => []
  | y :: l' => if decide (y = x) then l' else y :: py_remove x l'
  end.

(** The [while remaining:] loop shared by [build_route_nn] and the ["nn"]
    branch of [build_routes]; [fuel] bounds the number of rounds. *)
Fixpoint nn_loop (fuel : nat) (remaining : list pos) (cur : pos)
    (route : list pos) : option (list pos) :=
  match remaining with
  | [] => Some route
  | x :: rest =>
      match fuel with
      | O => None
      | S fuel' =>
          let nxt := py_min_by (manhattan cur) x rest in
          nn_loop fuel' (py_remove nxt remaining) nxt (route ++ [nxt])
      end
  end.

(** Keys [(rank, y, x)] of the patrol order, compared as Python tuples. *)
Definition key_ltb (a b : Z * Z * Z) : bool :=
  let '(ra, ya, xa) := a in
  let '(rb, yb, xb) := b in
  (ra <? rb) || ((ra =? rb) && ((ya <? yb) || ((ya =? yb) && (xa <? xb)))).

(** [sorted(items, key=...)]: a stable sort, here by insertion. *)
Fixpoint insert_sorted {A} (key : A → Z * Z * Z) (x : A) (l : list A) : list A :=
  match l with
  | [] => [x]
  | y :: l' =>
      if key_ltb (key y) (key x) then y :: insert_sorted key x l'
      else x :: y :: l'
  end.

Definition py_sorted {A} (key : A → Z * Z * Z) (l : list A) : list A :=
  foldr (insert_sorted key) [] l.

(** [{tuple(c["service"]): c["zone"] for c in CLUSTERS}]: a later cluster
    with the same service point replaces the entry of an earlier one. *)
Definition sp2zone_of (CLUSTERS : list cluster) : gmap pos string :=
  foldl (fun m c => <[service c := zone c]> m) ∅ CLUSTERS.

Definition sp2name_of (CLUSTERS : list cluster) : gmap pos string :=
  foldl (fun m c => <[service c := name c]> m) ∅ CLUSTERS.

(** The sort key of [build_route_patrol_real] and [build_routes]:
    [(ZONE_RANK.get(sp2zone.get(p, "lain"), 5), p[1], p[0])]. *)
Definition patrol_key (sp2zone : gmap pos string) (p : pos) : Z * Z * Z :=
  (dict_get ZONE_RANK (dict_get sp2zone p "lain"%string) 5, p.2, p.1).

(** [zip(route[:-1], route[1:])]. *)
Definition segments (route : list pos) : list (pos * pos) :=
  zip (removelast route) (tail route).

(** ** The single-floor script, [reference.py] *)

Section Reference.
(** The module-level inputs of one run. *)
Variable blocked : Z → Z → bool.
Variable CLUSTERS : list cluster.
Variable PCT_BY_CLUSTER : gmap string Q.
Variable THRESHOLD_PCT : Q.
Variable END_POS : option pos.

(** [{c["name"]: float(PCT_BY_CLUSTER.get(c["name"], 0.0)) for c in CLUSTERS}] *)
Definition PCT_FILL : gmap string Q :=
  foldl (fun m c => <[name c := dict_get PCT_BY_CLUSTER (name c) 0%Q]> m)
    ∅ CLUSTERS.

(** [PCT_FILL[c["name"]] >= THRESHOLD_PCT]; the key is always present
    (see [PCT_FILL_lookup]), so the [None] branch is never taken. *)
Definition is_due (c : cluster) : bool :=
  match PCT_FILL !! name c with
  | Some p => Qle_bool THRESHOLD_PCT p
  | None => false
  end.

Definition DUE_POINTS : list pos :=
  omap (fun c => if is_due c then Some (service c) else None) CLUSTERS.

Definition service_points : list pos := service <$> CLUSTERS.

Definition sp2zone : gmap pos string := sp2zone_of CLUSTERS.

Definition build_route_nn (start : pos) : option (list pos) :=
  route ← nn_loop (length DUE_POINTS) DUE_POINTS start [start];
  Some (match END_POS with
        | Some e => route ++ [e]
        | None => route
        end).

Definition build_route_patrol_real (start : pos) : list pos :=
  let ordered := py_sorted (patrol_key sp2zone) service_points in
  let route := [start] ++ ordered in
  match END_POS with
  | Some e => route ++ [e]
  | None => route
  end.

(** The body of the [for a, b in zip(...)] loop of [build_path], after the
    segment [seg = pf(a, b)] has been computed. *)
Definition build_path_body (mode : string) (frames : list pos) (b : pos)
    (seg : list pos) : list pos :=
  if (length seg <=? 1)%nat then frames
  else
    let frames := frames ++ tail seg in
    if bool_decide (END_POS = None ∨ END_POS ≠ Some b) then
      if bool_decide (mode = "nn"%string) then
        if bool_decide (b ∈ DUE_POINTS)
        then frames ++ replicate (dwell_frames SERVICE_PAUSE_SEC) b
        else frames
      else if bool_decide (mode = "patrol"%string) then
        let is_due := bool_decide (b ∈ DUE_POINTS) in
        let dur := if is_due then SERVICE_PAUSE_SEC else QUICK_CHECK_SEC in
        frames ++ replicate (dwell_frames dur) b
      else frames
    else frames.

Fixpoint build_path_loop (pf : pos → pos → option (list pos)) (mode : string)
    (pairs : list (pos * pos)) (frames : list pos) : option (list pos) :=
  match pairs with
  | [] => Some frames
  | (a, b) :: pairs' =>
      seg ← pf a b;
      build_path_loop pf mode pairs' (build_path_body mode frames b seg)
  end.

Definition build_path (route : list pos) (mode pathfinder : string)
    : option (list pos) :=
  if (length route <? 2)%nat then Some []
  else
    let pf := if bool_decide (pathfinder = "astar"%string)
              then astar blocked else dijkstra blocked in
    build_path_loop pf mode (segments route) [].
End Reference.

(** ** The multi-floor script, [multifloor_reference.py] *)

Section MultiFloor.
(** The module-level threshold, read by [build_frames]. *)
Variable THRESHOLD_PCT : Q.

Definition build_routes (CLUSTERS : list cluster) (threshold_pct : Q)
    (start_pos : pos) (end_pos : option pos) (mode : string)
    (blocked : Z → Z → bool)
    : option (list pos * list pos * gmap pos string) :=
  let service_points := service <$> CLUSTERS in
  let sp2zone := sp2zone_of CLUSTERS in
  let sp2name := sp2name_of CLUSTERS in
  let due_pts :=
    omap (fun c => if Qle_bool threshold_pct (pct c)
                   then Some (service c) else None) CLUSTERS in
  if bool_decide (mode = "nn"%string) then
    route ← nn_loop (length due_pts) due_pts start_pos [start_pos];
    Some (match end_pos with
          | Some e => route ++ [e]
          | None => route
          end, due_pts, sp2name)
  else
    let ordered := py_sorted (patrol_key sp2zone) service_points in
    let route := [start_pos] ++ ordered in
    Some (match end_pos with
          | Some e => route ++ [e]
          | None => route
          end, due_pts, sp2name).

Definition due_set (CLUSTERS : list cluster) : gset pos :=
  list_to_set
    (omap (fun c => if Qle_bool THRESHOLD_PCT (pct c)
                    then Some (service c) else None) CLUSTERS).

Definition build_frames_body (CLUSTERS : list cluster) (mode : string)
    (frames : list pos) (b : pos) (seg : list pos) : list pos :=
  if (length seg <=? 1)%nat then frames
  else
    let frames := frames ++ tail seg in
    if bool_decide (b ∈ due_set CLUSTERS)
    then frames ++ replicate (dwell_frames SERVICE_PAUSE_SEC) b
    else if bool_decide (mode = "patrol"%string)
    then frames ++ replicate (dwell_frames QUICK_CHECK_SEC) b
    else frames.

Fixpoint build_frames_loop (blocked : Z → Z → bool)
    (CLUSTERS : list cluster) (mode : string) (pairs : list (pos * pos))
    (frames : list pos) : option (list pos) :=
  match pairs with
  | [] => Some frames
  | (a, b) :: pairs' =>
      seg ← astar blocked a b;
      build_frames_loop blocked CLUSTERS mode pairs'
        (build_frames_body CLUSTERS mode frames b seg)
  end.

Definition build_frames (blocked : Z → Z → bool) (route : list pos)
    (CLUSTERS : list cluster) (mode : string) : option (list pos) :=
  if (length route <? 2)%nat then Some []
  else build_frames_loop blocked CLUSTERS mode (segments route) [].
End MultiFloor.

(** ** Vocabulary of the properties *)

Section Paths.
Variable blocked : Z → Z → bool.

(** A cell the agent may stand on: inside the grid and not blocked. *)
Definition passable (p : pos) : Prop :=
  in_bounds p.1 p.2 = true ∧ blocked p.1 p.2 = false.

(** Axis-adjacent cells: one step along exactly one axis. *)
Definition adjacent (p q : pos) : Prop :=
  Z.abs (q.1 - p.1) + Z.abs (q.2 - p.2) = 1.

(** A move of the agent, of cost 1. *)
Definition step (p q : pos) : Prop := adjacent p q ∧ passable q.

(** [is_path start goal l]: [l] leads from [start] to [goal] by moves. *)
Definition is_path (start goal : pos) (l : list pos) : Prop :=
  head l = Some start ∧ last l = Some goal ∧
  ∀ i p q, l !! i = Some p → l !! S i = Some q → step p q.

Definition reachable (start goal : pos) : Prop :=
  ∃ l, is_path start goal l.

(** The same, built move by move. *)
Inductive path_from : pos → list pos → pos → Prop :=
| path_one a : path_from a [a] a
| path_cons a b l c : step a b → path_from b l c → path_from a (a :: l) c.

(** [reach start p n]: [p] is [n] moves away from [start]. *)
Inductive reach (start : pos) : pos → nat → Prop :=
| reach_O : reach start start O
| reach_S p q n : reach start p n → step p q → reach start q (S n).
End Paths.

(** The Manhattan distance of the specification between two positions,
    [|x1 - x2| + |y1 - y2|], written from the specification's words and
    compared with the key of the code in [manhattan_spec_distance]. *)
Definition spec_distance (a b : pos) : Z :=
  Z.abs (a.1 - b.1) + Z.abs (a.2 - b.2).

(** The greedy nearest-first order of the specification: the next point is a
    remaining one at the least Manhattan distance from the current position,
    the first such in the order of the list, and it leaves the list. *)
Inductive greedy : pos → list pos → list pos → Prop :=
| greedy_nil cur : greedy cur [] []
| greedy_cons cur remaining i p seq :
    remaining !! i = Some p →
    (∀ q, q ∈ remaining → spec_distance cur p <= spec_distance cur q) →
    (∀ j q, (j < i)%nat → remaining !! j = Some q →
            spec_distance cur p < spec_distance cur q) →
    greedy p (delete i remaining) seq →
    greedy cur remaining (p :: seq).

(** Non-decreasing order of keys [(rank, y, x)]. *)
Definition key_le (a b : Z * Z * Z) : Prop := key_ltb b a = false.

(** The DUE service positions of the specification: the service points of
    the clusters whose fill percentage reaches the threshold, in the order
    in which the clusters are listed. *)
Definition due_points_spec (threshold_pct : Q) (fill : cluster → Q)
    (CLUSTERS : list cluster) : list pos :=
  service <$> filter (λ c, Qle_bool threshold_pct (fill c) = true) CLUSTERS.

(** The percentage that [reference.py] assigns to a cluster:
    [PCT_BY_CLUSTER.get(name, 0.0)]. *)
Definition fill_by_name (PCT_BY_CLUSTER : gmap string Q) (c : cluster) : Q :=
  dict_get PCT_BY_CLUSTER (name c) 0%Q.

(** The nearest-due route of the specification for the DUE points [due]. *)
Definition nearest_due_route (start : pos) (end_pos : option pos)
    (due route : list pos) : Prop :=
  ∃ seq, route = [start] ++ seq ++ option_list end_pos ∧
         greedy start due seq ∧
         (∀ seq', greedy start due seq' → seq' = seq) ∧
         seq ≡ₚ due ∧
         (∀ p, p ∈ seq → p ∈ due) ∧
         length route = (length due + 1 + length (option_list end_pos))%nat.

(** The visits that the specification promises: no position occurs twice
    among the intermediate waypoints, and the service position of a cluster
    is among them exactly when the cluster is DUE. *)
Definition visits_due_once (threshold_pct : Q) (fill : cluster → Q)
    (CLUSTERS : list cluster) (start : pos) (end_pos : option pos)
    (route : list pos) : Prop :=
  ∃ seq, route = [start] ++ seq ++ option_list end_pos ∧ NoDup seq ∧
         ∀ c, c ∈ CLUSTERS →
              (service c ∈ seq ↔ Qle_bool threshold_pct (fill c) = true).

(** The sort key that the specification gives to a cluster, from the
    cluster's own zone: [(zoneRank(zone), y, x)]. *)
Definition cluster_key (c : cluster) : Z * Z * Z :=
  (dict_get ZONE_RANK (zone c) 5, (service c).2, (service c).1).

(** The patrol order of the specification: the clusters sorted by their
    keys, then their service positions. *)
Definition spec_patrol_order (CLUSTERS : list cluster) : list pos :=
  service <$> py_sorted cluster_key CLUSTERS.

(** The number of dwell frames that the specification asks for on arrival
    at a waypoint: the service pause at a DUE point, the quick check at any
    other point of a full patrol, none otherwise. *)
Definition dwell_count (due : bool) (mode : string) : nat :=
  if due then Z.to_nat (Z.max 1 (SERVICE_PAUSE_SEC * FPS))
  else if bool_decide (mode = "patrol"%string)
       then Z.to_nat (Z.max 1 (QUICK_CHECK_SEC * FPS))
       else 0%nat.

(** What both searches guarantee about a segment. *)
Definition segment_ok (blocked : Z → Z → bool)
    (pf : pos → pos → option (list pos)) : Prop :=
  ∀ a b, ∃ seg, pf a b = Some seg ∧ (seg = [] ∨ path_from blocked a seg b).

(** A trajectory that a renderer can play back: from one frame to the next
    the agent stays where it is or moves to an axis-adjacent cell. *)
Definition stutter_walk (l : list pos) : Prop :=
  ∀ i p q, l !! i = Some p → l !! S i = Some q → p = q ∨ adjacent p q.

(** The common shape of the two frame loops. *)
Fixpoint frames_loop (pf : pos → pos → option (list pos))
    (body : list pos → pos → list pos → list pos)
    (pairs : list (pos * pos)) (frames : list pos) : option (list pos) :=
  match pairs with
  | [] => Some frames
  | (a, b) :: pairs' =>
      seg ← pf a b; frames_loop pf body pairs' (body frames b seg)
  end.

(** A search that finds a path whenever there is one. *)
Definition segment_found (blocked : Z → Z → bool)
    (pf : pos → pos → option (list pos)) : Prop :=
  ∀ a b, reachable blocked a b →
         ∃ seg, pf a b = Some seg ∧ path_from blocked a seg b.

(** A loop body that appends the segment without its first cell and then
    some copies of the waypoint reached. *)
Definition appends_arrival
    (body : list pos → pos → list pos → list pos) : Prop :=
  ∀ frames b seg, ∃ k, body frames b seg = frames ++ tail seg ++ replicate k b.

(** Frames that play back as a trip from [s] to [e] on the floor
    [blocked]: no jump, no frame on an obstacle or outside the grid, and the
    agent ends on [e]. *)
Definition playable (blocked : Z → Z → bool) (s e : pos) (frames : list pos)
    : Prop :=
  stutter_walk (s :: frames) ∧ last (s :: frames) = Some e ∧
  Forall (passable blocked) frames.

(** An executable check that the search finds a way from [s] to each of
    [ps]. *)
Definition connected_from (blocked : Z → Z → bool) (s : pos) (ps : list pos)
    : bool :=
  forallb (λ p, match astar blocked s p with
                | Some (_ :: _) => true
                | _ => false
                end) ps.

(** The indices that an unguarded write accepts, and the cell that it
    writes: an index in [[-n, 0)] counts from the end of its axis. *)
Definition valid_index (p : pos) : Prop :=
  - GRID_W <= p.1 < GRID_W ∧ - GRID_H <= p.2 < GRID_H.

Definition wrapped (p : pos) : pos := (p.1 `mod` GRID_W, p.2 `mod` GRID_H).

(** The cells of the segment that [line_wall] is asked to draw. *)
Definition on_wall (x1 y1 x2 y2 : Z) (p : pos) : Prop :=
  (y1 = y2 ∧ p.2 = y1 ∧ Z.min x1 x2 <= p.1 <= Z.max x1 x2) ∨
  (y1 ≠ y2 ∧ x1 = x2 ∧ p.1 = x1 ∧ Z.min y1 y2 <= p.2 <= Z.max y1 y2).

(** The segments of a route that add no frame: the agent is already there,
    or there is no way. *)
Definition still (blocked : Z → Z → bool) (route : list pos) : Prop :=
  ∀ a b, (a, b) ∈ segments route → a = b ∨ ¬ reachable blocked a b.

(** ** Examples *)

(** A small floor used in the examples: a wall [(1,0)], [(1,1)] next to the
    start corner, and the cell [(5,5)] walled in on its four sides. *)
Definition demo_blocked (x y : Z) : bool :=
  bool_decide ((x, y) ∈ [(1, 0); (1, 1); (4, 5); (6, 5); (5, 4); (5, 6)]).

(** The clusters of the first floor, as both scripts list them, with the
    percentages of the example run. *)
Definition floor1_clusters : list cluster :=
  [ {| name := "top_left_row"; bins := [(2, 5); (3, 5); (4, 5)];
       service := (3, 6); zone := "koperasi"; pct := 83 # 1 |};
    {| name := "top_right_col";
       bins := [(GRID_W - 12, 3); (GRID_W - 12, 4); (GRID_W - 12, 5)];
       service := (GRID_W - 13, 4); zone := "kantin"; pct := 55 # 1 |};
    {| name := "bottom_left_col"; bins := [(1, 15); (1, 16); (1, 17)];
       service := (2, 16); zone := "bottom_left"; pct := 92 # 1 |};
    {| name := "bottom_mid_row"; bins := [(16, 19); (17, 19); (18, 19)];
       service := (17, 18); zone := "bottom_center"; pct := 48 # 1 |};
    {| name := "bottom_right_col";
       bins := [(GRID_W - 2, 15); (GRID_W - 2, 16); (GRID_W - 2, 17)];
       service := (GRID_W - 3, 16); zone := "bottom_right"; pct := 88 # 1 |}
  ]%string.

(** Three clusters, two of which share the service point [(1,1)]. *)
Definition shared_point_clusters : list cluster :=
  [ {| name := "a"; bins := []; service := (1, 1); zone := "kantin";
       pct := 0 # 1 |};
    {| name := "b"; bins := []; service := (1, 1); zone := "bottom_left";
       pct := 0 # 1 |};
    {| name := "c"; bins := []; service := (0, 0); zone := "bottom_center";
       pct := 0 # 1 |} ]%string.

(** Two clusters on one service point [(1,1)], planted with 90 and 10
    percent, and two tables for them: in the first only ["a"] reaches the
    threshold 80, in the second both do. *)
Definition twin_clusters : list cluster :=
  [ {| name := "a"; bins := []; service := (1, 1); zone := "lain";
       pct := 90 # 1 |};
    {| name := "b"; bins := []; service := (1, 1); zone := "lain";
       pct := 10 # 1 |} ]%string.

Definition twin_pct : gmap string Q :=
  list_to_map [("a"%string, (90 # 1)%Q); ("b"%string, (10 # 1)%Q)].

Definition twin_pct_both : gmap string Q :=
  list_to_map [("a"%string, (90 # 1)%Q); ("b"%string, (95 # 1)%Q)].

(** [PCT_BY_CLUSTER] of [reference.py]. *)
Definition floor1_pct : gmap string Q :=
  list_to_map [("top_left_row"%string, (83 # 1)%Q);
               ("top_right_col"%string, (55 # 1)%Q);
               ("bottom_left_col"%string, (92 # 1)%Q);
               ("bottom_mid_row"%string, (48 # 1)%Q);
               ("bottom_right_col"%string, (88 # 1)%Q)].

(** ** The layouts of the floors and the floor driver *)

Definition HEAD_Y_TOP : Z := 7.
Definition HEAD_Y_BOT : Z := 13.

(** [for (bx,by) in cells: blocked[bx, by] = v]: the loop over the bins
    (with [True]) and over the service points (with [False]); [None] is the
    [IndexError] of an index out of range. *)
Fixpoint np_fill (blocked : Z → Z → bool) (cells : list pos) (v : bool)
    : option (Z → Z → bool) :=
  match cells with
  | [] => Some blocked
  | (x, y) :: cells' =>
      blocked' ← np_setitem blocked x y v; np_fill blocked' cells' v
  end.

(** The grid effect of [room_wall], the same in both scripts. *)
Definition room_wall (blocked : Z → Z → bool) (x y w h : Z) : Z → Z → bool :=
  block_rect blocked x y w h.

(** [for c in clusters: c["pct"] = float(PCT.get(c["name"], 0.0))], the
    loop of [multifloor_reference.py] that plants the percentages. *)
Definition set_pct (PCT : gmap string Q) (c : cluster) : cluster :=
  {| name := name c; bins := bins c; service := service c; zone := zone c;
     pct := dict_get PCT (name c) 0%Q |}.

Definition inject_pct (PCT : gmap string Q) (clusters : list cluster)
    : list cluster :=
  set_pct PCT <$> clusters.

Module Single.
(** Of the module-level code of [reference.py] only the wall function and
    the list of bins are modelled: as the file stands its first line is not
    a comment, so the script stops before any of its statements runs. *)

(** The grid effect of [line_wall] in [reference.py]; [None] is its
    [ValueError] for a line that is neither horizontal nor vertical. *)
Definition line_wall (blocked : Z → Z → bool) (x1 y1 x2 y2 : Z)
    : option (Z → Z → bool) :=
  if y1 =? y2 then Some (block_hline blocked x1 x2 y1)
  else if x1 =? x2 then Some (block_vline blocked x1 y1 y2)
  else None.

Definition BINS : list pos :=
  [(2, 5); (3, 5); (4, 5);
   (GRID_W - 12, 3); (GRID_W - 12, 4); (GRID_W - 12, 5);
   (1, 15); (1, 16); (1, 17);
   (16, 19); (17, 19); (18, 19);
   (GRID_W - 2, 15); (GRID_W - 2, 16); (GRID_W - 2, 17)].

End Single.

Module Multi.
(** [line_wall] of [multifloor_reference.py] has no [else] branch: a line
    that is neither horizontal nor vertical marks nothing. *)
Definition line_wall (blocked : Z → Z → bool) (x1 y1 x2 y2 : Z)
    : Z → Z → bool :=
  if y1 =? y2 then block_hline blocked x1 x2 y1
  else if x1 =? x2 then block_vline blocked x1 y1 y2
  else blocked.

Definition TRANSFER_POS : pos := (GRID_W / 2, 1).

(** What a layout function returns, without the colours of the bins:
    [(blocked, CLUSTERS, START_POS, END_POS)]. *)
Abbreviation floor := ((Z → Z → bool) * list cluster * (Z * Z) * (Z * Z))%type
  (only parsing).

Definition floor1_bins : list pos := Single.BINS.

(** The clusters returned are [floor1_clusters]; the layout gives them no
    ["pct"] entry, and the driver sets it ([inject_pct]) before it is
    read. *)

Definition draw_layout_floor1 : option floor :=
  let b := λ _ _ : Z, false in
  let b := line_wall b 0 0 GRID_W 0 in
  let b := line_wall b 0 GRID_H GRID_W GRID_H in
  let b := line_wall b 0 0 0 GRID_H in
  let b := line_wall b GRID_W 0 GRID_W GRID_H in
  let b := line_wall b 0 HEAD_Y_TOP 16 HEAD_Y_TOP in
  let b := line_wall b 19 HEAD_Y_TOP GRID_W HEAD_Y_TOP in
  let b := line_wall b 0 HEAD_Y_BOT 16 HEAD_Y_BOT in
  let b := line_wall b 19 HEAD_Y_BOT GRID_W HEAD_Y_BOT in
  let b := line_wall b 16 HEAD_Y_TOP 16 HEAD_Y_BOT in
  let b := line_wall b 19 HEAD_Y_TOP 19 HEAD_Y_BOT in
  let b := room_wall b 2 0 7 5 in
  let b := room_wall b (GRID_W - 11) 0 11 6 in
  let b := room_wall b 13 7 3 3 in
  let b := room_wall b 13 10 3 3 in
  let b := room_wall b 19 7 3 3 in
  let b := room_wall b 19 10 3 3 in
  b ← np_fill b floor1_bins true;
  b ← np_fill b (service <$> floor1_clusters) false;
  let START_POS := (1, 19) in
  let END_POS := TRANSFER_POS in
  b ← np_setitem b START_POS.1 START_POS.2 false;
  b ← np_setitem b END_POS.1 END_POS.2 false;
  Some (b, floor1_clusters, START_POS, END_POS).

(** The two clusters of the upper floors; their ["pct"] entry is set by the
    driver before it is read. *)
Definition floor456_clusters : list cluster :=
  [ {| name := "left_stack"; bins := [(0, 3); (0, 4); (0, 5)];
       service := (1, 4); zone := "lain"; pct := 0 # 1 |};
    {| name := "right_stack";
       bins := [(GRID_W - 1, 9); (GRID_W - 1, 10); (GRID_W - 1, 11)];
       service := (GRID_W - 2, 10); zone := "lain"; pct := 0 # 1 |}
  ]%string.

Definition floor456_bins : list pos :=
  [(0, 3); (0, 4); (0, 5); (GRID_W - 1, 9); (GRID_W - 1, 10); (GRID_W - 1, 11)].

Definition draw_layout_floor456 : option floor :=
  let b := λ _ _ : Z, false in
  let b := room_wall b 13 11 3 3 in
  let b := room_wall b 13 14 3 3 in
  let b := room_wall b 19 11 3 3 in
  let b := room_wall b 19 14 3 3 in
  let b := room_wall b 19 0 12 6 in
  let b := room_wall b 4 0 12 6 in
  let b := room_wall b 22 9 9 11 in
  let b := room_wall b 4 9 9 11 in
  b ← np_fill b floor456_bins true;
  b ← np_fill b (service <$> floor456_clusters) false;
  let START_POS := TRANSFER_POS in
  let END_POS := TRANSFER_POS in
  b ← np_setitem b START_POS.1 START_POS.2 false;
  Some (b, floor456_clusters, START_POS, END_POS).

(** One floor of the driver: plant the percentages, build both routes and
    both frame sequences.  [THRESHOLD_PCT] is passed to [build_routes] and
    read by [build_frames]. *)
Definition run_floor (THRESHOLD_PCT : Q) (layout : option floor)
    (PCT : gmap string Q)
    : option (list pos * list pos * list pos * list pos) :=
  '(blk, clusters, start, end_pos) ← layout;
  let clusters := inject_pct PCT clusters in
  '(route_nn, _, _) ← build_routes clusters THRESHOLD_PCT start (Some end_pos)
                        "nn"%string blk;
  '(route_pat, _, _) ← build_routes clusters THRESHOLD_PCT start
                         (Some end_pos) "patrol"%string blk;
  frames_nn ← build_frames THRESHOLD_PCT blk route_nn clusters "nn"%string;
  frames_pat ← build_frames THRESHOLD_PCT blk route_pat clusters
                 "patrol"%string;
  Some (route_nn, route_pat, frames_nn, frames_pat).
End Multi.

(** ** Invariants of the searches *)

Section Invariants.
Variable blocked : Z → Z → bool.
Variables start goal : pos.

(** [chain came v c]: following [came] from [v] visits the cells [c], the
    last of which has no parent. *)
Inductive chain (came : gmap pos (option pos)) : pos → list pos → Prop :=
| chain_root v : came !! v = Some None → chain came v [v]
| chain_step v p c :
    came !! v = Some (Some p) → chain came p c → chain came v (v :: c).

(** The loop invariant.  [E v q] tells for which moves [v → q] out of a
    visited cell the neighbour loop has already run; between two rounds of
    the [while] loop that is all of them. *)
Record astar_inv (E : pos → pos → Prop) (openh : list aentry)
    (came : gmap pos (option pos)) (gscore : gmap pos Z)
    (visited : gset pos) : Prop := {
  ai_start : gscore !! start = Some 0;
  ai_goal : goal ∉ visited;
  ai_dom : ∀ v, v ∈ visited ↔ is_Some (came !! v);
  ai_exp : ∀ v q n, v ∈ visited → E v q → step blocked v q →
    reach blocked start v n →
    ∃ gq, gscore !! q = Some gq ∧ gq <= Z.of_nat n + 1;
  ai_front : ∀ n gn, gscore !! n = Some gn →
    n ∈ visited ∨ ∃ par, (gn + h goal n, gn, n, par) ∈ openh;
  ai_heap : ∀ f g n par, (f, g, n, par) ∈ openh →
    f = g + h goal n ∧
    ((par = None ∧ n = start ∧ g = 0) ∨
     (∃ p c, par = Some p ∧ step blocked p n ∧ chain came p c ∧
             path_from blocked start (rev c) p ∧ g = Z.of_nat (length c)));
  ai_keys : ∀ f g n par, (f, g, n, par) ∈ openh →
    ∃ gn, gscore !! n = Some gn ∧ gn <= g;
  ai_nodup : NoDup ((λ e : aentry, (e.1.1.2, e.1.2)) <$> openh)
}.

Definition unvisited (visited : gset pos) : nat :=
  length (filter (λ p, p ∉ visited) (start :: cells)).

(** [dchain prev v c]: following [prev] from [v] visits the cells [c] and
    stops at [start]. *)
Inductive dchain (prev : gmap pos pos) : pos → list pos → Prop :=
| dchain_root : dchain prev start [start]
| dchain_step v p c :
    v ≠ start → prev !! v = Some p → dchain prev p c →
    dchain prev v (v :: c).

Record dijkstra_inv (E : pos → pos → Prop) (pq : list dentry)
    (dist : gmap pos Z) (prev : gmap pos pos) (visited : gset pos) : Prop := {
  di_start : dist !! start = Some 0;
  di_start_prev : prev !! start = None;
  di_goal : goal ∉ visited;
  di_exp : ∀ v q n, v ∈ visited → E v q → step blocked v q →
    reach blocked start v n →
    ∃ dq, dist !! q = Some dq ∧ dq <= Z.of_nat n + 1;
  di_front : ∀ n dn, dist !! n = Some dn → n ∈ visited ∨ (dn, n) ∈ pq;
  di_pq : ∀ d n, (d, n) ∈ pq → ∃ dn, dist !! n = Some dn ∧ dn <= d;
  di_dist : ∀ n dn, dist !! n = Some dn →
    0 <= dn ∧ (n = start ∨ is_Some (prev !! n)) ∧
    (n = start ∨ passable blocked n);
  di_prev : ∀ n p, prev !! n = Some p →
    step blocked p n ∧
    ∃ dp dn, dist !! p = Some dp ∧ dist !! n = Some dn ∧ dp + 1 <= dn
}.

End Invariants.

(** ** The heap *)

Section HeapFacts.
Context {A : Type} (ltb : A → A → bool).
Hypothesis ltb_trans' :
  ∀ x m y, ltb m x = false → ltb y m = false → ltb y x = false.
Hypothesis ltb_irrefl : ∀ x, ltb x x = false.
Hypothesis ltb_total : ∀ x y, ltb x y = true → ltb y x = false.

Lemma heappop_None (l : list A) : heappop ltb l = None ↔ l = [].
Proof.
  destruct l as [|x l]; simpl; [done|].
  split; [|done]. destruct (heappop ltb l) as [[m r]|]; [|done].
  by destruct (ltb m x).
Qed.

Lemma heappop_perm (l : list A) m r :
  heappop ltb l = Some (m, r) → l ≡ₚ m :: r.
Proof.
  revert m r. induction l as [|x l IH]; intros m r; simpl; [done|].
  destruct (heappop ltb l) as [[m' r']|] eqn:E.
  - destruct (ltb m' x); intros [= <- <-]; [|done].
    rewrite (IH _ _ eq_refl). apply perm_swap.
  - intros [= <- <-]. apply heappop_None in E. by subst.
Qed.

Lemma heappop_least (l : list A) m r :
  heappop ltb l = Some (m, r) → ∀ x, x ∈ l → ltb x m = false.
Proof.
  revert m r. induction l as [|x l IH]; intros m r; simpl; [done|].
  destruct (heappop ltb l) as [[m' r']|] eqn:E.
  - destruct (ltb m' x) eqn:Hm; intros [= <- <-] y Hy.
    + apply elem_of_cons in Hy as [->|Hy]; [by apply ltb_total|].
      by eapply IH.
    + apply elem_of_cons in Hy as [->|Hy]; [apply ltb_irrefl|].
      eapply ltb_trans'; [exact Hm|]. by eapply IH.
  - intros [= <- <-] y Hy. apply heappop_None in E. subst.
    apply list_elem_of_singleton in Hy as ->. apply ltb_irrefl.
Qed.

Lemma heappop_elem (l : list A) m r :
  heappop ltb l = Some (m, r) → ∀ x, x ∈ l ↔ x = m ∨ x ∈ r.
Proof.
  intros Hp x. rewrite (heappop_perm _ _ _ Hp). apply elem_of_cons.
Qed.

Lemma heappop_length (l : list A) m r :
  heappop ltb l = Some (m, r) → length l = S (length r).
Proof. intros Hp. by rewrite (heappop_perm _ _ _ Hp). Qed.
End HeapFacts.

Ltac lex_solve :=
  rewrite ?orb_false_iff, ?andb_false_iff, ?orb_true_iff, ?andb_true_iff,
    ?Z.ltb_ge, ?Z.ltb_lt, ?Z.eqb_neq, ?Z.eqb_eq in *; lia.

Lemma aentry_ltb_false_f (a b : aentry) :
  aentry_ltb a b = false → b.1.1.1 <= a.1.1.1.
Proof.
  destruct a as [[[fa ga] [xa ya]] pa], b as [[[fb gb] [xb yb]] pb]; simpl.
  intros H. lex_solve.
Qed.

Lemma dentry_ltb_false_d (a b : dentry) :
  dentry_ltb a b = false → b.1 <= a.1.
Proof.
  destruct a as [da [xa ya]], b as [db [xb yb]]; simpl.
  intros H. lex_solve.
Qed.

Lemma aentry_ltb_trans' (x m y : aentry) :
  aentry_ltb m x = false → aentry_ltb y m = false → aentry_ltb y x = false.
Proof.
  destruct x as [[[fa ga] [xa ya]] pa], m as [[[fb gb] [xb yb]] pb],
    y as [[[fc gc] [xc yc]] pc]; simpl. intros H1 H2. lex_solve.
Qed.

Lemma aentry_ltb_irrefl (x : aentry) : aentry_ltb x x = false.
Proof. destruct x as [[[fa ga] [xa ya]] pa]; simpl. lex_solve. Qed.

Lemma aentry_ltb_asym (x y : aentry) :
  aentry_ltb x y = true → aentry_ltb y x = false.
Proof.
  destruct x as [[[fa ga] [xa ya]] pa], y as [[[fb gb] [xb yb]] pb]; simpl.
  intros H. lex_solve.
Qed.

Lemma dentry_ltb_trans' (x m y : dentry) :
  dentry_ltb m x = false → dentry_ltb y m = false → dentry_ltb y x = false.
Proof.
  destruct x as [da [xa ya]], m as [db [xb yb]], y as [dc [xc yc]]; simpl.
  intros H1 H2. lex_solve.
Qed.

Lemma dentry_ltb_irrefl (x : dentry) : dentry_ltb x x = false.
Proof. destruct x as [da [xa ya]]; simpl. lex_solve. Qed.

Lemma dentry_ltb_asym (x y : dentry) :
  dentry_ltb x y = true → dentry_ltb y x = false.
Proof.
  destruct x as [da [xa ya]], y as [db [xb yb]]; simpl. intros H. lex_solve.
Qed.

Lemma apop_least (openh : list aentry) f g cur par rest :
  heappop aentry_ltb openh = Some ((f, g, cur, par), rest) →
  ∀ e, e ∈ openh → f <= e.1.1.1.
Proof.
  intros Hp e He.
  by apply (aentry_ltb_false_f e (f, g, cur, par)),
    (heappop_least _ aentry_ltb_trans' aentry_ltb_irrefl aentry_ltb_asym _ _ _ Hp).
Qed.

Lemma dpop_least (pq : list dentry) d cur rest :
  heappop dentry_ltb pq = Some ((d, cur), rest) →
  ∀ e, e ∈ pq → d <= e.1.
Proof.
  intros Hp e He.
  by apply (dentry_ltb_false_d e (d, cur)),
    (heappop_least _ dentry_ltb_trans' dentry_ltb_irrefl dentry_ltb_asym _ _ _ Hp).
Qed.

(** ** Paths on the grid *)

Lemma h_step goal p q : adjacent p q → h goal p <= 1 + h goal q.
Proof. unfold adjacent, h. lia. Qed.

Lemma adjacent_dirs p q :
  adjacent p q ↔ ∃ d, d ∈ DIRS ∧ q = (p.1 + d.1, p.2 + d.2).
Proof.
  unfold adjacent, DIRS. destruct p as [px py], q as [qx qy]; simpl. split.
  - intros H.
    assert ((qx = px + 1 ∧ qy = py + 0) ∨ (qx = px + -1 ∧ qy = py + 0) ∨
            (qx = px + 0 ∧ qy = py + 1) ∨ (qx = px + 0 ∧ qy = py + -1))
      as [[-> ->]|[[-> ->]|[[-> ->]|[-> ->]]]] by lia.
    + exists (1, 0). split; [set_solver|done].
    + exists (-1, 0). split; [set_solver|done].
    + exists (0, 1). split; [set_solver|done].
    + exists (0, -1). split; [set_solver|done].
  - intros (d & Hd & [= -> ->]).
    repeat (apply elem_of_cons in Hd as [->|Hd]; [simpl; lia|]).
    by apply elem_of_nil in Hd.
Qed.
Section PathFacts.
Variable blocked : Z → Z → bool.

Lemma path_from_head a l c : path_from blocked a l c → head l = Some a.
Proof. by destruct 1. Qed.

Lemma path_from_last a l c : path_from blocked a l c → last l = Some c.
Proof.
  induction 1 as [|a b l c _ Hp IH]; [done|].
  destruct l; [inversion Hp|]. by rewrite last_cons_cons.
Qed.

Lemma path_from_snoc a l b c :
  path_from blocked a l b → step blocked b c →
  path_from blocked a (l ++ [c]) c.
Proof.
  induction 1 as [a|a b l e Hs Hp IH]; intros Hc; simpl.
  - apply path_cons with c; [done|constructor].
  - apply path_cons with b; [done|by apply IH].
Qed.

Lemma path_from_is_path a l c :
  path_from blocked a l c ↔ is_path blocked a c l.
Proof.
  split.
  - intros Hp. split; [by eapply path_from_head|].
    split; [by eapply path_from_last|].
    induction Hp as [a|a b l c Hs Hp IH]; intros i p q Hi Hj; [by destruct i|].
    destruct i as [|i]; simpl in *.
    + apply path_from_head in Hp. destruct l; simplify_eq/=. done.
    + by eapply IH.
  - revert a. induction l as [|x l IH]; intros a (Hh & Hl & Hs); [done|].
    simpl in Hh. simplify_eq. destruct l as [|y l].
    + simpl in Hl. simplify_eq. constructor.
    + apply path_cons with y; [by apply (Hs 0%nat)|].
      apply IH. split; [done|]. split; [by rewrite last_cons_cons in Hl|].
      intros i p q Hi Hj. by apply (Hs (S i)).
Qed.

Lemma path_from_reach start p n l q :
  reach blocked start p n → path_from blocked p l q →
  reach blocked start q (n + length l - 1).
Proof.
  intros Hr Hp. revert n Hr.
  induction Hp as [a|a b l c Hs Hp IH]; intros n Hr; simpl.
  - by replace (n + 1 - 1)%nat with n by lia.
  - replace (n + S (length l) - 1)%nat with (S n + length l - 1)%nat by lia.
    apply IH. by econstructor.
Qed.

Lemma reachable_reach start goal :
  reachable blocked start goal → ∃ n, reach blocked start goal n.
Proof.
  intros [l Hl]. apply path_from_is_path in Hl. eexists.
  eapply path_from_reach; [constructor|done].
Qed.

Lemma path_from_tail_passable a l c :
  path_from blocked a l c → Forall (passable blocked) (tail l).
Proof.
  induction 1 as [a|a b l c Hs Hp IH]; simpl; [done|].
  destruct Hp as [b|b b' l c Hs' Hp]; simpl in *.
  - constructor; [apply Hs|done].
  - constructor; [apply Hs|done].
Qed.

Lemma path_from_length a l c : path_from blocked a l c → (1 ≤ length l)%nat.
Proof. destruct 1; simpl; lia. Qed.

End PathFacts.

(** ** Correctness of [astar] *)

Section AstarCorrect.
Variable blocked : Z → Z → bool.
Variables start goal : pos.

Local Abbreviation astar_inv := (astar_inv blocked start goal) (only parsing).
Local Abbreviation ai_start := (ai_start blocked start goal) (only parsing).
Local Abbreviation ai_goal := (ai_goal blocked start goal) (only parsing).
Local Abbreviation ai_dom := (ai_dom blocked start goal) (only parsing).
Local Abbreviation ai_exp := (ai_exp blocked start goal) (only parsing).
Local Abbreviation ai_front := (ai_front blocked start goal) (only parsing).
Local Abbreviation ai_heap := (ai_heap blocked start goal) (only parsing).
Local Abbreviation ai_nodup := (ai_nodup blocked start goal) (only parsing).
Local Abbreviation unvisited := (unvisited start) (only parsing).

Lemma chain_insert came cur par p c :
  came !! cur = None → chain came p c → chain (<[cur := par]> came) p c.
Proof.
  intros Hc. induction 1 as [v Hv|v p c Hv _ IH].
  - apply chain_root. rewrite lookup_insert_ne; [done|congruence].
  - apply chain_step with p; [|done].
    rewrite lookup_insert_ne; [done|congruence].
Qed.

Lemma astar_walk_back_chain came v c :
  chain came v c → ∀ fuel acc, (length c ≤ fuel)%nat →
  astar_walk_back fuel came (Some v) acc = Some (rev (acc ++ c)).
Proof.
  induction 1 as [v Hv|v p c Hv _ IH]; intros [|fuel] acc Hf; simpl in *;
    try lia; rewrite Hv.
  - by destruct fuel.
  - rewrite IH by lia. by rewrite <- app_assoc.
Qed.

Lemma in_bounds_cells x y : in_bounds x y = true → (x, y) ∈ cells.
Proof.
  unfold in_bounds, cells. intros H.
  apply list_elem_of_bind. exists x. split.
  - apply list_elem_of_bind. exists y. split; [set_solver|].
    apply elem_of_seqZ. lia.
  - apply elem_of_seqZ. lia.
Qed.

Lemma unvisited_insert cur visited :
  cur ∈ start :: cells → cur ∉ visited →
  (unvisited ({[cur]} ∪ visited) < unvisited visited)%nat.
Proof.
  unfold unvisited. generalize (start :: cells). intros l Hl Hc.
  induction l as [|x l IH]; [by apply elem_of_nil in Hl|].
  assert (∀ l', length (filter (λ p, p ∉ {[cur]} ∪ visited) l')
                ≤ length (filter (λ p, p ∉ visited) l'))%nat as Hle.
  { induction l' as [|y l' IH']; [done|]. rewrite !filter_cons.
    repeat case_decide; simpl; try lia. set_solver. }
  rewrite !filter_cons. apply elem_of_cons in Hl as [<-|Hl].
  - rewrite decide_False by set_solver. rewrite decide_True by done.
    simpl. specialize (Hle l). lia.
  - specialize (IH Hl). repeat case_decide; simpl; try lia. set_solver.
Qed.

Lemma astar_frontier openh came gscore visited q n :
  astar_inv (λ _ _, True) openh came gscore visited →
  reach blocked start q n → q ∉ visited →
  ∃ e : aentry, e ∈ openh ∧ e.1.1.1 <= Z.of_nat n + h goal q.
Proof.
  intros Inv. induction 1 as [|p q n Hr IH Hs]; intros Hq.
  - destruct (ai_front _ _ _ _ _ Inv _ _ (ai_start _ _ _ _ _ Inv))
      as [|[par Hp]]; [done|].
    eexists. split; [exact Hp|]. simpl. lia.
  - destruct (decide (p ∈ visited)) as [Hp|Hp].
    + destruct (ai_exp _ _ _ _ _ Inv p q n Hp I Hs Hr) as (gq & Hgq & Hle).
      destruct (ai_front _ _ _ _ _ Inv _ _ Hgq) as [|[par Hpar]]; [done|].
      eexists. split; [exact Hpar|]. simpl. lia.
    + destruct (IH Hp) as (e & He & Hle). exists e. split; [done|].
      pose proof (h_step goal p q (proj1 Hs)). lia.
Qed.
Lemma astar_inv_skip openh came gscore visited e rest :
  astar_inv (λ _ _, True) openh came gscore visited →
  heappop aentry_ltb openh = Some (e, rest) → e.1.2 ∈ visited →
  astar_inv (λ _ _, True) rest came gscore visited.
Proof.
  intros Inv Hpop Hv. pose proof (heappop_elem _ _ _ _ Hpop) as Hel.
  destruct Inv as [H1 H2 H3 H4 H5 H6 H7 H8]. split; try done.
  - intros n gn Hn. destruct (H5 n gn Hn) as [|[par Hpar]]; [by left|].
    apply Hel in Hpar as [<-|Hpar]; [by left|right; eauto].
  - intros f g n par Hin. apply H6, Hel. by right.
  - intros f g n par Hin. eapply H7, Hel. by right.
  - rewrite (heappop_perm _ _ _ _ Hpop), fmap_cons in H8.
    by apply NoDup_cons in H8 as [_ ?].
Qed.

Lemma astar_inv_pop openh came gscore visited f g cur par rest :
  astar_inv (λ _ _, True) openh came gscore visited →
  heappop aentry_ltb openh = Some ((f, g, cur, par), rest) →
  cur ∉ visited →
  ∃ c, chain (<[cur := par]> came) cur c ∧
       path_from blocked start (rev c) cur ∧
       Z.of_nat (length c) = g + 1 ∧
       (∀ n, reach blocked start cur n → g <= Z.of_nat n) ∧
       (cur ≠ goal →
        astar_inv (λ v _, v ≠ cur) rest (<[cur := par]> came) gscore
          ({[cur]} ∪ visited)).
Proof.
  intros Inv Hpop Hv. pose proof (heappop_elem _ _ _ _ Hpop) as Hel.
  assert (came !! cur = None) as Hnone.
  { apply eq_None_not_Some. by rewrite <- (ai_dom _ _ _ _ _ Inv). }
  assert ((f, g, cur, par) ∈ openh) as Hin by (apply Hel; by left).
  destruct (ai_heap _ _ _ _ _ Inv _ _ _ _ Hin) as [Hf Hpar].
  assert (∀ n, reach blocked start cur n → g <= Z.of_nat n) as Hopt.
  { intros n Hn.
    destruct (astar_frontier _ _ _ _ _ _ Inv Hn Hv) as (e & He & Hle).
    pose proof (apop_least _ _ _ _ _ _ Hpop e He). lia. }
  assert (∃ c, chain (<[cur := par]> came) cur c ∧
               path_from blocked start (rev c) cur ∧
               Z.of_nat (length c) = g + 1) as (c & Hc1 & Hc2 & Hc3).
  { destruct Hpar as [(-> & -> & ->)|(p & c & -> & Hs & Hc & Hp & ->)].
    - exists [start]. split; [|split; [constructor|done]].
      apply chain_root. by rewrite lookup_insert_eq.
    - exists (cur :: c). split; [|split].
      + apply chain_step with p; [by rewrite lookup_insert_eq|].
        by apply chain_insert.
      + simpl. by eapply path_from_snoc.
      + simpl. lia. }
  exists c. do 4 (split; [done|]). intros Hg.
  destruct Inv as [H1 H2 H3 H4 H5 H6 H7 H8]. split.
  - done.
  - set_solver.
  - intros v. destruct (decide (v = cur)) as [->|Hne].
    + rewrite lookup_insert_eq. split; [eauto|set_solver].
    + rewrite lookup_insert_ne by done. rewrite <- H3. set_solver.
  - intros v q n Hvv Hne Hs Hr. apply (H4 v q n); [set_solver|done..].
  - intros n gn Hn. destruct (H5 n gn Hn) as [|[par' Hpar']]; [set_solver|].
    apply Hel in Hpar' as [[= -> -> ->]|Hpar']; [set_solver|right; eauto].
  - intros f' g' n par' Hin'.
    destruct (H6 f' g' n par') as [Hf' Hcase]; [apply Hel; by right|].
    split; [done|]. destruct Hcase as [?|(p & c' & ? & ? & ? & ? & ?)];
      [by left|right].
    exists p, c'. split_and!; try done. by apply chain_insert.
  - intros f' g' n par' Hin'. eapply H7, Hel. by right.
  - rewrite (heappop_perm _ _ _ _ Hpop), fmap_cons in H8.
    by apply NoDup_cons in H8 as [_ ?].
Qed.

Lemma astar_inv_weaken (E E' : pos → pos → Prop) openh came gscore visited :
  (∀ v q, E' v q → step blocked v q → E v q) →
  astar_inv E openh came gscore visited →
  astar_inv E' openh came gscore visited.
Proof. intros HE [H1 H2 H3 H4 H5 H6 H7 H8]. split; eauto. Qed.

Lemma astar_relax_inv E openh came gscore visited g cur c d :
  astar_inv E openh came gscore visited →
  chain came cur c → path_from blocked start (rev c) cur →
  Z.of_nat (length c) = g + 1 →
  (∀ n, reach blocked start cur n → g <= Z.of_nat n) →
  d ∈ DIRS →
  let r := astar_relax blocked goal g cur (gscore, openh) d in
  astar_inv (λ v q, E v q ∨ (v = cur ∧ q = (cur.1 + d.1, cur.2 + d.2)))
    r.2 came r.1 visited.
Proof.
  intros Inv Hc Hp Hlen Hopt Hd. unfold astar_relax.
  set (nx := cur.1 + d.1). set (ny := cur.2 + d.2).
  destruct Inv as [H1 H2 H3 H4 H5 H6 H7 H8].
  destruct (in_bounds nx ny) eqn:Hb; simpl.
  2:{ split; try done. intros v q n Hv [HE|[-> ->]] Hs Hr; [eauto|].
      destruct Hs as [_ [Hs _]]. simpl in Hs. congruence. }
  destruct (blocked nx ny) eqn:Hbl; simpl.
  { split; try done. intros v q n Hv [HE|[-> ->]] Hs Hr; [eauto|].
    destruct Hs as [_ [_ Hs]]. simpl in Hs. congruence. }
  assert (step blocked cur (nx, ny)) as Hstep.
  { split; [apply adjacent_dirs; by exists d|]. unfold passable. auto. }
  destruct (gscore !! (nx, ny)) as [old|] eqn:Hold.
  - destruct (Z.ltb_spec (g + 1) old) as [Hlt|Hge]; simpl.
    + split; simpl.
      * rewrite lookup_insert_ne; [done|]. intros <-. simplify_eq. lia.
      * done.
      * done.
      * intros v q n Hv HE Hs Hr.
        destruct (decide (q = (nx, ny))) as [->|Hne].
        -- rewrite lookup_insert_eq. eexists. split; [done|].
           destruct HE as [HE|[-> _]]; [|specialize (Hopt n Hr); lia].
           destruct (H4 v _ n Hv HE Hs Hr) as (gq & Hgq & Hle).
           simplify_eq. lia.
        -- rewrite lookup_insert_ne by done.
           destruct HE as [HE|[-> ->]]; [eauto|done].
      * intros n gn. destruct (decide (n = (nx, ny))) as [->|Hne].
        -- rewrite lookup_insert_eq. intros [= <-]. right. eexists.
           unfold heappush. apply elem_of_cons. by left.
        -- rewrite lookup_insert_ne by done. intros Hn.
           destruct (H5 n gn Hn) as [|[par Hpar]]; [by left|right].
           exists par. unfold heappush. apply elem_of_cons. by right.
      * intros f' g' n par Hin. unfold heappush in Hin.
        apply elem_of_cons in Hin as [[= -> -> -> ->]|Hin]; [|eauto].
        split; [done|]. right. exists cur, c. split_and!; try done; lia.
      * intros f' g' n par Hin. unfold heappush in Hin.
        apply elem_of_cons in Hin as [[= -> -> -> ->]|Hin].
        { rewrite lookup_insert_eq. eexists. split; [done|lia]. }
        destruct (H7 _ _ _ _ Hin) as (gn & Hgn & Hle).
        destruct (decide (n = (nx, ny))) as [->|Hne].
        -- rewrite lookup_insert_eq. eexists. split; [done|].
           simplify_eq. lia.
        -- rewrite lookup_insert_ne by done. eauto.
      * unfold heappush; rewrite ?fmap_cons; simpl. apply NoDup_cons.
        split; [|done].
        intros ([[[f' g'] n] par] & [= <- <-] & Hin)%list_elem_of_fmap.
        destruct (H7 _ _ _ _ Hin) as (gn & Hgn & Hle). simplify_eq. lia.
    + split; try done. intros v q n Hv [HE|[-> ->]] Hs Hr; [eauto|].
      exists old. split; [done|]. specialize (Hopt n Hr). lia.
  - simpl. split; simpl.
    + rewrite lookup_insert_ne; [done|]. intros <-. simplify_eq.
    + done.
    + done.
    + intros v q n Hv HE Hs Hr.
      destruct (decide (q = (nx, ny))) as [->|Hne].
      * rewrite lookup_insert_eq. eexists. split; [done|].
        destruct HE as [HE|[-> _]]; [|specialize (Hopt n Hr); lia].
        destruct (H4 v _ n Hv HE Hs Hr) as (gq & Hgq & Hle). simplify_eq.
      * rewrite lookup_insert_ne by done.
        destruct HE as [HE|[-> ->]]; [eauto|done].
    + intros n gn. destruct (decide (n = (nx, ny))) as [->|Hne].
      * rewrite lookup_insert_eq. intros [= <-]. right. eexists.
        unfold heappush. apply elem_of_cons. by left.
      * rewrite lookup_insert_ne by done. intros Hn.
        destruct (H5 n gn Hn) as [|[par Hpar]]; [by left|right].
        exists par. unfold heappush. apply elem_of_cons. by right.
    + intros f' g' n par Hin. unfold heappush in Hin.
      apply elem_of_cons in Hin as [[= -> -> -> ->]|Hin]; [|eauto].
      split; [done|]. right. exists cur, c. split_and!; try done; lia.
    + intros f' g' n par Hin. unfold heappush in Hin.
      apply elem_of_cons in Hin as [[= -> -> -> ->]|Hin].
      { rewrite lookup_insert_eq. eexists. split; [done|lia]. }
      destruct (H7 _ _ _ _ Hin) as (gn & Hgn & Hle).
      destruct (decide (n = (nx, ny))) as [->|Hne]; [simplify_eq|].
      rewrite lookup_insert_ne by done. eauto.
    + unfold heappush; rewrite ?fmap_cons; simpl. apply NoDup_cons.
        split; [|done].
      intros ([[[f' g'] n] par] & [= <- <-] & Hin)%list_elem_of_fmap.
      destruct (H7 _ _ _ _ Hin) as (gn & Hgn & Hle). simplify_eq.
Qed.
Lemma astar_relax_length g cur gscore openh d :
  (length (astar_relax blocked goal g cur (gscore, openh) d).2
   ≤ S (length openh))%nat.
Proof.
  unfold astar_relax. repeat case_match; simpl; lia.
Qed.

Lemma astar_relax_fold came visited g cur c ds :
  chain came cur c → path_from blocked start (rev c) cur →
  Z.of_nat (length c) = g + 1 →
  (∀ n, reach blocked start cur n → g <= Z.of_nat n) →
  (∀ d, d ∈ ds → d ∈ DIRS) →
  ∀ E openh gscore,
  astar_inv E openh came gscore visited →
  let r := foldl (astar_relax blocked goal g cur) (gscore, openh) ds in
  astar_inv (λ v q, E v q ∨
               (v = cur ∧ ∃ d, d ∈ ds ∧ q = (cur.1 + d.1, cur.2 + d.2)))
    r.2 came r.1 visited ∧
  (length r.2 ≤ length openh + length ds)%nat.
Proof.
  intros Hc Hp Hlen Hopt. induction ds as [|d ds IH]; intros Hds E openh gscore Inv.
  - simpl. split; [|lia]. eapply astar_inv_weaken; [|exact Inv].
    intros v q [?|(_ & d & Hd & _)] _; [done|by apply elem_of_nil in Hd].
  - cbn [foldl].
    pose proof (astar_relax_inv E openh came gscore visited g cur c d
                  Inv Hc Hp Hlen Hopt (Hds d ltac:(left))) as Inv1.
    pose proof (astar_relax_length g cur gscore openh d) as Hl1.
    destruct (astar_relax blocked goal g cur (gscore, openh) d)
      as [gs1 oh1]; simpl in *.
    destruct (IH (λ d' Hd', Hds d' ltac:(by right)) _ _ _ Inv1) as [Inv2 Hl2].
    split; [|lia]. eapply astar_inv_weaken; [|exact Inv2].
    intros v q [?|(-> & d' & Hd' & ->)] _; [by left; left|].
    apply elem_of_cons in Hd' as [->|Hd']; [left; right; done|right].
    split; [done|]. by exists d'.
Qed.

Lemma astar_loop_correct fuel :
  ∀ openh came gscore visited,
  astar_inv (λ _ _, True) openh came gscore visited →
  (5 * unvisited visited + length openh < fuel)%nat →
  ∃ r, astar_loop blocked fuel goal openh came gscore visited = Some r ∧
       ((r = [] ∧ ∀ n, ¬ reach blocked start goal n) ∨
        (path_from blocked start r goal ∧
         ∀ n, reach blocked start goal n → (length r ≤ S n)%nat)).
Proof.
  induction fuel as [|fuel IH]; intros openh came gscore visited Inv Hm;
    [lia|].
  cbn [astar_loop].
  destruct (heappop aentry_ltb openh) as [[[[[f g] cur] par] rest]|] eqn:Hpop.
  2:{ exists []. split; [done|]. left. split; [done|]. intros n Hn.
      apply heappop_None in Hpop as ->.
      destruct (astar_frontier _ _ _ _ _ _ Inv Hn (ai_goal _ _ _ _ _ Inv))
        as (e & He & _).
      by apply elem_of_nil in He. }
  pose proof (heappop_length _ _ _ _ Hpop) as Hlen.
  destruct (decide (cur ∈ visited)) as [Hv|Hv].
  { apply IH; [|lia]. by eapply (astar_inv_skip _ _ _ _ (f, g, cur, par)). }
  assert (cur ∈ start :: cells) as Hcell.
  { destruct (ai_heap _ _ _ _ _ Inv f g cur par) as [_ Hcase].
    { eapply heappop_elem; [exact Hpop|by left]. }
    destruct Hcase as [(_ & -> & _)|(p & c & _ & [_ [Hb _]] & _)]; [by left|].
    right. destruct cur. by apply in_bounds_cells. }
  destruct (astar_inv_pop _ _ _ _ _ _ _ _ _ Inv Hpop Hv)
    as (c & Hc1 & Hc2 & Hc3 & Hopt & Hinv).
  destruct (decide (cur = goal)) as [->|Hg].
  { exists (rev c). split.
    - rewrite (astar_walk_back_chain _ _ _ Hc1) by lia. done.
    - right. split; [done|]. intros n Hn. rewrite length_rev.
      specialize (Hopt n Hn). lia. }
  specialize (Hinv Hg).
  destruct (astar_relax_fold _ _ g cur c DIRS Hc1 Hc2 Hc3 Hopt
              (λ _ H, H) _ _ _ Hinv) as [Inv' Hlen'].
  destruct (foldl (astar_relax blocked goal g cur) (gscore, rest) DIRS)
    as [gs' oh'] eqn:Hfold. simpl in Inv', Hlen'.
  apply IH.
  - eapply astar_inv_weaken; [|exact Inv']. intros v q _ [Hs _].
    destruct (decide (v = cur)) as [->|Hne]; [|by left].
    right. split; [done|]. by apply adjacent_dirs.
  - pose proof (unvisited_insert cur visited Hcell Hv). simpl in Hlen'. lia.
Qed.
Lemma astar_init_inv :
  astar_inv (λ _ _, True) (heappush [] (h goal start, 0, start, None))
    ∅ {[start := 0]} ∅.
Proof.
  split.
  - apply lookup_singleton_eq.
  - set_solver.
  - intros v. rewrite lookup_empty. split; [set_solver|by intros [? ?]].
  - set_solver.
  - intros n gn Hn. apply lookup_singleton_Some in Hn as [<- <-].
    right. exists None. unfold heappush. set_solver.
  - intros f g n par Hin. unfold heappush in Hin.
    apply list_elem_of_singleton in Hin as [= -> -> -> ->].
    split; [lia|by left].
  - intros f g n par Hin. unfold heappush in Hin.
    apply list_elem_of_singleton in Hin as [= -> -> -> ->].
    exists 0. by rewrite lookup_singleton_eq.
  - unfold heappush. simpl. apply NoDup_singleton.
Qed.

(** No two entries of a heap of [astar] agree on [(g, cur)], so the order
    of two entries is settled before their parents would be compared. *)
Lemma astar_keys_distinct E openh came gscore visited i j (e1 e2 : aentry) :
  astar_inv E openh came gscore visited →
  openh !! i = Some e1 → openh !! j = Some e2 →
  e1.1.1.2 = e2.1.1.2 → e1.1.2 = e2.1.2 → i = j.
Proof.
  intros Inv Hi Hj Hg Hc.
  eapply (NoDup_lookup _ i j (e1.1.1.2, e1.1.2)); [exact (ai_nodup _ _ _ _ _ Inv)|..].
  - by rewrite list_lookup_fmap, Hi.
  - by rewrite list_lookup_fmap, Hj, Hg, Hc.
Qed.

Lemma unvisited_bound visited : (unvisited visited ≤ S (length cells))%nat.
Proof. unfold unvisited. apply (length_filter _ (start :: cells)). Qed.

Lemma astar_correct :
  ∃ r, astar blocked start goal = Some r ∧
       ((r = [] ∧ ∀ n, ¬ reach blocked start goal n) ∨
        (path_from blocked start r goal ∧
         ∀ n, reach blocked start goal n → (length r ≤ S n)%nat)).
Proof.
  unfold astar. destruct (decide (start = goal)) as [<-|Hne].
  - exists [start]. split; [done|]. right. split; [constructor|].
    intros n _. simpl. lia.
  - apply astar_loop_correct; [apply astar_init_inv|].
    pose proof (unvisited_bound ∅). unfold search_fuel, heappush.
    cbn [length]. lia.
Qed.
End AstarCorrect.

(** ** Correctness of [dijkstra] *)

Section DijkstraCorrect.
Variable blocked : Z → Z → bool.
Variables start goal : pos.

Local Abbreviation dijkstra_inv := (dijkstra_inv blocked start goal) (only parsing).
Local Abbreviation di_start := (di_start blocked start goal) (only parsing).
Local Abbreviation di_goal := (di_goal blocked start goal) (only parsing).
Local Abbreviation di_exp := (di_exp blocked start goal) (only parsing).
Local Abbreviation di_front := (di_front blocked start goal) (only parsing).
Local Abbreviation di_pq := (di_pq blocked start goal) (only parsing).
Local Abbreviation di_dist := (di_dist blocked start goal) (only parsing).
Local Abbreviation di_prev := (di_prev blocked start goal) (only parsing).
Local Abbreviation dchain := (dchain start) (only parsing).

Lemma dijkstra_walk_back_chain prev v c :
  dchain prev v c → ∀ fuel acc, (length c ≤ fuel)%nat →
  dijkstra_walk_back fuel start prev v acc = Some (rev (acc ++ c)).
Proof.
  induction 1 as [|v p c Hv Hp _ IH]; intros [|fuel] acc Hf; simpl in *;
    try lia.
  - rewrite decide_True by (by right). by rewrite decide_True.
  - rewrite decide_True by (left; eauto). rewrite decide_False by done.
    rewrite Hp, IH by lia. by rewrite <- app_assoc.
Qed.

Lemma dijkstra_chain_exists E pq dist prev visited :
  dijkstra_inv E pq dist prev visited →
  ∀ k v dv, dist !! v = Some dv → dv <= Z.of_nat k →
  ∃ c, dchain prev v c ∧ path_from blocked start (rev c) v ∧
       Z.of_nat (length c) <= dv + 1.
Proof.
  intros Inv. induction k as [|k IH]; intros v dv Hv Hk.
  - destruct (di_dist _ _ _ _ _ Inv v dv Hv) as (H0 & [->|[p Hp]] & _).
    + exists [start]. split; [constructor|]. split; [constructor|simpl; lia].
    + destruct (decide (v = start)) as [->|Hne].
      { exists [start]. split; [constructor|].
        split; [constructor|simpl; lia]. }
      destruct (di_prev _ _ _ _ _ Inv v p Hp) as (_ & dp & dn & Hdp & Hdn & Hle).
      destruct (di_dist _ _ _ _ _ Inv p dp Hdp) as (? & _). simplify_eq. lia.
  - destruct (decide (v = start)) as [->|Hne].
    { destruct (di_dist _ _ _ _ _ Inv start dv Hv) as (H0 & _).
      exists [start]. split; [constructor|].
      split; [constructor|simpl; lia]. }
    destruct (di_dist _ _ _ _ _ Inv v dv Hv) as (H0 & [->|[p Hp]] & _);
      [done|].
    destruct (di_prev _ _ _ _ _ Inv v p Hp) as (Hs & dp & dn & Hdp & Hdn & Hle).
    simplify_eq.
    destruct (IH p dp Hdp ltac:(lia)) as (c & Hc1 & Hc2 & Hc3).
    exists (v :: c). split; [by eapply dchain_step|].
    split; [simpl; by eapply path_from_snoc|simpl; lia].
Qed.

Lemma dijkstra_frontier pq dist prev visited q n :
  dijkstra_inv (λ _ _, True) pq dist prev visited →
  reach blocked start q n → q ∉ visited →
  ∃ e : dentry, e ∈ pq ∧ e.1 <= Z.of_nat n.
Proof.
  intros Inv. induction 1 as [|p q n Hr IH Hs]; intros Hq.
  - destruct (di_front _ _ _ _ _ Inv _ _ (di_start _ _ _ _ _ Inv)) as [|Hp];
      [done|].
    eexists. split; [exact Hp|]. simpl. lia.
  - destruct (decide (p ∈ visited)) as [Hp|Hp].
    + destruct (di_exp _ _ _ _ _ Inv p q n Hp I Hs Hr) as (dq & Hdq & Hle).
      destruct (di_front _ _ _ _ _ Inv _ _ Hdq) as [|Hin]; [done|].
      eexists. split; [exact Hin|]. simpl. lia.
    + destruct (IH Hp) as (e & He & Hle). exists e. split; [done|lia].
Qed.

Lemma dijkstra_inv_skip pq dist prev visited e rest :
  dijkstra_inv (λ _ _, True) pq dist prev visited →
  heappop dentry_ltb pq = Some (e, rest) → e.2 ∈ visited →
  dijkstra_inv (λ _ _, True) rest dist prev visited.
Proof.
  intros Inv Hpop Hv. pose proof (heappop_elem _ _ _ _ Hpop) as Hel.
  destruct Inv as [H1 H2 H3 H4 H5 H6 H7 H8]. split; try done.
  - intros n dn Hn. destruct (H5 n dn Hn) as [|Hin]; [by left|].
    apply Hel in Hin as [<-|Hin]; [by left|by right].
  - intros d n Hin. apply H6, Hel. by right.
Qed.

Lemma dijkstra_inv_pop pq dist prev visited d cur rest :
  dijkstra_inv (λ _ _, True) pq dist prev visited →
  heappop dentry_ltb pq = Some ((d, cur), rest) →
  cur ∉ visited →
  (∀ n, reach blocked start cur n → d <= Z.of_nat n) ∧
  (∃ dc, dist !! cur = Some dc ∧ dc <= d) ∧
  (cur ≠ goal →
   dijkstra_inv (λ v _, v ≠ cur) rest dist prev ({[cur]} ∪ visited)).
Proof.
  intros Inv Hpop Hv. pose proof (heappop_elem _ _ _ _ Hpop) as Hel.
  assert ((d, cur) ∈ pq) as Hin by (apply Hel; by left).
  split; [|split].
  - intros n Hn.
    destruct (dijkstra_frontier _ _ _ _ _ _ Inv Hn Hv) as (e & He & Hle).
    pose proof (dpop_least _ _ _ _ Hpop e He). lia.
  - by apply (di_pq _ _ _ _ _ Inv).
  - intros Hg. destruct Inv as [H1 H2 H3 H4 H5 H6 H7 H8]. split; try done.
    + set_solver.
    + intros v q n Hvv Hne Hs Hr. apply (H4 v q n); [set_solver|done..].
    + intros n dn Hn. destruct (H5 n dn Hn) as [|Hin']; [set_solver|].
      apply Hel in Hin' as [[= -> ->]|Hin']; [set_solver|by right].
    + intros d' n Hin'. apply H6, Hel. by right.
Qed.

Lemma dijkstra_inv_weaken (E E' : pos → pos → Prop) pq dist prev visited :
  (∀ v q, E' v q → step blocked v q → E v q) →
  dijkstra_inv E pq dist prev visited →
  dijkstra_inv E' pq dist prev visited.
Proof. intros HE [H1 H2 H3 H4 H5 H6 H7 H8]. split; eauto. Qed.
Lemma dir_moves (cur : pos) d :
  d ∈ DIRS → (cur.1 + d.1, cur.2 + d.2) ≠ cur.
Proof.
  intros Hd Heq. destruct cur as [x y]. simpl in Heq.
  repeat (apply elem_of_cons in Hd as [->|Hd]; [simplify_eq/=; lia|]).
  by apply elem_of_nil in Hd.
Qed.

Lemma dijkstra_relax_inv E pq dist prev visited d cur dir :
  dijkstra_inv E pq dist prev visited →
  (∃ dc, dist !! cur = Some dc ∧ dc <= d) →
  (∀ n, reach blocked start cur n → d <= Z.of_nat n) →
  dir ∈ DIRS →
  let r := dijkstra_relax blocked d cur (dist, prev, pq) dir in
  dijkstra_inv
    (λ v q, E v q ∨ (v = cur ∧ q = (cur.1 + dir.1, cur.2 + dir.2)))
    r.2 r.1.1 r.1.2 visited ∧
  (∃ dc, r.1.1 !! cur = Some dc ∧ dc <= d).
Proof.
  intros Inv (dc & Hdc & Hdcle) Hopt Hd. unfold dijkstra_relax.
  set (nx := cur.1 + dir.1). set (ny := cur.2 + dir.2).
  pose proof (dir_moves cur dir Hd) as Hmove. fold nx ny in Hmove.
  pose proof (di_dist _ _ _ _ _ Inv cur dc Hdc) as (Hdc0 & _ & _).
  destruct Inv as [H1 H2 H3 H4 H5 H6 H7 H8].
  destruct (in_bounds nx ny) eqn:Hb; simpl.
  2:{ split; [|eauto]. split; try done.
      intros v q n Hv [HE|[-> ->]] Hs Hr; [eauto|].
      destruct Hs as [_ [Hs _]]. simpl in Hs. congruence. }
  destruct (blocked nx ny) eqn:Hbl; simpl.
  { split; [|eauto]. split; try done.
    intros v q n Hv [HE|[-> ->]] Hs Hr; [eauto|].
    destruct Hs as [_ [_ Hs]]. simpl in Hs. congruence. }
  assert (step blocked cur (nx, ny)) as Hstep.
  { split; [apply adjacent_dirs; by exists dir|]. unfold passable. auto. }
  assert (match dist !! (nx, ny) with
          | Some old => d + 1 <? old
          | None => true
          end = true →
          ∀ dn, dist !! (nx, ny) = Some dn → d + 1 < dn) as Hupd.
  { intros Hc dn Hdn. rewrite Hdn in Hc. lia. }
  destruct (match dist !! (nx, ny) with
            | Some old => d + 1 <? old
            | None => true
            end) eqn:Hcond; simpl.
  - specialize (Hupd eq_refl). split.
    2:{ exists dc. by rewrite lookup_insert_ne. }
    split; simpl.
    + rewrite lookup_insert_ne; [done|]. intros <-.
      specialize (Hupd _ H1). lia.
    + rewrite lookup_insert_ne; [done|]. intros <-.
      specialize (Hupd _ H1). lia.
    + done.
    + intros v q n Hv HE Hs Hr.
      destruct (decide (q = (nx, ny))) as [->|Hne].
      * rewrite lookup_insert_eq. eexists. split; [done|].
        destruct HE as [HE|[-> _]]; [|specialize (Hopt n Hr); lia].
        destruct (H4 v _ n Hv HE Hs Hr) as (dq & Hdq & Hle).
        specialize (Hupd _ Hdq). lia.
      * rewrite lookup_insert_ne by done.
        destruct HE as [HE|[-> ->]]; [eauto|done].
    + intros n dn. destruct (decide (n = (nx, ny))) as [->|Hne].
      * rewrite lookup_insert_eq. intros [= <-]. right.
        unfold heappush. apply elem_of_cons. by left.
      * rewrite lookup_insert_ne by done. intros Hn.
        destruct (H5 n dn Hn) as [|Hin]; [by left|right].
        unfold heappush. apply elem_of_cons. by right.
    + intros d' n Hin. unfold heappush in Hin.
      apply elem_of_cons in Hin as [[= -> ->]|Hin].
      * rewrite lookup_insert_eq. eexists. split; [done|lia].
      * destruct (H6 d' n Hin) as (dn & Hdn & Hle).
        destruct (decide (n = (nx, ny))) as [->|Hne].
        -- rewrite lookup_insert_eq. eexists. split; [done|].
           specialize (Hupd _ Hdn). lia.
        -- rewrite lookup_insert_ne by done. eauto.
    + intros n dn. destruct (decide (n = (nx, ny))) as [->|Hne].
      * rewrite !lookup_insert_eq. intros [= <-].
        split; [lia|]. split; right; [eauto|apply Hstep].
      * rewrite !lookup_insert_ne by done. apply H7.
    + intros n p. destruct (decide (n = (nx, ny))) as [->|Hne].
      * rewrite !lookup_insert_eq. intros [= <-]. split; [done|].
        exists dc, (d + 1). rewrite lookup_insert_ne by done.
        split; [done|]. split; [done|lia].
      * rewrite lookup_insert_ne by done. intros Hp.
        destruct (H8 n p Hp) as (Hs & dp & dn & Hdp & Hdn & Hle).
        split; [done|]. rewrite (lookup_insert_ne _ _ n) by done.
        destruct (decide (p = (nx, ny))) as [->|Hne'].
        -- rewrite lookup_insert_eq. exists (d + 1), dn.
           specialize (Hupd _ Hdp). split; [done|]. split; [done|lia].
        -- rewrite lookup_insert_ne by done. eauto.
  - split; [|eauto]. split; try done.
    intros v q n Hv [HE|[-> ->]] Hs Hr; [eauto|].
    destruct (dist !! (nx, ny)) as [old|] eqn:Hold; [|done].
    exists old. split; [done|]. specialize (Hopt n Hr). lia.
Qed.

Lemma dijkstra_relax_length d cur dist prev pq dir :
  (length (dijkstra_relax blocked d cur (dist, prev, pq) dir).2
   ≤ S (length pq))%nat.
Proof.
  unfold dijkstra_relax. repeat case_match; simpl; lia.
Qed.

Lemma dijkstra_relax_fold visited d cur ds :
  (∀ n, reach blocked start cur n → d <= Z.of_nat n) →
  (∀ dir, dir ∈ ds → dir ∈ DIRS) →
  ∀ E pq dist prev,
  dijkstra_inv E pq dist prev visited →
  (∃ dc, dist !! cur = Some dc ∧ dc <= d) →
  let r := foldl (dijkstra_relax blocked d cur) (dist, prev, pq) ds in
  dijkstra_inv
    (λ v q, E v q ∨
       (v = cur ∧ ∃ dir, dir ∈ ds ∧ q = (cur.1 + dir.1, cur.2 + dir.2)))
    r.2 r.1.1 r.1.2 visited ∧
  (length r.2 ≤ length pq + length ds)%nat.
Proof.
  intros Hopt. induction ds as [|dir ds IH];
    intros Hds E pq dist prev Inv Hdc.
  - simpl. split; [|lia]. eapply dijkstra_inv_weaken; [|exact Inv].
    intros v q [?|(_ & d' & Hd & _)] _; [done|by apply elem_of_nil in Hd].
  - cbn [foldl].
    pose proof (dijkstra_relax_inv E pq dist prev visited d cur dir
                  Inv Hdc Hopt (Hds dir ltac:(left))) as [Inv1 Hdc1].
    pose proof (dijkstra_relax_length d cur dist prev pq dir) as Hl1.
    destruct (dijkstra_relax blocked d cur (dist, prev, pq) dir)
      as [[dist1 prev1] pq1]; simpl in *.
    destruct (IH (λ d' Hd', Hds d' ltac:(by right)) _ _ _ _ Inv1 Hdc1)
      as [Inv2 Hl2].
    split; [|lia]. eapply dijkstra_inv_weaken; [|exact Inv2].
    intros v q [?|(-> & d' & Hd' & ->)] _; [by left; left|].
    apply elem_of_cons in Hd' as [->|Hd']; [left; right; done|right].
    split; [done|]. by exists d'.
Qed.

Lemma dijkstra_loop_correct fuel :
  ∀ pq dist prev visited,
  dijkstra_inv (λ _ _, True) pq dist prev visited →
  (5 * unvisited start visited + length pq < fuel)%nat →
  ∃ r, dijkstra_loop blocked fuel start goal pq dist prev visited = Some r ∧
       ((r = [] ∧ ∀ n, ¬ reach blocked start goal n) ∨
        (path_from blocked start r goal ∧
         ∀ n, reach blocked start goal n → (length r ≤ S n)%nat)).
Proof.
  induction fuel as [|fuel IH]; intros pq dist prev visited Inv Hm; [lia|].
  cbn [dijkstra_loop].
  destruct (heappop dentry_ltb pq) as [[[d cur] rest]|] eqn:Hpop.
  2:{ exists []. split; [done|]. left. split; [done|]. intros n Hn.
      apply heappop_None in Hpop as ->.
      destruct (dijkstra_frontier _ _ _ _ _ _ Inv Hn (di_goal _ _ _ _ _ Inv))
        as (e & He & _).
      by apply elem_of_nil in He. }
  pose proof (heappop_length _ _ _ _ Hpop) as Hlen.
  destruct (decide (cur ∈ visited)) as [Hv|Hv].
  { apply IH; [|lia]. by eapply (dijkstra_inv_skip _ _ _ _ (d, cur)). }
  destruct (dijkstra_inv_pop _ _ _ _ _ _ _ Inv Hpop Hv)
    as (Hopt & (dc & Hdc & Hdcle) & Hinv).
  assert (cur ∈ start :: cells) as Hcell.
  { destruct (di_dist _ _ _ _ _ Inv cur dc Hdc) as (_ & _ & [->|[Hb _]]);
      [by left|].
    right. destruct cur. by apply in_bounds_cells. }
  destruct (decide (cur = goal)) as [->|Hg].
  { destruct (dijkstra_chain_exists _ _ _ _ _ Inv (Z.to_nat dc) goal dc Hdc)
      as (c & Hc1 & Hc2 & Hc3).
    { destruct (di_dist _ _ _ _ _ Inv goal dc Hdc) as (? & _). lia. }
    exists (rev c). split.
    - rewrite (dijkstra_walk_back_chain _ _ _ Hc1) by lia. done.
    - right. split; [done|]. intros n Hn. rewrite length_rev.
      specialize (Hopt n Hn). lia. }
  specialize (Hinv Hg).
  destruct (dijkstra_relax_fold _ d cur DIRS Hopt (λ _ H, H) _ _ _ _ Hinv
              ltac:(eauto)) as [Inv' Hlen'].
  destruct (foldl (dijkstra_relax blocked d cur) (dist, prev, rest) DIRS)
    as [[dist' prev'] pq'] eqn:Hfold. simpl in Inv', Hlen'.
  apply IH.
  - eapply dijkstra_inv_weaken; [|exact Inv']. intros v q _ [Hs _].
    destruct (decide (v = cur)) as [->|Hne]; [|by left].
    right. split; [done|]. by apply adjacent_dirs.
  - pose proof (unvisited_insert start cur visited Hcell Hv). lia.
Qed.

Lemma dijkstra_init_inv :
  dijkstra_inv (λ _ _, True) (heappush [] (0, start)) {[start := 0]} ∅ ∅.
Proof.
  split.
  - apply lookup_singleton_eq.
  - apply lookup_empty.
  - set_solver.
  - set_solver.
  - intros n dn Hn. apply lookup_singleton_Some in Hn as [<- <-].
    right. unfold heappush. set_solver.
  - intros d n Hin. unfold heappush in Hin.
    apply list_elem_of_singleton in Hin as [= -> ->].
    exists 0. by rewrite lookup_singleton_eq.
  - intros n dn Hn. apply lookup_singleton_Some in Hn as [<- <-].
    split; [lia|]. split; by left.
  - intros n p. by rewrite lookup_empty.
Qed.

Lemma dijkstra_correct :
  ∃ r, dijkstra blocked start goal = Some r ∧
       ((r = [] ∧ ∀ n, ¬ reach blocked start goal n) ∨
        (path_from blocked start r goal ∧
         ∀ n, reach blocked start goal n → (length r ≤ S n)%nat)).
Proof.
  unfold dijkstra. destruct (decide (start = goal)) as [<-|Hne].
  - exists [start]. split; [done|]. right. split; [constructor|].
    intros n _. simpl. lia.
  - apply dijkstra_loop_correct; [apply dijkstra_init_inv|].
    pose proof (unvisited_bound start ∅). unfold search_fuel, heappush.
    cbn [length]. lia.
Qed.
End DijkstraCorrect.

(** ** The nearest-due order *)

Lemma py_min_by_spec {A} (key : A → Z) (l pre : list A) (i : nat) (best : A) :
  pre !! i = Some best →
  (∀ q, q ∈ pre → key best <= key q) →
  (∀ j q, (j < i)%nat → pre !! j = Some q → key best < key q) →
  let m := py_min_by key best l in
  ∃ i', (pre ++ l) !! i' = Some m ∧
        (∀ q, q ∈ pre ++ l → key m <= key q) ∧
        (∀ j q, (j < i')%nat → (pre ++ l) !! j = Some q → key m < key q).
Proof.
  revert pre i best. induction l as [|y l IH]; intros pre i best Hi Hmin Hfst.
  - simpl. exists i. by rewrite app_nil_r.
  - simpl. rewrite (cons_middle y pre l), app_assoc.
    pose proof (lookup_lt_Some _ _ _ Hi) as Hlt.
    destruct (Z.ltb_spec (key y) (key best)) as [Hy|Hy].
    + apply (IH (pre ++ [y]) (length pre)).
      * by rewrite lookup_app_r, Nat.sub_diag by lia.
      * intros q [Hq|Hq%list_elem_of_singleton]%elem_of_app;
          [specialize (Hmin q Hq); lia|subst; lia].
      * intros j q Hj Hq. rewrite lookup_app_l in Hq by done.
        apply list_elem_of_lookup_2 in Hq. specialize (Hmin q Hq). lia.
    + apply (IH (pre ++ [y]) i).
      * by rewrite lookup_app_l.
      * intros q [Hq|Hq%list_elem_of_singleton]%elem_of_app;
          [by apply Hmin|subst; lia].
      * intros j q Hj Hq. rewrite lookup_app_l in Hq by lia. eauto.
Qed.

Lemma py_remove_delete (l : list pos) i m :
  l !! i = Some m → (∀ j q, (j < i)%nat → l !! j = Some q → q ≠ m) →
  py_remove m l = delete i l.
Proof.
  revert i. induction l as [|y l IH]; intros i Hi Hfst; [done|].
  destruct i as [|i]; simpl in *.
  - simplify_eq. by rewrite decide_True.
  - rewrite decide_False by (apply (Hfst 0%nat); [lia|done]).
    f_equal. apply IH; [done|]. intros j q Hj Hq. apply (Hfst (S j)); [lia|done].
Qed.

Lemma manhattan_spec_distance cur p : manhattan cur p = spec_distance cur p.
Proof. unfold manhattan, spec_distance. lia. Qed.

Lemma nn_loop_greedy fuel :
  ∀ remaining cur route, (length remaining ≤ fuel)%nat →
  ∃ seq, nn_loop fuel remaining cur route = Some (route ++ seq) ∧
         greedy cur remaining seq.
Proof.
  induction fuel as [|fuel IH]; intros [|x rest] cur route Hlen;
    simpl in Hlen; try lia.
  - exists []. rewrite app_nil_r. split; [done|constructor].
  - exists []. rewrite app_nil_r. split; [done|constructor].
  - cbn [nn_loop].
    destruct (py_min_by_spec (manhattan cur) rest [x] 0 x eq_refl)
      as (i & Hi & Hmin & Hfst).
    { intros q ->%list_elem_of_singleton. lia. }
    { intros j q Hj. lia. }
    set (nxt := py_min_by (manhattan cur) x rest) in *.
    change ([x] ++ rest) with (x :: rest) in *.
    rewrite (py_remove_delete (x :: rest) i nxt Hi).
    2:{ intros j q Hj Hq ->. specialize (Hfst j nxt Hj Hq). lia. }
    destruct (IH (delete i (x :: rest)) nxt (route ++ [nxt])) as (seq & Hs & Hg).
    { rewrite length_delete by eauto. simpl. lia. }
    exists (nxt :: seq). split.
    + rewrite Hs. by rewrite <- app_assoc.
    + eapply greedy_cons; [exact Hi| | |exact Hg].
      * intros q Hq. rewrite <- !manhattan_spec_distance. by apply Hmin.
      * intros j q Hj Hq. rewrite <- !manhattan_spec_distance. by eapply Hfst.
Qed.

Lemma greedy_perm cur remaining seq :
  greedy cur remaining seq → seq ≡ₚ remaining.
Proof.
  induction 1 as [|cur rem i p seq Hi _ _ _ IH]; [done|].
  rewrite (delete_Permutation rem i p Hi). by constructor.
Qed.

Lemma greedy_det cur remaining seq seq' :
  greedy cur remaining seq → greedy cur remaining seq' → seq = seq'.
Proof.
  intros Hg. revert seq'.
  induction Hg as [|cur rem i p seq Hi Hmin Hfst _ IH]; intros seq' Hg'.
  - inversion Hg' as [|? ? i' p' ? Hi']; [done|]. by destruct i'.
  - inversion Hg' as [|? ? i' p' seq2 Hi' Hmin' Hfst' Hg2]; subst.
    { by destruct i. }
    assert (i = i') as <-.
    { destruct (Nat.lt_trichotomy i i') as [Hlt|[->|Hlt]]; [|done|].
      - specialize (Hfst' i p Hlt Hi).
        specialize (Hmin p' (list_elem_of_lookup_2 _ _ _ Hi')). lia.
      - specialize (Hfst i' p' Hlt Hi').
        specialize (Hmin' p (list_elem_of_lookup_2 _ _ _ Hi)). lia. }
    simplify_eq. f_equal. by apply IH.
Qed.

(** ** The patrol order *)

Lemma key_ltb_asym a b : key_ltb a b = true → key_ltb b a = false.
Proof.
  destruct a as [[ra ya] xa], b as [[rb yb] xb]; simpl. intros H. lex_solve.
Qed.

Lemma key_le_trans a b c : key_le a b → key_le b c → key_le a c.
Proof.
  unfold key_le. destruct a as [[ra ya] xa], b as [[rb yb] xb],
    c as [[rc yc] xc]; simpl. intros H1 H2. lex_solve.
Qed.

Lemma key_le_antisym a b : key_le a b → key_le b a → a = b.
Proof.
  unfold key_le. destruct a as [[ra ya] xa], b as [[rb yb] xb]; simpl.
  intros H1 H2. assert (ra = rb ∧ ya = yb ∧ xa = xb) as (-> & -> & ->);
    [lex_solve|done].
Qed.

Lemma insert_sorted_perm {A} (key : A → Z * Z * Z) x l :
  insert_sorted key x l ≡ₚ x :: l.
Proof.
  induction l as [|y l IH]; simpl; [done|].
  destruct (key_ltb (key y) (key x)); [|done].
  rewrite IH. apply perm_swap.
Qed.

Lemma py_sorted_perm {A} (key : A → Z * Z * Z) l : py_sorted key l ≡ₚ l.
Proof.
  induction l as [|x l IH]; simpl; [done|].
  unfold py_sorted in *. simpl. rewrite insert_sorted_perm. by constructor.
Qed.

Lemma insert_sorted_sorted {A} (key : A → Z * Z * Z) x l :
  StronglySorted (λ a b, key_le (key a) (key b)) l →
  StronglySorted (λ a b, key_le (key a) (key b)) (insert_sorted key x l).
Proof.
  induction 1 as [|y l Hl IH Hy]; simpl.
  - repeat constructor.
  - destruct (key_ltb (key y) (key x)) eqn:Hlt.
    + constructor; [done|].
      rewrite insert_sorted_perm. constructor; [|done].
      by apply key_ltb_asym.
    + constructor; [by constructor|]. constructor; [done|].
      eapply Forall_impl; [exact Hy|]. intros z Hz. simpl in Hz.
      by eapply key_le_trans.
Qed.

Lemma py_sorted_sorted {A} (key : A → Z * Z * Z) l :
  StronglySorted (λ a b, key_le (key a) (key b)) (py_sorted key l).
Proof.
  induction l as [|x l IH]; [constructor|].
  by apply insert_sorted_sorted.
Qed.

Lemma zone_rank_range (z : string) :
  0 <= dict_get ZONE_RANK z 5 <= 5 ∧
  (ZONE_RANK !! z = None → dict_get ZONE_RANK z 5 = 5).
Proof.
  unfold dict_get. split; [|by intros ->].
  destruct (ZONE_RANK !! z) as [r|] eqn:Hr; simpl; [|lia].
  unfold ZONE_RANK in Hr. simpl in Hr.
  repeat (rewrite lookup_insert in Hr; case_decide; [simplify_eq; lia|]).
  by rewrite lookup_empty in Hr.
Qed.

(** ** The frame builders *)

Lemma segments_cons (x y : pos) l :
  segments (x :: y :: l) = (x, y) :: segments (y :: l).
Proof. done. Qed.

Lemma segments_split (pre : list pos) a b post :
  segments (pre ++ a :: b :: post) =
  segments (pre ++ [a]) ++ (a, b) :: segments (b :: post).
Proof.
  induction pre as [|x pre IH]; [done|].
  destruct pre as [|y pre]; simpl app in *.
  - by rewrite !segments_cons.
  - rewrite !segments_cons, IH. done.
Qed.

Lemma segments_short (route : list pos) :
  (length route < 2)%nat → segments route = [].
Proof. destruct route as [|x [|y l]]; simpl; [done..|lia]. Qed.

Lemma astar_segment_ok blocked : segment_ok blocked (astar blocked).
Proof.
  intros a b. destruct (astar_correct blocked a b) as (r & Hr & [[-> _]|[Hp _]]);
    eauto.
Qed.

Lemma dijkstra_segment_ok blocked : segment_ok blocked (dijkstra blocked).
Proof.
  intros a b.
  destruct (dijkstra_correct blocked a b) as (r & Hr & [[-> _]|[Hp _]]); eauto.
Qed.

Lemma segment_arrival blocked a seg b :
  (seg = [] ∨ path_from blocked a seg b) → (1 < length seg)%nat →
  Forall (passable blocked) (tail seg) ∧ passable blocked b.
Proof.
  intros [->|Hp] Hlen; [simpl in Hlen; lia|].
  pose proof (path_from_tail_passable _ _ _ _ Hp) as Ht. split; [done|].
  pose proof (path_from_last _ _ _ _ Hp) as Hl.
  destruct seg as [|x [|y l]]; simpl in Hlen; try lia.
  rewrite last_cons_cons in Hl. simpl in Ht.
  rewrite Forall_forall in Ht. by apply Ht, last_Some_elem_of.
Qed.

Section ReferenceFrames.
Variable blocked : Z → Z → bool.
Variable CLUSTERS : list cluster.
Variable PCT_BY_CLUSTER : gmap string Q.
Variable THRESHOLD_PCT : Q.
Variable END_POS : option pos.

Local Abbreviation body := (build_path_body CLUSTERS PCT_BY_CLUSTER THRESHOLD_PCT END_POS).
Local Abbreviation loop := (build_path_loop CLUSTERS PCT_BY_CLUSTER THRESHOLD_PCT END_POS).

Lemma build_path_body_app mode frames b seg :
  body mode frames b seg = frames ++ body mode [] b seg.
Proof.
  unfold build_path_body. repeat case_match; simpl;
    rewrite ?app_nil_r, <- ?app_assoc; done.
Qed.

Lemma build_path_loop_app pf mode pairs frames :
  loop pf mode pairs frames = (frames ++.) <$> loop pf mode pairs [].
Proof.
  revert frames. induction pairs as [|[a b] pairs IH]; intros frames; simpl.
  - by rewrite app_nil_r.
  - destruct (pf a b) as [seg|]; simpl; [|done].
    rewrite IH, (IH (body mode [] b seg)), (build_path_body_app _ frames).
    destruct (loop pf mode pairs []); simpl; [|done]. by rewrite app_assoc.
Qed.

Lemma build_path_loop_split pf mode ps1 ps2 frames :
  loop pf mode (ps1 ++ ps2) frames =
  loop pf mode ps1 frames ≫= loop pf mode ps2.
Proof.
  revert frames. induction ps1 as [|[a b] ps1 IH]; intros frames; simpl;
    [done|].
  destruct (pf a b); simpl; [apply IH|done].
Qed.

Lemma build_path_loop_total pf mode pairs frames :
  segment_ok blocked pf → is_Some (loop pf mode pairs frames).
Proof.
  intros Hpf. revert frames.
  induction pairs as [|[a b] pairs IH]; intros frames; simpl; [eauto|].
  destruct (Hpf a b) as (seg & -> & _). simpl. apply IH.
Qed.

Lemma build_path_loop_passable pf mode pairs frames res :
  segment_ok blocked pf → Forall (passable blocked) frames →
  loop pf mode pairs frames = Some res → Forall (passable blocked) res.
Proof.
  intros Hpf. revert frames.
  induction pairs as [|[a b] pairs IH]; intros frames Hf; simpl.
  - by intros [= <-].
  - destruct (Hpf a b) as (seg & -> & Hseg). simpl. apply IH.
    unfold build_path_body.
    destruct (Nat.leb_spec (length seg) 1) as [|Hlen]; [done|].
    destruct (segment_arrival _ _ _ _ Hseg Hlen) as [Ht Hb].
    repeat case_match; repeat (apply Forall_app; split); try done;
      by apply Forall_replicate.
Qed.

Lemma build_path_unfold route mode pathfinder :
  build_path blocked CLUSTERS PCT_BY_CLUSTER THRESHOLD_PCT END_POS route mode
    pathfinder =
  loop (if bool_decide (pathfinder = "astar"%string)
        then astar blocked else dijkstra blocked) mode (segments route) [].
Proof.
  unfold build_path. destruct (Nat.ltb_spec (length route) 2) as [Hl|Hl];
    [|done].
  by rewrite segments_short.
Qed.
End ReferenceFrames.

Section MultiFloorFrames.
Variable THRESHOLD_PCT : Q.
Variable blocked : Z → Z → bool.
Variable CLUSTERS : list cluster.

Local Abbreviation body := (build_frames_body THRESHOLD_PCT CLUSTERS).
Local Abbreviation loop := (build_frames_loop THRESHOLD_PCT blocked CLUSTERS).

Lemma build_frames_body_app mode frames b seg :
  body mode frames b seg = frames ++ body mode [] b seg.
Proof.
  unfold build_frames_body. repeat case_match; simpl;
    rewrite ?app_nil_r, <- ?app_assoc; done.
Qed.

Lemma build_frames_loop_app mode pairs frames :
  loop mode pairs frames = (frames ++.) <$> loop mode pairs [].
Proof.
  revert frames. induction pairs as [|[a b] pairs IH]; intros frames; simpl.
  - by rewrite app_nil_r.
  - destruct (astar blocked a b) as [seg|]; simpl; [|done].
    rewrite IH, (IH (body mode [] b seg)), (build_frames_body_app _ frames).
    destruct (loop mode pairs []); simpl; [|done]. by rewrite app_assoc.
Qed.

Lemma build_frames_loop_split mode ps1 ps2 frames :
  loop mode (ps1 ++ ps2) frames = loop mode ps1 frames ≫= loop mode ps2.
Proof.
  revert frames. induction ps1 as [|[a b] ps1 IH]; intros frames; simpl;
    [done|].
  destruct (astar blocked a b); simpl; [apply IH|done].
Qed.

Lemma build_frames_loop_total mode pairs frames :
  is_Some (loop mode pairs frames).
Proof.
  revert frames.
  induction pairs as [|[a b] pairs IH]; intros frames; simpl; [eauto|].
  destruct (astar_segment_ok blocked a b) as (seg & -> & _). simpl. apply IH.
Qed.

Lemma build_frames_loop_passable mode pairs frames res :
  Forall (passable blocked) frames →
  loop mode pairs frames = Some res → Forall (passable blocked) res.
Proof.
  revert frames.
  induction pairs as [|[a b] pairs IH]; intros frames Hf; simpl.
  - by intros [= <-].
  - destruct (astar_segment_ok blocked a b) as (seg & -> & Hseg). simpl.
    apply IH. unfold build_frames_body.
    destruct (Nat.leb_spec (length seg) 1) as [|Hlen]; [done|].
    destruct (segment_arrival _ _ _ _ Hseg Hlen) as [Ht Hb].
    repeat case_match; repeat (apply Forall_app; split); try done;
      by apply Forall_replicate.
Qed.

Lemma build_frames_unfold route mode :
  build_frames THRESHOLD_PCT blocked route CLUSTERS mode =
  loop mode (segments route) [].
Proof.
  unfold build_frames. destruct (Nat.ltb_spec (length route) 2) as [Hl|Hl];
    [|done].
  by rewrite segments_short.
Qed.
End MultiFloorFrames.

(** ** Properties of the path finders *)

Lemma search_results blocked start goal :
  reachable blocked start goal →
  ∃ pa pd, astar blocked start goal = Some pa ∧
           dijkstra blocked start goal = Some pd ∧
           path_from blocked start pa goal ∧
           path_from blocked start pd goal ∧
           (∀ l, is_path blocked start goal l → (length pa ≤ length l)%nat) ∧
           (∀ l, is_path blocked start goal l → (length pd ≤ length l)%nat).
Proof.
  intros Hr. destruct (reachable_reach _ _ _ Hr) as [n Hn].
  destruct (astar_correct blocked start goal) as (pa & Ha & [[_ Hno]|[Hpa Hopta]]);
    [by destruct (Hno n)|].
  destruct (dijkstra_correct blocked start goal)
    as (pd & Hd & [[_ Hno]|[Hpd Hoptd]]); [by destruct (Hno n)|].
  exists pa, pd. split_and!; try done.
  - intros l Hl%path_from_is_path.
    pose proof (path_from_length _ _ _ _ Hl).
    pose proof (path_from_reach _ _ _ _ _ _ (reach_O _ _) Hl) as Hrl.
    specialize (Hopta _ Hrl). lia.
  - intros l Hl%path_from_is_path.
    pose proof (path_from_length _ _ _ _ Hl).
    pose proof (path_from_reach _ _ _ _ _ _ (reach_O _ _) Hl) as Hrl.
    specialize (Hoptd _ Hrl). lia.
Qed.

(** C1: for every grid, every passable start and every goal reachable from
    it, [astar] returns a path that begins at the start, ends at the goal,
    stays on passable cells inside the grid, moves between axis-adjacent
    cells only, and is no longer than any path from the start to the goal
    (every move costs 1, so it is a cheapest one). *)
Theorem astar_optimal_path (blocked : Z → Z → bool) (start goal : pos) :
  passable blocked start → reachable blocked start goal →
  ∃ path, astar blocked start goal = Some path ∧
    head path = Some start ∧ last path = Some goal ∧
    (∀ p, p ∈ path → passable blocked p) ∧
    (∀ i p q, path !! i = Some p → path !! S i = Some q → adjacent p q) ∧
    (∀ l, is_path blocked start goal l → (length path ≤ length l)%nat).
Proof.
  intros Hstart Hr.
  destruct (search_results _ _ _ Hr) as (pa & _ & Ha & _ & Hpa & _ & Hopt & _).
  exists pa. pose proof (proj1 (path_from_is_path _ _ _ _) Hpa) as (Hh & Hl & Hs).
  split_and!; try done.
  - intros p Hp. pose proof (path_from_tail_passable _ _ _ _ Hpa) as Ht.
    destruct pa as [|x pa]; [done|]. simpl in Hh, Ht. simplify_eq.
    apply elem_of_cons in Hp as [->|Hp]; [done|].
    rewrite Forall_forall in Ht. by apply Ht.
  - intros i p q Hi Hj. by destruct (Hs i p q Hi Hj).
Qed.

Lemma demo_route_is_path :
  is_path demo_blocked (0, 0) (2, 0)
    [(0, 0); (0, 1); (0, 2); (1, 2); (2, 2); (2, 1); (2, 0)].
Proof.
  split; [done|]. split; [done|]. intros i p q Hi Hj.
  do 7 (destruct i as [|i]; [by simplify_eq/=|]). done.
Defined.

Lemma astar_optimal_path_witness :
  ∃ path, astar demo_blocked (0, 0) (2, 0) = Some path ∧
    head path = Some (0, 0) ∧ last path = Some (2, 0) ∧
    (∀ p, p ∈ path → passable demo_blocked p) ∧
    (∀ i p q, path !! i = Some p → path !! S i = Some q → adjacent p q) ∧
    (∀ l, is_path demo_blocked (0, 0) (2, 0) l → (length path ≤ length l)%nat).
Proof.
  apply (astar_optimal_path demo_blocked (0, 0) (2, 0)).
  - split; reflexivity.
  - eexists. exact demo_route_is_path.
Defined.

(** C2: for every grid and every pair with the goal reachable from the
    start, [astar] and [dijkstra] return paths of the same length (both are
    paths from the start to the goal; the cells may differ). *)
Theorem astar_dijkstra_same_length (blocked : Z → Z → bool) (start goal : pos) :
  reachable blocked start goal →
  ∃ pa pd, astar blocked start goal = Some pa ∧
           dijkstra blocked start goal = Some pd ∧
           is_path blocked start goal pa ∧ is_path blocked start goal pd ∧
           length pa = length pd.
Proof.
  intros Hr.
  destruct (search_results _ _ _ Hr) as (pa & pd & Ha & Hd & Hpa & Hpd & Hoa & Hod).
  apply path_from_is_path in Hpa, Hpd. exists pa, pd. split_and!; try done.
  specialize (Hoa _ Hpd). specialize (Hod _ Hpa). lia.
Qed.

Lemma astar_dijkstra_same_length_witness :
  ∃ pa pd, astar demo_blocked (0, 0) (2, 0) = Some pa ∧
           dijkstra demo_blocked (0, 0) (2, 0) = Some pd ∧
           is_path demo_blocked (0, 0) (2, 0) pa ∧
           is_path demo_blocked (0, 0) (2, 0) pd ∧
           length pa = length pd.
Proof.
  apply (astar_dijkstra_same_length demo_blocked (0, 0) (2, 0)).
  eexists. exact demo_route_is_path.
Defined.

(** C6: for every position [p] (passable or not) both searches answer
    [findPath(p, p)] with the one-element path [[p]]; the answer is given
    before any heap is built, whatever the grid. *)
Theorem find_path_same_cell (blocked : Z → Z → bool) (p : pos) :
  astar blocked p p = Some [p] ∧ dijkstra blocked p p = Some [p].
Proof. unfold astar, dijkstra. by rewrite !decide_True. Qed.

(** C7: when the goal cannot be reached from the start, both searches
    return the empty list as an ordinary result ([Some []], not a fault and
    not an exhausted budget). *)
Theorem unreachable_goal_empty (blocked : Z → Z → bool) (start goal : pos) :
  ¬ reachable blocked start goal →
  astar blocked start goal = Some [] ∧ dijkstra blocked start goal = Some [].
Proof.
  intros Hno. split.
  - destruct (astar_correct blocked start goal) as (r & Hr & [[-> _]|[Hp _]]);
      [done|].
    destruct Hno. exists r. by apply path_from_is_path.
  - destruct (dijkstra_correct blocked start goal)
      as (r & Hr & [[-> _]|[Hp _]]); [done|].
    destruct Hno. exists r. by apply path_from_is_path.
Qed.

Lemma demo_enclosed a l :
  path_from demo_blocked a l (5, 5) →
  a ≠ (5, 5) → ¬ adjacent a (5, 5) → False.
Proof.
  remember (5, 5) as goal eqn:Hg.
  induction 1 as [a|a b l c [Hadj [Hin Hbl]] Hp IH]; intros Hne Hnadj; [done|].
  subst c. destruct (decide (b = (5, 5))) as [->|Hb]; [done|].
  apply IH; [done..|]. intros Hb'. unfold adjacent in Hb'.
  destruct b as [bx by']. simpl in *. unfold demo_blocked in Hbl.
  apply bool_decide_eq_false in Hbl. apply Hbl.
  assert ((bx = 4 ∧ by' = 5) ∨ (bx = 6 ∧ by' = 5) ∨
          (bx = 5 ∧ by' = 4) ∨ (bx = 5 ∧ by' = 6))
    as [[-> ->]|[[-> ->]|[[-> ->]|[-> ->]]]] by lia; set_solver.
Defined.

Lemma unreachable_goal_empty_witness :
  astar demo_blocked (0, 0) (5, 5) = Some [] ∧
  dijkstra demo_blocked (0, 0) (5, 5) = Some [].
Proof.
  apply (unreachable_goal_empty demo_blocked (0, 0) (5, 5)).
  intros [l Hl%path_from_is_path].
  apply (demo_enclosed _ _ Hl); [done|]. unfold adjacent. simpl. lia.
Defined.

(** ** Properties of the routes *)

Lemma omap_filter_fmap {A B} (b : A → bool) (f : A → B) (l : list A) :
  omap (λ c, if b c then Some (f c) else None) l =
  f <$> filter (λ c, b c = true) l.
Proof.
  induction l as [|x l IH]; [done|]. rewrite filter_cons. cbn [omap list_omap].
  case_decide as Hb.
  - rewrite Hb. simpl. by f_equal.
  - destruct (b x); [done|]. done.
Qed.

Lemma PCT_FILL_lookup CLUSTERS PCT_BY_CLUSTER c :
  c ∈ CLUSTERS →
  PCT_FILL CLUSTERS PCT_BY_CLUSTER !! name c
  = Some (fill_by_name PCT_BY_CLUSTER c).
Proof.
  unfold PCT_FILL, fill_by_name. generalize (∅ : gmap string Q).
  induction CLUSTERS as [|c' l IH] using rev_ind; intros m Hc;
    [by apply elem_of_nil in Hc|].
  rewrite foldl_snoc.
  destruct (decide (name c' = name c)) as [Heq|Hne].
  - by rewrite Heq, lookup_insert_eq.
  - rewrite lookup_insert_ne by done. apply IH.
    apply elem_of_app in Hc as [Hc|Hc%list_elem_of_singleton]; [done|].
    by subst.
Qed.

Lemma DUE_POINTS_spec CLUSTERS PCT_BY_CLUSTER THRESHOLD_PCT :
  DUE_POINTS CLUSTERS PCT_BY_CLUSTER THRESHOLD_PCT =
  due_points_spec THRESHOLD_PCT (fill_by_name PCT_BY_CLUSTER) CLUSTERS.
Proof.
  unfold DUE_POINTS, due_points_spec. rewrite <- omap_filter_fmap.
  apply list_omap_ext, Forall2_same_length_lookup. split; [done|].
  intros i c c' Hc Hc'. simplify_eq. unfold is_due.
  by rewrite (PCT_FILL_lookup _ _ c) by by eapply list_elem_of_lookup_2.
Qed.

Lemma nn_loop_route start end_pos due :
  ∃ route, nn_loop (length due) due start [start] = Some route ∧
    nearest_due_route start end_pos due
      (match end_pos with Some e => route ++ [e] | None => route end).
Proof.
  destruct (nn_loop_greedy (length due) due start [start]) as (seq & Hs & Hg);
    [done|].
  exists ([start] ++ seq). split; [done|]. exists seq.
  pose proof (greedy_perm _ _ _ Hg) as Hperm. split_and!; try done.
  - destruct end_pos; simpl; by rewrite ?app_nil_r.
  - intros seq' Hg'. by eapply greedy_det.
  - intros p Hp. by rewrite <- Hperm.
  - rewrite <- Hperm.
    destruct end_pos; simpl; rewrite ?length_app; simpl; lia.
Qed.

Lemma due_spec_visits threshold_pct (fill : cluster → Q) CLUSTERS seq :
  NoDup (service <$> CLUSTERS) →
  seq ≡ₚ due_points_spec threshold_pct fill CLUSTERS →
  NoDup seq ∧
  ∀ c, c ∈ CLUSTERS →
       (service c ∈ seq ↔ Qle_bool threshold_pct (fill c) = true).
Proof.
  intros Hnd Hperm. split.
  - rewrite Hperm. apply (sublist_NoDup _ (service <$> CLUSTERS)); [done|].
    unfold due_points_spec. apply fmap_sublist, sublist_filter.
  - intros c Hc. rewrite Hperm. unfold due_points_spec.
    rewrite list_elem_of_fmap. split.
    + intros (c' & Heq & [Hdue Hc']%list_elem_of_filter).
      apply list_elem_of_split in Hc as (l1 & l2 & ->).
      rewrite fmap_app, fmap_cons in Hnd.
      apply NoDup_app in Hnd as (_ & Hl1 & Hnd).
      apply NoDup_cons in Hnd as [Hl2 _].
      apply elem_of_app in Hc' as [Hc'|Hc'].
      { destruct (Hl1 (service c')); [by apply list_elem_of_fmap_2|].
        rewrite <- Heq. by left. }
      apply elem_of_cons in Hc' as [->|Hc']; [done|].
      destruct Hl2. rewrite Heq. by apply list_elem_of_fmap_2.
    + intros Hdue. exists c. split; [done|].
      by apply list_elem_of_filter.
Qed.

(** C3, as stated, fails when clusters share a service position.  With the
    clusters ["a"] and ["b"] both served from [(1,1)], the threshold 80,
    the start [(0,0)] and the end [(5,5)]: when ["a"] is at 90 and ["b"]
    at 10 percent, the route of both builders is [(0,0); (1,1); (5,5)],
    whose intermediate waypoint is the service position of the non-DUE
    cluster ["b"]; when ["b"] is at 95 percent the route of
    [build_route_nn] is [(0,0); (1,1); (1,1); (5,5)], which visits the
    service position of the DUE clusters twice. *)
Lemma nearest_due_shared_service_point :
  build_route_nn twin_clusters twin_pct (80 # 1) (Some (5, 5)) (0, 0)
    = Some [(0, 0); (1, 1); (5, 5)] ∧
  (λ r : list pos * list pos * gmap pos string, r.1.1) <$>
    build_routes twin_clusters (80 # 1) (0, 0) (Some (5, 5)) "nn"
      (λ _ _, false)
    = Some [(0, 0); (1, 1); (5, 5)] ∧
  ¬ visits_due_once (80 # 1) (fill_by_name twin_pct) twin_clusters (0, 0)
      (Some (5, 5)) [(0, 0); (1, 1); (5, 5)] ∧
  ¬ visits_due_once (80 # 1) pct twin_clusters (0, 0) (Some (5, 5))
      [(0, 0); (1, 1); (5, 5)] ∧
  build_route_nn twin_clusters twin_pct_both (80 # 1) (Some (5, 5)) (0, 0)
    = Some [(0, 0); (1, 1); (1, 1); (5, 5)] ∧
  ¬ visits_due_once (80 # 1) (fill_by_name twin_pct_both) twin_clusters
      (0, 0) (Some (5, 5)) [(0, 0); (1, 1); (1, 1); (5, 5)].
Proof.
  assert (∀ fill : cluster → Q,
            (∃ c, c ∈ twin_clusters ∧ Qle_bool (80 # 1) (fill c) = false) →
            ¬ visits_due_once (80 # 1) fill twin_clusters (0, 0)
                (Some (5, 5)) [(0, 0); (1, 1); (5, 5)]) as Hone.
  { intros fill (c & Hc & Hnot) (seq & Hroute & _ & Hiff).
    simpl in Hroute. injection Hroute as Hroute.
    apply (app_inj_tail [(1, 1)]) in Hroute as [<- _].
    assert (service c = (1, 1)) as Hsc.
    { unfold twin_clusters in Hc.
      repeat (apply elem_of_cons in Hc as [->|Hc]; [done|]).
      by apply elem_of_nil in Hc. }
    assert (Qle_bool (80 # 1) (fill c) = true) as Hdue.
    { apply Hiff; [done|]. rewrite Hsc. by left. }
    congruence. }
  split; [by vm_compute|]. split; [by vm_compute|].
  split.
  { apply Hone. eexists. split; [by right; left|]. by vm_compute. }
  split.
  { apply Hone. eexists. split; [by right; left|]. by vm_compute. }
  split; [by vm_compute|].
  intros (seq & Hroute & Hnd & _).
  simpl in Hroute. injection Hroute as Hroute.
  apply (app_inj_tail [(1, 1); (1, 1)]) in Hroute as [<- _].
  apply NoDup_cons in Hnd as [Hnot _]. apply Hnot. by left.
Qed.

(** C3, amended: the nearest-due route is the start, then the greedy
    sequence over the DUE service positions (at each step a remaining
    position at the least Manhattan distance [|x1 - x2| + |y1 - y2|] from
    the current position, the earliest listed one on a tie, the chosen
    entry leaving the remaining list), then the end when one is configured;
    this sequence is the only one of that kind.  The intermediate waypoints
    are a rearrangement of the list of the DUE clusters' service positions,
    one entry per DUE cluster: a position is visited once for each DUE
    cluster served from it, so that a position shared with a DUE cluster is
    visited also when another of its clusters is not DUE.  The route has
    [|DUE| + 1 + (1 if end configured)] waypoints.  When the service
    positions of the clusters are pairwise distinct, no position is visited
    twice and the service position of a cluster is an intermediate waypoint
    exactly when the cluster is DUE.  This holds for [build_route_nn] and
    for the ["nn"] branch of [build_routes]. *)
Theorem nearest_due_route_correct (CLUSTERS : list cluster)
    (PCT_BY_CLUSTER : gmap string Q) (threshold_pct : Q) (start : pos)
    (end_pos : option pos) (blocked : Z → Z → bool) :
  (∃ route,
     build_route_nn CLUSTERS PCT_BY_CLUSTER threshold_pct end_pos start
       = Some route ∧
     nearest_due_route start end_pos
       (due_points_spec threshold_pct (fill_by_name PCT_BY_CLUSTER) CLUSTERS)
       route ∧
     (NoDup (service <$> CLUSTERS) →
      visits_due_once threshold_pct (fill_by_name PCT_BY_CLUSTER) CLUSTERS
        start end_pos route)) ∧
  (∃ route,
     build_routes CLUSTERS threshold_pct start end_pos "nn" blocked
       = Some (route, due_points_spec threshold_pct pct CLUSTERS,
               sp2name_of CLUSTERS) ∧
     nearest_due_route start end_pos
       (due_points_spec threshold_pct pct CLUSTERS) route ∧
     (NoDup (service <$> CLUSTERS) →
      visits_due_once threshold_pct pct CLUSTERS start end_pos route)).
Proof.
  assert (∀ fill route,
            nearest_due_route start end_pos
              (due_points_spec threshold_pct fill CLUSTERS) route →
            NoDup (service <$> CLUSTERS) →
            visits_due_once threshold_pct fill CLUSTERS start end_pos route)
    as Hvisits.
  { intros fill route (seq & Hroute & _ & _ & Hperm & _) Hnd.
    destruct (due_spec_visits threshold_pct fill CLUSTERS seq Hnd Hperm)
      as [Hseq Hiff].
    by exists seq. }
  split.
  - unfold build_route_nn. rewrite DUE_POINTS_spec.
    destruct (nn_loop_route start end_pos
      (due_points_spec threshold_pct (fill_by_name PCT_BY_CLUSTER) CLUSTERS))
      as (route & -> & Hr).
    simpl. eexists. split; [done|]. split; [done|]. by apply Hvisits.
  - unfold build_routes. rewrite bool_decide_eq_true_2 by done.
    rewrite (omap_filter_fmap (λ c, Qle_bool threshold_pct (pct c)) service).
    fold (due_points_spec threshold_pct pct CLUSTERS).
    destruct (nn_loop_route start end_pos
      (due_points_spec threshold_pct pct CLUSTERS)) as (route & -> & Hr).
    simpl. eexists. split; [done|]. split; [done|]. by apply Hvisits.
Qed.

(** The configuration of [reference.py]: fills 83, 55, 92, 48, 88 against
    the threshold 80, from the start [(1,19)] and back to it. *)
Example floor1_due_points :
  DUE_POINTS floor1_clusters floor1_pct (80 # 1) = [(3, 6); (2, 16); (32, 16)].
Proof. by vm_compute. Qed.

Example floor1_route_nn :
  build_route_nn floor1_clusters floor1_pct (80 # 1) (Some (1, 19)) (1, 19)
  = Some [(1, 19); (2, 16); (3, 6); (32, 16); (1, 19)].
Proof. by vm_compute. Qed.

Example floor1_route_patrol :
  build_route_patrol_real floor1_clusters (Some (1, 19)) (1, 19)
  = [(1, 19); (2, 16); (17, 18); (32, 16); (22, 4); (3, 6); (1, 19)].
Proof. by vm_compute. Qed.

(** C8, as stated, fails: with no DUE cluster and the end equal to the
    start (the configuration of [reference.py]), the route is
    [[start, start]], not [[start]]. *)
Lemma no_due_route_start_twice :
  due_points_spec (80 # 1) (fill_by_name ∅) floor1_clusters = [] ∧
  build_route_nn floor1_clusters ∅ (80 # 1) (Some (1, 19)) (1, 19)
    = Some [(1, 19); (1, 19)] ∧
  build_route_nn floor1_clusters ∅ (80 # 1) (Some (1, 19)) (1, 19)
    ≠ Some [(1, 19)].
Proof. split; [|split]; [vm_compute; reflexivity..|by vm_compute]. Qed.

(** C8, amended: with no DUE cluster the nearest-due route is the start
    followed by the end whenever an end is configured, also when the end
    equals the start, and [[start]] alone when no end is configured. *)
Theorem no_due_route (CLUSTERS : list cluster)
    (PCT_BY_CLUSTER : gmap string Q) (threshold_pct : Q) (start : pos)
    (end_pos : option pos) (blocked : Z → Z → bool) :
  due_points_spec threshold_pct (fill_by_name PCT_BY_CLUSTER) CLUSTERS = [] →
  due_points_spec threshold_pct pct CLUSTERS = [] →
  build_route_nn CLUSTERS PCT_BY_CLUSTER threshold_pct end_pos start
    = Some (start :: option_list end_pos) ∧
  build_routes CLUSTERS threshold_pct start end_pos "nn" blocked
    = Some (start :: option_list end_pos, [], sp2name_of CLUSTERS).
Proof.
  intros H1 H2. split.
  - unfold build_route_nn. rewrite DUE_POINTS_spec, H1. simpl.
    by destruct end_pos.
  - unfold build_routes. rewrite bool_decide_eq_true_2 by done.
    rewrite (omap_filter_fmap (λ c, Qle_bool threshold_pct (pct c)) service).
    fold (due_points_spec threshold_pct pct CLUSTERS). rewrite H2. simpl.
    by destruct end_pos.
Qed.

Lemma no_due_route_witness :
  build_route_nn floor1_clusters ∅ (95 # 1) (Some (1, 19)) (1, 19)
    = Some [(1, 19); (1, 19)] ∧
  build_routes floor1_clusters (95 # 1) (1, 19) (Some (1, 19)) "nn"
    (λ _ _, false)
    = Some ([(1, 19); (1, 19)], [], sp2name_of floor1_clusters).
Proof.
  apply (no_due_route floor1_clusters ∅ (95 # 1) (1, 19) (Some (1, 19))
           (λ _ _, false)); vm_compute; reflexivity.
Defined.

Lemma sp2zone_of_pairs (l : list cluster) (m : gmap pos string) :
  foldl (λ m c, <[service c := zone c]> m) m l =
  foldl (λ m (sz : pos * string), <[sz.1 := sz.2]> m) m
    ((λ c, (service c, zone c)) <$> l).
Proof. revert m. induction l as [|c l IH]; intros m; simpl; [done|apply IH]. Qed.

Lemma sp2zone_of_last l1 c l2 :
  (∀ c', c' ∈ l2 → service c' ≠ service c) →
  sp2zone_of (l1 ++ c :: l2) !! service c = Some (zone c).
Proof.
  unfold sp2zone_of. rewrite foldl_app. simpl.
  generalize (foldl (λ (m : gmap pos string) c0, <[service c0:=zone c0]> m)
                ∅ l1). intros m.
  assert (<[service c := zone c]> m !! service c = Some (zone c)) as Hm
    by apply lookup_insert_eq.
  revert Hm. generalize (<[service c := zone c]> m). clear m.
  induction l2 as [|c' l2 IH]; intros m Hm Hl2; simpl; [done|].
  apply IH; [|intros c'' Hc''; apply Hl2; by right].
  rewrite lookup_insert_ne; [done|]. apply Hl2. by left.
Qed.

Lemma sp2zone_of_NoDup CLUSTERS c :
  NoDup (service <$> CLUSTERS) → c ∈ CLUSTERS →
  patrol_key (sp2zone_of CLUSTERS) (service c) = cluster_key c.
Proof.
  intros Hnd Hc. apply list_elem_of_split in Hc as (l1 & l2 & ->).
  unfold patrol_key, cluster_key, dict_get at 2.
  rewrite sp2zone_of_last; [done|].
  intros c' Hc'. rewrite fmap_app, fmap_cons in Hnd.
  apply NoDup_app in Hnd as (_ & _ & Hnd). apply NoDup_cons in Hnd as [Hn _].
  intros Heq. apply Hn. rewrite <- Heq. by apply list_elem_of_fmap_2.
Qed.

Lemma insert_sorted_fmap {A B} (f : A → B) key1 key2 x l :
  key2 (f x) = key1 x → (∀ c, c ∈ l → key2 (f c) = key1 c) →
  insert_sorted key2 (f x) (f <$> l) = f <$> insert_sorted key1 x l.
Proof.
  intros Hx. induction l as [|y l IH]; intros Hl; simpl; [done|].
  rewrite Hx, (Hl y) by by left.
  destruct (key_ltb (key1 y) (key1 x)); simpl; [|done].
  f_equal. apply IH. intros c Hc. apply Hl. by right.
Qed.

Lemma py_sorted_fmap {A B} (f : A → B) key1 key2 l :
  (∀ c, c ∈ l → key2 (f c) = key1 c) →
  py_sorted key2 (f <$> l) = f <$> py_sorted key1 l.
Proof.
  induction l as [|x l IH]; intros Hl; [done|].
  change (py_sorted key2 (f <$> x :: l))
    with (insert_sorted key2 (f x) (py_sorted key2 (f <$> l))).
  change (py_sorted key1 (x :: l))
    with (insert_sorted key1 x (py_sorted key1 l)).
  rewrite IH by (intros c Hc; apply Hl; by right).
  apply insert_sorted_fmap; [apply Hl; by left|].
  intros c Hc. apply Hl. right.
  by rewrite <- (py_sorted_perm key1 l).
Qed.

(** C4, as stated, fails when two clusters share a service position: the
    zone used for a position is the one recorded last in [sp2zone], so the
    waypoints are not those of the clusters sorted by their own keys; no
    way of attributing the waypoints to the clusters puts the clusters' keys
    in non-decreasing order. *)
Lemma patrol_shared_service_point :
  build_route_patrol_real shared_point_clusters None (9, 9)
    = [(9, 9); (1, 1); (1, 1); (0, 0)] ∧
  [(9, 9)] ++ spec_patrol_order shared_point_clusters
    = [(9, 9); (1, 1); (0, 0); (1, 1)] ∧
  build_route_patrol_real shared_point_clusters None (9, 9)
    ≠ [(9, 9)] ++ spec_patrol_order shared_point_clusters ∧
  (∀ cs, cs ≡ₚ shared_point_clusters →
     [(9, 9)] ++ (service <$> cs)
       = build_route_patrol_real shared_point_clusters None (9, 9) →
     ¬ StronglySorted (λ c c', key_le (cluster_key c) (cluster_key c')) cs).
Proof.
  split; [by vm_compute|]. split; [by vm_compute|]. split; [by vm_compute|].
  intros cs Hperm Hserv Hsorted.
  assert (build_route_patrol_real shared_point_clusters None (9, 9)
          = [(9, 9); (1, 1); (1, 1); (0, 0)]) as Hroute by (by vm_compute).
  rewrite Hroute in Hserv. clear Hroute.
  pose proof (Permutation_length Hperm) as Hlen.
  destruct cs as [|x [|y [|z [|? ?]]]]; simpl in Hlen; try lia.
  simpl in Hserv. injection Hserv as Hx Hy Hz.
  assert (∀ c, c ∈ shared_point_clusters → service c = (0, 0) →
               cluster_key c = (1, 0, 0)) as Hc.
  { intros c Hin Hs. unfold shared_point_clusters in Hin.
    repeat (apply elem_of_cons in Hin as [->|Hin]; [by vm_compute in Hs|| by vm_compute|]).
    by apply elem_of_nil in Hin. }
  assert (∃ c, c ∈ [x; y] ∧ cluster_key c = (3, 1, 1)) as (c & Hin & Hk).
  { assert (∃ a, a ∈ [x; y; z] ∧ cluster_key a = (3, 1, 1) ∧
                 service a = (1, 1)) as (a & Ha & Hka & Hsa).
    { eexists. split; [rewrite Hperm; by left|]. by vm_compute. }
    rewrite <- Hka. clear Hka.
    apply elem_of_cons in Ha as [Ha|Ha].
    - exists x. split; [by left|]. by rewrite <- Ha.
    - apply elem_of_cons in Ha as [Ha|Ha].
      + exists y. split; [by right; left|]. by rewrite <- Ha.
      + apply list_elem_of_singleton in Ha. rewrite <- Ha in Hz.
        congruence. }
  assert (cluster_key z = (1, 0, 0)) as Hkz.
  { apply Hc; [|done]. rewrite <- Hperm. by right; right; left. }
  assert (key_le (cluster_key c) (cluster_key z)) as Hle.
  { inversion Hsorted as [|? ? Hs1 Hf1]; subst.
    inversion Hs1 as [|? ? Hs2 Hf2]; subst.
    apply elem_of_cons in Hin as [->|Hin].
    - rewrite Forall_forall in Hf1. apply Hf1. by right; left.
    - apply list_elem_of_singleton in Hin as ->.
      rewrite Forall_forall in Hf2. apply Hf2. by left. }
  rewrite Hk, Hkz in Hle. by vm_compute in Hle.
Qed.

(** C4, amended: the full-patrol route is the start, then all service
    positions sorted by [(zoneRank(zone), y, x)], then the end when one is
    configured, where the zone of a position is the zone of the last listed
    cluster with that service position (each cluster's own zone when the
    service positions are pairwise distinct, in which case the route is the
    one of the specification).  The sorted part is a rearrangement of the
    service positions (one visit per cluster), in non-decreasing key order,
    the only such list; zones outside [ZONE_RANK] take the last rank 5; and
    the order depends on the clusters' service points and zones only, not on
    percentages or on the start.  This holds for [build_route_patrol_real]
    and the patrol branch of [build_routes]. *)
Theorem patrol_route_correct (CLUSTERS : list cluster) (threshold_pct : Q)
    (start : pos) (end_pos : option pos) (blocked : Z → Z → bool) :
  ∃ ordered,
    build_route_patrol_real CLUSTERS end_pos start
      = [start] ++ ordered ++ option_list end_pos ∧
    build_routes CLUSTERS threshold_pct start end_pos "patrol" blocked
      = Some ([start] ++ ordered ++ option_list end_pos,
              due_points_spec threshold_pct pct CLUSTERS,
              sp2name_of CLUSTERS) ∧
    ordered ≡ₚ service <$> CLUSTERS ∧
    StronglySorted
      (λ p q, key_le (patrol_key (sp2zone_of CLUSTERS) p)
                     (patrol_key (sp2zone_of CLUSTERS) q)) ordered ∧
    (∀ l, l ≡ₚ service <$> CLUSTERS →
          StronglySorted
            (λ p q, key_le (patrol_key (sp2zone_of CLUSTERS) p)
                           (patrol_key (sp2zone_of CLUSTERS) q)) l →
          l = ordered) ∧
    (∀ l1 c l2, CLUSTERS = l1 ++ c :: l2 →
       (∀ c', c' ∈ l2 → service c' ≠ service c) →
       patrol_key (sp2zone_of CLUSTERS) (service c) = cluster_key c) ∧
    (NoDup (service <$> CLUSTERS) → ordered = spec_patrol_order CLUSTERS) ∧
    (∀ CLUSTERS',
       (λ c, (service c, zone c)) <$> CLUSTERS'
         = (λ c, (service c, zone c)) <$> CLUSTERS →
       py_sorted (patrol_key (sp2zone_of CLUSTERS')) (service <$> CLUSTERS')
         = ordered) ∧
    (∀ z, 0 <= dict_get ZONE_RANK z 5 <= 5 ∧
          (ZONE_RANK !! z = None → dict_get ZONE_RANK z 5 = 5)).
Proof.
  exists (py_sorted (patrol_key (sp2zone_of CLUSTERS)) (service <$> CLUSTERS)).
  split_and!.
  - unfold build_route_patrol_real, sp2zone, service_points.
    destruct end_pos; simpl; by rewrite ?app_nil_r.
  - unfold build_routes. rewrite bool_decide_eq_false_2 by done.
    rewrite (omap_filter_fmap (λ c, Qle_bool threshold_pct (pct c)) service).
    destruct end_pos; simpl; by rewrite ?app_nil_r.
  - apply py_sorted_perm.
  - apply py_sorted_sorted.
  - intros l Hl Hs.
    apply (StronglySorted_unique_strong
             (λ p q, key_le (patrol_key (sp2zone_of CLUSTERS) p)
                            (patrol_key (sp2zone_of CLUSTERS) q)));
      [|done|apply py_sorted_sorted|by rewrite py_sorted_perm].
    intros p q _ _ H1 H2. pose proof (key_le_antisym _ _ H1 H2) as Heq.
    unfold patrol_key in Heq. destruct p, q. simpl in Heq. by simplify_eq.
  - intros l1 c l2 -> Hl2. unfold patrol_key, cluster_key, dict_get at 2.
    by rewrite sp2zone_of_last.
  - intros Hnd. unfold spec_patrol_order. apply py_sorted_fmap.
    intros c Hc. by apply sp2zone_of_NoDup.
  - intros CLUSTERS' Heq.
    assert (service <$> CLUSTERS' = service <$> CLUSTERS) as ->.
    { apply (f_equal (fmap fst)) in Heq.
      by rewrite <- !list_fmap_compose in Heq. }
    unfold sp2zone_of. by rewrite !sp2zone_of_pairs, Heq.
  - apply zone_rank_range.
Qed.

(** ** Properties of the obstacle marking *)

Lemma elem_of_py_range a b k : k ∈ py_range a b ↔ a <= k < b.
Proof. unfold py_range. rewrite elem_of_seqZ. lia. Qed.

Lemma set_cell_true blocked x y x' y' :
  set_cell blocked x y true x' y' = true ↔
  blocked x' y' = true ∨ (x' = x ∧ y' = y).
Proof.
  unfold set_cell. case_decide; simplify_eq; [tauto|].
  split; [tauto|]. intros [?|[-> ->]]; done.
Qed.

Lemma mark_column_spec (l : list Z) blocked xx x' y' :
  foldl (λ blocked yy,
           if in_bounds xx yy then set_cell blocked xx yy true else blocked)
    blocked l x' y' = true ↔
  blocked x' y' = true ∨ (x' = xx ∧ y' ∈ l ∧ in_bounds x' y' = true).
Proof.
  revert blocked. induction l as [|yy l IH]; intros blocked; simpl.
  - split; [tauto|]. intros [?|(_ & []%elem_of_nil & _)]. done.
  - rewrite IH. destruct (in_bounds xx yy) eqn:Hb.
    + rewrite set_cell_true, elem_of_cons. split.
      * intros [[?|[-> ->]]|(-> & ? & ?)]; tauto.
      * intros [?|(-> & [->|?] & ?)]; tauto.
    + rewrite elem_of_cons. split.
      * intros [?|(-> & ? & ?)]; tauto.
      * intros [?|(-> & [->|?] & ?)]; [tauto|congruence|tauto].
Qed.

Lemma mark_row_spec (l : list Z) blocked yy x' y' :
  foldl (λ blocked xx,
           if in_bounds xx yy then set_cell blocked xx yy true else blocked)
    blocked l x' y' = true ↔
  blocked x' y' = true ∨ (x' ∈ l ∧ y' = yy ∧ in_bounds x' y' = true).
Proof.
  revert blocked. induction l as [|xx l IH]; intros blocked; simpl.
  - split; [tauto|]. intros [?|([]%elem_of_nil & _)]. done.
  - rewrite IH. destruct (in_bounds xx yy) eqn:Hb.
    + rewrite set_cell_true, elem_of_cons. split.
      * intros [[?|[-> ->]]|(? & -> & ?)]; tauto.
      * intros [?|([->|?] & -> & ?)]; tauto.
    + rewrite elem_of_cons. split.
      * intros [?|(? & -> & ?)]; tauto.
      * intros [?|([->|?] & -> & ?)]; [tauto|congruence|tauto].
Qed.

Lemma block_rect_spec blocked x y w h x' y' :
  block_rect blocked x y w h x' y' = true ↔
  blocked x' y' = true ∨
  (x <= x' < x + w ∧ y <= y' < y + h ∧ in_bounds x' y' = true).
Proof.
  unfold block_rect. rewrite <- (elem_of_py_range x (x + w) x').
  revert blocked. induction (py_range x (x + w)) as [|xx l IH];
    intros blocked; simpl.
  - split; [tauto|]. intros [?|([]%elem_of_nil & _)]. done.
  - rewrite IH, mark_column_spec, elem_of_py_range, elem_of_cons. split.
    + intros [[?|(-> & ? & ?)]|(? & ? & ?)]; tauto.
    + intros [?|([->|?] & ? & ?)]; tauto.
Qed.

(** C9, as stated, fails.  The first wall of both layouts,
    [line_wall(ax, 0, 0, GRID_W, 0)], calls [block_hline(0, GRID_W, 0)], which
    names the cell [(GRID_W, 0)] outside the grid: nothing is raised, that
    cell is skipped and the cells [(0,0)] to [(GRID_W-1,0)] are marked.  A
    rectangle that runs over the right edge behaves alike. *)
Lemma marking_over_the_edge :
  GRID_W ∈ py_range (Z.min 0 GRID_W) (Z.max 0 GRID_W + 1) ∧
  in_bounds GRID_W 0 = false ∧
  block_hline (λ _ _, false) 0 GRID_W 0 0 0 = true ∧
  block_hline (λ _ _, false) 0 GRID_W 0 (GRID_W - 1) 0 = true ∧
  block_hline (λ _ _, false) 0 GRID_W 0 GRID_W 0 = false ∧
  35 ∈ py_range 33 (33 + 5) ∧ in_bounds 35 0 = false ∧
  block_rect (λ _ _, false) 33 0 5 1 33 0 = true ∧
  block_rect (λ _ _, false) 33 0 5 1 34 0 = true ∧
  block_rect (λ _ _, false) 33 0 5 1 35 0 = false.
Proof.
  split; [by apply elem_of_py_range|].
  do 4 (split; [by vm_compute|]).
  split; [by apply elem_of_py_range|]. by vm_compute.
Qed.

(** C9, amended: marking a rectangle or a horizontal or vertical line
    blocks exactly the named cells that lie inside [[0,W) x [0,H)] and
    leaves every other cell as it was; named cells outside the grid are
    skipped without any error.  (An unguarded single-cell write is a numpy
    item assignment: it raises for an index outside [[-n, n)], and an index
    in [[-n, 0)] addresses the cell [n] further on.) *)
Theorem obstacle_marking (blocked : Z → Z → bool) (x y w h x0 x1 y0 y1 : Z)
    (v : bool) (x' y' : Z) :
  (block_rect blocked x y w h x' y' = true ↔
   blocked x' y' = true ∨
   (x <= x' < x + w ∧ y <= y' < y + h ∧ in_bounds x' y' = true)) ∧
  (block_hline blocked x0 x1 y x' y' = true ↔
   blocked x' y' = true ∨
   (Z.min x0 x1 <= x' <= Z.max x0 x1 ∧ y' = y ∧ in_bounds x' y' = true)) ∧
  (block_vline blocked x y0 y1 x' y' = true ↔
   blocked x' y' = true ∨
   (x' = x ∧ Z.min y0 y1 <= y' <= Z.max y0 y1 ∧ in_bounds x' y' = true)) ∧
  (np_setitem blocked x y v = None ↔
   ¬ (- GRID_W <= x < GRID_W ∧ - GRID_H <= y < GRID_H)) ∧
  (in_bounds x y = true →
   np_setitem blocked x y v = Some (set_cell blocked x y v)) ∧
  (- GRID_W <= x < 0 → 0 <= y < GRID_H →
   np_setitem blocked x y v = Some (set_cell blocked (x + GRID_W) y v)).
Proof.
  split_and!.
  - apply block_rect_spec.
  - unfold block_hline. rewrite mark_row_spec, elem_of_py_range.
    split; intros [?|(? & ? & ?)]; (tauto || (right; split; [lia|tauto])).
  - unfold block_vline. rewrite mark_column_spec, elem_of_py_range.
    split; intros [?|(? & ? & ?)];
      (tauto || (right; split; [tauto|split; [lia|tauto]])).
  - unfold np_setitem, np_index.
    repeat case_match; simpl; split; try done; try lia; intros; exfalso; lia.
  - unfold in_bounds, np_setitem, np_index. intros Hb.
    assert (0 <= x < GRID_W ∧ 0 <= y < GRID_H) as [Hx Hy] by lia.
    repeat case_match; simpl; try done; lia.
  - intros Hx Hy. unfold np_setitem, np_index.
    repeat case_match; simpl; try done; lia.
Qed.

(** ** Properties of the frame sequences *)

(** C10: every position of a frame sequence, dwell repetitions included, is
    inside the grid and not blocked, whatever the route (its start may be
    blocked, a segment may have no path), the mode and the search; a route
    with fewer than two waypoints gives no frame.  This holds for
    [build_path] and for [build_frames], which always return. *)
Theorem frames_passable (blocked : Z → Z → bool) (CLUSTERS : list cluster)
    (PCT_BY_CLUSTER : gmap string Q) (THRESHOLD_PCT : Q)
    (END_POS : option pos) (route : list pos) (mode pathfinder : string) :
  (∃ frames,
     build_path blocked CLUSTERS PCT_BY_CLUSTER THRESHOLD_PCT END_POS route
       mode pathfinder = Some frames ∧
     Forall (passable blocked) frames ∧
     ((length route < 2)%nat → frames = [])) ∧
  (∃ frames,
     build_frames THRESHOLD_PCT blocked route CLUSTERS mode = Some frames ∧
     Forall (passable blocked) frames ∧
     ((length route < 2)%nat → frames = [])).
Proof.
  split.
  - assert (segment_ok blocked
              (if bool_decide (pathfinder = "astar"%string)
               then astar blocked else dijkstra blocked)) as Hpf.
    { case_bool_decide; [apply astar_segment_ok|apply dijkstra_segment_ok]. }
    rewrite build_path_unfold.
    destruct (build_path_loop_total blocked CLUSTERS PCT_BY_CLUSTER
                THRESHOLD_PCT END_POS _ mode (segments route) [] Hpf)
      as [frames Hf].
    exists frames. split; [done|]. split.
    + by eapply build_path_loop_passable.
    + intros Hl. rewrite segments_short in Hf by done. by simplify_eq/=.
  - rewrite build_frames_unfold.
    destruct (build_frames_loop_total THRESHOLD_PCT blocked CLUSTERS mode
                (segments route) []) as [frames Hf].
    exists frames. split; [done|]. split.
    + by eapply build_frames_loop_passable.
    + intros Hl. rewrite segments_short in Hf by done. by simplify_eq/=.
Qed.

Lemma path_from_ne_length blocked a l b :
  path_from blocked a l b → a ≠ b → (1 < length l)%nat.
Proof.
  destruct 1 as [|a b' l c _ Hp]; [done|]. intros _.
  apply path_from_length in Hp. simpl. lia.
Qed.

Lemma elem_of_due_set THRESHOLD_PCT CLUSTERS b :
  b ∈ due_set THRESHOLD_PCT CLUSTERS ↔
  b ∈ due_points_spec THRESHOLD_PCT pct CLUSTERS.
Proof.
  unfold due_set, due_points_spec. rewrite elem_of_list_to_set.
  by rewrite (omap_filter_fmap (λ c, Qle_bool THRESHOLD_PCT (pct c)) service).
Qed.

(** C5, as stated, fails for [build_path]: on arrival at the configured end
    no dwell frame is appended.  Here the end [(1,19)] is reached from
    [(1,18)] in patrol mode over a segment of two cells; it is not DUE, the
    quick check would be 8 frames, and the frames are the arrival cell
    alone. *)
Lemma no_dwell_at_end :
  astar (λ _ _, false) (1, 18) (1, 19) = Some [(1, 18); (1, 19)] ∧
  ((1, 19) ∉ due_points_spec (80 # 1) (fill_by_name ∅) floor1_clusters) ∧
  dwell_count false "patrol" = 8%nat ∧
  build_path (λ _ _, false) floor1_clusters ∅ (80 # 1) (Some (1, 19))
    [(1, 18); (1, 19)] "patrol" "astar" = Some [(1, 19)].
Proof.
  split; [by vm_compute|]. split.
  { assert (due_points_spec (80 # 1) (fill_by_name ∅) floor1_clusters = [])
      as -> by (vm_compute; reflexivity).
    apply not_elem_of_nil. }
  split; by vm_compute.
Qed.

Lemma build_path_arrival blocked CLUSTERS PCT_BY_CLUSTER THRESHOLD_PCT END_POS
    pf mode pre a b post seg :
  segment_ok blocked pf → pf a b = Some seg →
  ∃ F1 F2,
    build_path_loop CLUSTERS PCT_BY_CLUSTER THRESHOLD_PCT END_POS pf mode
      (segments (pre ++ [a])) [] = Some F1 ∧
    build_path_loop CLUSTERS PCT_BY_CLUSTER THRESHOLD_PCT END_POS pf mode
      (segments (b :: post)) [] = Some F2 ∧
    build_path_loop CLUSTERS PCT_BY_CLUSTER THRESHOLD_PCT END_POS pf mode
      (segments (pre ++ a :: b :: post)) []
    = Some (F1 ++
            build_path_body CLUSTERS PCT_BY_CLUSTER THRESHOLD_PCT END_POS
              mode [] b seg ++ F2).
Proof.
  intros Hpf Hseg.
  destruct (build_path_loop_total blocked CLUSTERS PCT_BY_CLUSTER
              THRESHOLD_PCT END_POS pf mode (segments (pre ++ [a])) [] Hpf)
    as [F1 HF1].
  destruct (build_path_loop_total blocked CLUSTERS PCT_BY_CLUSTER
              THRESHOLD_PCT END_POS pf mode (segments (b :: post)) [] Hpf)
    as [F2 HF2].
  exists F1, F2. split; [done|]. split; [done|].
  rewrite segments_split, build_path_loop_split, HF1. simpl. rewrite Hseg.
  simpl. rewrite build_path_loop_app, HF2, build_path_body_app. simpl.
  by rewrite <- app_assoc.
Qed.

Lemma build_frames_arrival THRESHOLD_PCT blocked CLUSTERS mode pre a b post
    seg :
  astar blocked a b = Some seg →
  ∃ F1 F2,
    build_frames_loop THRESHOLD_PCT blocked CLUSTERS mode
      (segments (pre ++ [a])) [] = Some F1 ∧
    build_frames_loop THRESHOLD_PCT blocked CLUSTERS mode
      (segments (b :: post)) [] = Some F2 ∧
    build_frames_loop THRESHOLD_PCT blocked CLUSTERS mode
      (segments (pre ++ a :: b :: post)) []
    = Some (F1 ++ build_frames_body THRESHOLD_PCT CLUSTERS mode [] b seg
               ++ F2).
Proof.
  intros Hseg.
  destruct (build_frames_loop_total THRESHOLD_PCT blocked CLUSTERS mode
              (segments (pre ++ [a])) []) as [F1 HF1].
  destruct (build_frames_loop_total THRESHOLD_PCT blocked CLUSTERS mode
              (segments (b :: post)) []) as [F2 HF2].
  exists F1, F2. split; [done|]. split; [done|].
  rewrite segments_split, build_frames_loop_split, HF1. simpl. rewrite Hseg.
  simpl. rewrite build_frames_loop_app, HF2, build_frames_body_app. simpl.
  by rewrite <- app_assoc.
Qed.

Lemma build_path_body_dwell CLUSTERS PCT_BY_CLUSTER THRESHOLD_PCT END_POS
    mode b seg :
  (1 < length seg)%nat → mode = "nn"%string ∨ mode = "patrol"%string →
  build_path_body CLUSTERS PCT_BY_CLUSTER THRESHOLD_PCT END_POS mode [] b seg
  = tail seg ++
    replicate
      (if decide (END_POS = Some b) then 0%nat
       else dwell_count
              (bool_decide
                 (b ∈ due_points_spec THRESHOLD_PCT
                        (fill_by_name PCT_BY_CLUSTER) CLUSTERS)) mode) b.
Proof.
  intros Hlen Hmode. unfold build_path_body, dwell_count, dwell_frames.
  rewrite DUE_POINTS_spec.
  destruct (Nat.leb_spec (length seg) 1) as [|_]; [lia|]. simpl.
  destruct (decide (END_POS = Some b)) as [->|Hne].
  - rewrite bool_decide_eq_false_2; [by rewrite app_nil_r|].
    intros [?|?]; done.
  - rewrite bool_decide_eq_true_2.
    2:{ destruct END_POS; [right|left]; congruence. }
    destruct Hmode as [->| ->]; simpl.
    + case_bool_decide; simpl; [done|by rewrite app_nil_r].
    + by case_bool_decide.
Qed.

Lemma build_frames_body_dwell THRESHOLD_PCT CLUSTERS mode b seg :
  (1 < length seg)%nat →
  build_frames_body THRESHOLD_PCT CLUSTERS mode [] b seg
  = tail seg ++
    replicate
      (dwell_count
         (bool_decide (b ∈ due_points_spec THRESHOLD_PCT pct CLUSTERS)) mode)
      b.
Proof.
  intros Hlen. unfold build_frames_body, dwell_count, dwell_frames.
  destruct (Nat.leb_spec (length seg) 1) as [|_]; [lia|]. simpl.
  rewrite (bool_decide_ext _ _ (elem_of_due_set THRESHOLD_PCT CLUSTERS b)).
  case_bool_decide; simpl; [done|].
  case_bool_decide; simpl; [done|by rewrite app_nil_r].
Qed.

(** C5, amended: when the frame builder arrives at a waypoint [b] over a
    segment of more than one cell (that is, from a different waypoint [a]
    from which [b] can be reached), the frames of the route are the frames
    up to [a], the segment without its first cell, the dwell copies of [b],
    and the frames from [b] on.  In [build_frames] the dwell copies are
    exactly [max(1, SERVICE_PAUSE_SEC * FPS)] when [b] is DUE and
    [max(1, QUICK_CHECK_SEC * FPS)] when it is not and the mode is patrol,
    at every arrival, the end included.  In [build_path] the same holds at
    every waypoint other than the configured end; on arrival at the
    configured end no dwell copy is appended. *)
Theorem arrival_dwell (blocked : Z → Z → bool) (CLUSTERS : list cluster)
    (PCT_BY_CLUSTER : gmap string Q) (THRESHOLD_PCT : Q)
    (END_POS : option pos) (pre : list pos) (a b : pos) (post : list pos)
    (mode pathfinder : string) :
  a ≠ b → reachable blocked a b →
  mode = "nn"%string ∨ mode = "patrol"%string →
  (∃ seg F1 F2,
     (if bool_decide (pathfinder = "astar"%string)
      then astar blocked else dijkstra blocked) a b = Some seg ∧
     (1 < length seg)%nat ∧
     build_path blocked CLUSTERS PCT_BY_CLUSTER THRESHOLD_PCT END_POS
       (pre ++ [a]) mode pathfinder = Some F1 ∧
     build_path blocked CLUSTERS PCT_BY_CLUSTER THRESHOLD_PCT END_POS
       (b :: post) mode pathfinder = Some F2 ∧
     build_path blocked CLUSTERS PCT_BY_CLUSTER THRESHOLD_PCT END_POS
       (pre ++ a :: b :: post) mode pathfinder
     = Some (F1 ++
             (tail seg ++
              replicate
                (if decide (END_POS = Some b) then 0%nat
                 else dwell_count
                        (bool_decide
                           (b ∈ due_points_spec THRESHOLD_PCT
                                  (fill_by_name PCT_BY_CLUSTER) CLUSTERS))
                        mode) b) ++
             F2)) ∧
  (∃ seg F1 F2,
     astar blocked a b = Some seg ∧ (1 < length seg)%nat ∧
     build_frames THRESHOLD_PCT blocked (pre ++ [a]) CLUSTERS mode = Some F1 ∧
     build_frames THRESHOLD_PCT blocked (b :: post) CLUSTERS mode = Some F2 ∧
     build_frames THRESHOLD_PCT blocked (pre ++ a :: b :: post) CLUSTERS mode
     = Some (F1 ++
             (tail seg ++
              replicate
                (dwell_count
                   (bool_decide
                      (b ∈ due_points_spec THRESHOLD_PCT pct CLUSTERS))
                   mode) b) ++
             F2)).
Proof.
  intros Hab Hr Hmode.
  destruct (search_results _ _ _ Hr) as (pa & pd & Ha & Hd & Hpa & Hpd & _).
  pose proof (path_from_ne_length _ _ _ _ Hpa Hab) as Hla.
  pose proof (path_from_ne_length _ _ _ _ Hpd Hab) as Hld.
  split.
  - set (pf := if bool_decide (pathfinder = "astar"%string)
               then astar blocked else dijkstra blocked).
    assert (segment_ok blocked pf) as Hpf.
    { unfold pf. case_bool_decide;
        [apply astar_segment_ok|apply dijkstra_segment_ok]. }
    assert (∃ seg, pf a b = Some seg ∧ (1 < length seg)%nat)
      as (seg & Hseg & Hlen).
    { unfold pf. case_bool_decide; eauto. }
    destruct (build_path_arrival blocked CLUSTERS PCT_BY_CLUSTER
                THRESHOLD_PCT END_POS pf mode pre a b post seg Hpf Hseg)
      as (F1 & F2 & HF1 & HF2 & HF).
    exists seg, F1, F2. rewrite !build_path_unfold. fold pf.
    split_and!; try done.
    by rewrite HF, build_path_body_dwell.
  - destruct (build_frames_arrival THRESHOLD_PCT blocked CLUSTERS mode
                pre a b post pa Ha) as (F1 & F2 & HF1 & HF2 & HF).
    exists pa, F1, F2. rewrite !build_frames_unfold.
    split_and!; try done.
    by rewrite HF, build_frames_body_dwell.
Qed.

Lemma arrival_dwell_open_floor :
  reachable (λ _ _, false) (1, 19) (2, 19).
Proof.
  exists [(1, 19); (2, 19)]. split; [done|]. split; [done|].
  intros i p q Hi Hj. destruct i as [|[|i]]; by simplify_eq/=.
Defined.

Lemma arrival_dwell_witness :
  (∃ seg F1 F2,
     (if bool_decide ("dijkstra"%string = "astar"%string)
      then astar (λ _ _, false) else dijkstra (λ _ _, false))
       (1, 19) (2, 19) = Some seg ∧
     (1 < length seg)%nat ∧
     build_path (λ _ _, false) floor1_clusters ∅ (80 # 1) (Some (1, 19))
       ([] ++ [(1, 19)]) "patrol" "dijkstra" = Some F1 ∧
     build_path (λ _ _, false) floor1_clusters ∅ (80 # 1) (Some (1, 19))
       [(2, 19); (1, 19)] "patrol" "dijkstra" = Some F2 ∧
     build_path (λ _ _, false) floor1_clusters ∅ (80 # 1) (Some (1, 19))
       ([] ++ [(1, 19); (2, 19); (1, 19)]) "patrol" "dijkstra"
     = Some (F1 ++
             (tail seg ++
              replicate
                (if decide (Some (1, 19) = Some (2, 19)) then 0%nat
                 else dwell_count
                        (bool_decide
                           ((2, 19) ∈ due_points_spec (80 # 1)
                                  (fill_by_name ∅) floor1_clusters))
                        "patrol") (2, 19)) ++
             F2)) ∧
  (∃ seg F1 F2,
     astar (λ _ _, false) (1, 19) (2, 19) = Some seg ∧ (1 < length seg)%nat ∧
     build_frames (80 # 1) (λ _ _, false) ([] ++ [(1, 19)]) floor1_clusters
       "patrol" = Some F1 ∧
     build_frames (80 # 1) (λ _ _, false) [(2, 19); (1, 19)] floor1_clusters
       "patrol" = Some F2 ∧
     build_frames (80 # 1) (λ _ _, false) ([] ++ [(1, 19); (2, 19); (1, 19)])
       floor1_clusters "patrol"
     = Some (F1 ++
             (tail seg ++
              replicate
                (dwell_count
                   (bool_decide
                      ((2, 19) ∈ due_points_spec (80 # 1) pct
                                   floor1_clusters))
                   "patrol") (2, 19)) ++
             F2)).
Proof.
  apply (arrival_dwell (λ _ _, false) floor1_clusters ∅ (80 # 1)
           (Some (1, 19)) [] (1, 19) (2, 19) [(1, 19)] "patrol" "dijkstra").
  - done.
  - exact arrival_dwell_open_floor.
  - by right.
Defined.

(** * Further properties of the searches *)

Lemma search_unreachable blocked start goal :
  ¬ reachable blocked start goal →
  astar blocked start goal = Some [] ∧ dijkstra blocked start goal = Some [].
Proof.
  intros Hno. split.
  - destruct (astar_correct blocked start goal) as (r & Hr & [[-> _]|[Hp _]]);
      [done|].
    destruct Hno. exists r. by apply path_from_is_path.
  - destruct (dijkstra_correct blocked start goal)
      as (r & Hr & [[-> _]|[Hp _]]); [done|].
    destruct Hno. exists r. by apply path_from_is_path.
Qed.

Lemma astar_sound blocked start goal x l :
  astar blocked start goal = Some (x :: l) →
  path_from blocked start (x :: l) goal.
Proof.
  intros Ha.
  destruct (astar_correct blocked start goal) as (r & Hr & [[-> _]|[Hp _]]);
    congruence.
Qed.

Lemma dijkstra_sound blocked start goal x l :
  dijkstra blocked start goal = Some (x :: l) →
  path_from blocked start (x :: l) goal.
Proof.
  intros Ha.
  destruct (dijkstra_correct blocked start goal)
    as (r & Hr & [[-> _]|[Hp _]]); congruence.
Qed.

Lemma path_from_shortest_reach blocked start goal (r : list pos) :
  (∀ n, reach blocked start goal n → (length r ≤ S n)%nat) →
  ∀ l, path_from blocked start l goal → (length r ≤ length l)%nat.
Proof.
  intros Hopt l Hl. pose proof (path_from_length _ _ _ _ Hl).
  pose proof (path_from_reach _ _ _ _ _ _ (reach_O _ _) Hl) as Hrl.
  specialize (Hopt _ Hrl). lia.
Qed.

(** Both searches always return; a non-empty result is a shortest path. *)
Lemma search_total blocked start goal :
  ∃ pa pd, astar blocked start goal = Some pa ∧
           dijkstra blocked start goal = Some pd ∧
           ((pa = [] ∧ pd = [] ∧ ¬ reachable blocked start goal) ∨
            (path_from blocked start pa goal ∧
             path_from blocked start pd goal ∧
             (∀ l, path_from blocked start l goal →
                   (length pa ≤ length l)%nat) ∧
             (∀ l, path_from blocked start l goal →
                   (length pd ≤ length l)%nat))).
Proof.
  destruct (astar_correct blocked start goal) as (pa & Ha & Hca).
  destruct (dijkstra_correct blocked start goal) as (pd & Hd & Hcd).
  exists pa, pd. split; [done|]. split; [done|].
  destruct Hca as [[-> Hno]|[Hpa Hoa]].
  - left. assert (¬ reachable blocked start goal) as Hnr.
    { intros Hr. destruct (reachable_reach _ _ _ Hr) as [n Hn].
      by destruct (Hno n). }
    destruct (search_unreachable _ _ _ Hnr) as [_ Hd']. split; [done|].
    split; [congruence|done].
  - right. destruct Hcd as [[-> Hno]|[Hpd Hod]].
    { pose proof (path_from_reach _ _ _ _ _ _ (reach_O _ _) Hpa) as Hr.
      by destruct (Hno _ Hr). }
    split_and!; try done; by apply path_from_shortest_reach.
Qed.

(** X1: for every passable start and reachable goal, [dijkstra] returns a
    path from the start to the goal over passable, axis-adjacent cells that
    is no longer than any other; in particular its reconstruction loop
    always runs back to the start. *)
Theorem dijkstra_optimal_path (blocked : Z → Z → bool) (start goal : pos) :
  passable blocked start → reachable blocked start goal →
  ∃ path, dijkstra blocked start goal = Some path ∧
    head path = Some start ∧ last path = Some goal ∧
    (∀ p, p ∈ path → passable blocked p) ∧
    (∀ i p q, path !! i = Some p → path !! S i = Some q → adjacent p q) ∧
    (∀ l, is_path blocked start goal l → (length path ≤ length l)%nat).
Proof.
  intros Hstart Hr.
  destruct (search_results _ _ _ Hr) as (_ & pd & _ & Hd & _ & Hpd & _ & Hopt).
  exists pd. pose proof (proj1 (path_from_is_path _ _ _ _) Hpd) as (Hh & Hl & Hs).
  split_and!; try done.
  - intros p Hp. pose proof (path_from_tail_passable _ _ _ _ Hpd) as Ht.
    destruct pd as [|x pd]; [done|]. simpl in Hh, Ht. simplify_eq.
    apply elem_of_cons in Hp as [->|Hp]; [done|].
    rewrite Forall_forall in Ht. by apply Ht.
  - intros i p q Hi Hj. by destruct (Hs i p q Hi Hj).
Qed.

Lemma dijkstra_optimal_path_witness :
  ∃ path, dijkstra demo_blocked (0, 0) (2, 0) = Some path ∧
    head path = Some (0, 0) ∧ last path = Some (2, 0) ∧
    (∀ p, p ∈ path → passable demo_blocked p) ∧
    (∀ i p q, path !! i = Some p → path !! S i = Some q → adjacent p q) ∧
    (∀ l, is_path demo_blocked (0, 0) (2, 0) l → (length path ≤ length l)%nat).
Proof.
  apply (dijkstra_optimal_path demo_blocked (0, 0) (2, 0)).
  - split; reflexivity.
  - eexists. exact demo_route_is_path.
Defined.

Lemma path_from_goal_passable blocked a l c :
  path_from blocked a l c → a ≠ c → passable blocked c.
Proof.
  induction 1 as [a|a b l c [_ Hb] Hp IH]; intros Hne; [done|].
  destruct (decide (b = c)) as [<-|Hbc]; [done|by apply IH].
Qed.

(** X2: a goal that is blocked or outside the grid is never reached: from
    any other cell both searches return the empty list. *)
Theorem blocked_goal_no_path (blocked : Z → Z → bool) (start goal : pos) :
  start ≠ goal → ¬ passable blocked goal →
  astar blocked start goal = Some [] ∧ dijkstra blocked start goal = Some [].
Proof.
  intros Hne Hg. apply search_unreachable.
  intros [l Hl%path_from_is_path]. apply Hg.
  by eapply path_from_goal_passable.
Qed.

Lemma blocked_goal_no_path_witness :
  astar demo_blocked (0, 0) (1, 1) = Some [] ∧
  dijkstra demo_blocked (0, 0) (1, 1) = Some [].
Proof.
  apply (blocked_goal_no_path demo_blocked (0, 0) (1, 1)); [done|].
  intros [_ Hb]. by vm_compute in Hb.
Defined.

Lemma path_from_app_inv blocked a l1 x l2 c :
  path_from blocked a (l1 ++ x :: l2) c →
  path_from blocked x (x :: l2) c ∧
  ∀ l2' c', path_from blocked x (x :: l2') c' →
            path_from blocked a (l1 ++ x :: l2') c'.
Proof.
  revert a. induction l1 as [|y l1 IH]; intros a Hp; simpl in *.
  - pose proof (path_from_head _ _ _ _ Hp). by simplify_eq/=.
  - inversion Hp as [|? b ? ? Hs Hp']; subst; [by destruct l1|].
    destruct (IH _ Hp') as [H1 H2]. split; [done|].
    intros l2' c' Hx. apply path_cons with b; [done|by apply H2].
Qed.

Lemma shortest_path_NoDup blocked a l c :
  path_from blocked a l c →
  (∀ l', path_from blocked a l' c → (length l ≤ length l')%nat) →
  NoDup l.
Proof.
  intros Hp Hopt. apply NoDup_alt. intros i j x Hi Hj.
  assert (∀ i j, (i < j)%nat → l !! i = Some x → l !! j = Some x → False)
    as Hlt.
  { clear i j Hi Hj. intros i j Hij Hi Hj.
    apply list_elem_of_split_length in Hi as (l1 & l2 & -> & ->).
    rewrite lookup_app_r in Hj by lia.
    destruct (j - length l1)%nat as [|k] eqn:Hk; [lia|]. simpl in Hj.
    apply list_elem_of_split_length in Hj as (l2a & l3 & -> & _).
    destruct (path_from_app_inv _ _ _ _ _ _ Hp) as [H1 Hjoin].
    destruct (path_from_app_inv _ x (x :: l2a) x l3 c H1) as [H2 _].
    specialize (Hopt _ (Hjoin _ _ H2)).
    rewrite !length_app in Hopt. simpl in Hopt.
    rewrite !length_app in Hopt. simpl in Hopt. lia. }
  destruct (Nat.lt_trichotomy i j) as [?|[?|?]]; [|done|]; exfalso; eauto.
Qed.

(** X3: a path returned by either search never visits a cell twice. *)
Theorem search_path_NoDup (blocked : Z → Z → bool) (start goal : pos) :
  ∃ pa pd, astar blocked start goal = Some pa ∧
           dijkstra blocked start goal = Some pd ∧
           NoDup pa ∧ NoDup pd.
Proof.
  destruct (search_total blocked start goal)
    as (pa & pd & Ha & Hd & [(-> & -> & _)|(Hpa & Hpd & Hoa & Hod)]).
  - exists [], []. split_and!; try done; constructor.
  - exists pa, pd. split_and!; try done; by eapply shortest_path_NoDup.
Qed.

Lemma adjacent_manhattan a p q :
  adjacent p q → manhattan a q <= manhattan a p + 1.
Proof. unfold adjacent, manhattan. lia. Qed.

Lemma reach_manhattan blocked start q n :
  reach blocked start q n → manhattan start q <= Z.of_nat n.
Proof.
  induction 1 as [|p q n _ IH [Hadj _]].
  - unfold manhattan. lia.
  - pose proof (adjacent_manhattan start p q Hadj). lia.
Qed.

Lemma path_from_manhattan blocked a l c :
  path_from blocked a l c → manhattan a c + 1 <= Z.of_nat (length l).
Proof.
  intros Hp. pose proof (path_from_length _ _ _ _ Hp).
  pose proof (path_from_reach _ _ _ _ _ _ (reach_O _ _) Hp) as Hr.
  apply reach_manhattan in Hr. lia.
Qed.

(** X4: a non-empty result of either search has at least
    [Manhattan distance + 1] cells. *)
Theorem path_length_at_least_manhattan (blocked : Z → Z → bool)
    (start goal : pos) :
  ∃ pa pd, astar blocked start goal = Some pa ∧
           dijkstra blocked start goal = Some pd ∧
           (pa = [] ∨ manhattan start goal + 1 <= Z.of_nat (length pa)) ∧
           (pd = [] ∨ manhattan start goal + 1 <= Z.of_nat (length pd)).
Proof.
  destruct (search_total blocked start goal)
    as (pa & pd & Ha & Hd & [(-> & -> & _)|(Hpa & Hpd & _)]).
  - exists [], []. split_and!; try done; by left.
  - exists pa, pd. split_and!; try done; right; by eapply path_from_manhattan.
Qed.

Lemma box_reach blocked (start goal : pos) :
  in_bounds start.1 start.2 = true → in_bounds goal.1 goal.2 = true →
  (∀ x y, Z.min start.1 goal.1 <= x <= Z.max start.1 goal.1 →
          Z.min start.2 goal.2 <= y <= Z.max start.2 goal.2 →
          blocked x y = false) →
  ∀ n (q : pos),
    Z.of_nat n = manhattan start q →
    Z.min start.1 goal.1 <= q.1 <= Z.max start.1 goal.1 →
    Z.min start.2 goal.2 <= q.2 <= Z.max start.2 goal.2 →
    reach blocked start q n.
Proof.
  intros Hs Hg Hfree. unfold in_bounds in Hs, Hg.
  induction n as [|n IH]; intros [qx qy] Hn Hx Hy; unfold manhattan in Hn;
    simpl in *.
  - assert (qx = start.1 ∧ qy = start.2) as [-> ->] by lia.
    destruct start. constructor.
  - assert (passable blocked (qx, qy)) as Hq.
    { split; simpl; [unfold in_bounds; lia|by apply Hfree]. }
    destruct (decide (qx = start.1)) as [->|Hne].
    + destruct (decide (start.2 < qy)).
      * apply (reach_S _ _ (start.1, qy - 1)).
        -- apply IH; unfold manhattan; simpl; lia.
        -- split; [|done]. unfold adjacent; simpl; lia.
      * apply (reach_S _ _ (start.1, qy + 1)).
        -- apply IH; unfold manhattan; simpl; lia.
        -- split; [|done]. unfold adjacent; simpl; lia.
    + destruct (decide (start.1 < qx)).
      * apply (reach_S _ _ (qx - 1, qy)).
        -- apply IH; unfold manhattan; simpl; lia.
        -- split; [|done]. unfold adjacent; simpl; lia.
      * apply (reach_S _ _ (qx + 1, qy)).
        -- apply IH; unfold manhattan; simpl; lia.
        -- split; [|done]. unfold adjacent; simpl; lia.
Qed.

(** X5: when the start and the goal are in the grid and no cell of the
    rectangle they span is blocked, both searches return a path of exactly
    [Manhattan distance + 1] cells. *)
Theorem open_box_path_length (blocked : Z → Z → bool) (start goal : pos) :
  in_bounds start.1 start.2 = true → in_bounds goal.1 goal.2 = true →
  (∀ x y, Z.min start.1 goal.1 <= x <= Z.max start.1 goal.1 →
          Z.min start.2 goal.2 <= y <= Z.max start.2 goal.2 →
          blocked x y = false) →
  ∃ pa pd, astar blocked start goal = Some pa ∧
           dijkstra blocked start goal = Some pd ∧
           Z.of_nat (length pa) = manhattan start goal + 1 ∧
           Z.of_nat (length pd) = manhattan start goal + 1.
Proof.
  intros Hs Hg Hfree.
  assert (reach blocked start goal (Z.to_nat (manhattan start goal))) as Hr.
  { apply (box_reach blocked start goal Hs Hg Hfree); unfold manhattan; lia. }
  destruct (astar_correct blocked start goal)
    as (pa & Ha & [[_ Hno]|[Hpa Hoa]]); [by destruct (Hno _ Hr)|].
  destruct (dijkstra_correct blocked start goal)
    as (pd & Hd & [[_ Hno]|[Hpd Hod]]); [by destruct (Hno _ Hr)|].
  exists pa, pd. split; [done|]. split; [done|].
  pose proof (path_from_manhattan _ _ _ _ Hpa).
  pose proof (path_from_manhattan _ _ _ _ Hpd).
  specialize (Hoa _ Hr). specialize (Hod _ Hr).
  assert (0 <= manhattan start goal) by (unfold manhattan; lia). lia.
Qed.

Lemma open_box_path_length_witness :
  ∃ pa pd, astar demo_blocked (2, 0) (4, 3) = Some pa ∧
           dijkstra demo_blocked (2, 0) (4, 3) = Some pd ∧
           Z.of_nat (length pa) = manhattan (2, 0) (4, 3) + 1 ∧
           Z.of_nat (length pd) = manhattan (2, 0) (4, 3) + 1.
Proof.
  apply (open_box_path_length demo_blocked (2, 0) (4, 3)); [done..|].
  simpl. intros x y Hx Hy. unfold demo_blocked.
  apply bool_decide_eq_false. intros Hin.
  repeat (apply elem_of_cons in Hin as [[= -> ->]|Hin]; [lia|]).
  by apply elem_of_nil in Hin.
Defined.

Lemma adjacent_sym p q : adjacent p q → adjacent q p.
Proof. unfold adjacent. lia. Qed.

Lemma path_from_rev blocked a l b :
  passable blocked a → path_from blocked a l b →
  path_from blocked b (rev l) a.
Proof.
  intros Ha Hp. induction Hp as [a|a b l c [Hadj Hb] Hp IH]; [constructor|].
  simpl. eapply path_from_snoc; [by apply IH|].
  split; [by apply adjacent_sym|done].
Qed.

(** X6: between two passable cells the way there and the way back have the
    same length, for either search (both are empty when there is no way). *)
Theorem search_symmetric (blocked : Z → Z → bool) (a b : pos) :
  passable blocked a → passable blocked b →
  ∃ p q p' q', astar blocked a b = Some p ∧ astar blocked b a = Some q ∧
               dijkstra blocked a b = Some p' ∧
               dijkstra blocked b a = Some q' ∧
               length p = length q ∧ length p' = length q' ∧
               length p = length p'.
Proof.
  intros Ha Hb.
  destruct (search_total blocked a b)
    as (p & p' & Hp & Hp' & [(-> & -> & Hno)|(H1 & H2 & H3 & H4)]);
  destruct (search_total blocked b a)
    as (q & q' & Hq & Hq' & [(-> & -> & Hno')|(H1' & H2' & H3' & H4')]).
  - exists [], [], [], []. by split_and!.
  - destruct Hno. exists (rev q). apply path_from_is_path.
    by apply path_from_rev.
  - destruct Hno'. exists (rev p). apply path_from_is_path.
    by apply path_from_rev.
  - exists p, q, p', q'. split_and!; try done.
    + pose proof (H3 _ (path_from_rev _ _ _ _ Hb H1')) as E1.
      pose proof (H3' _ (path_from_rev _ _ _ _ Ha H1)) as E2.
      rewrite length_rev in E1, E2. lia.
    + pose proof (H4 _ (path_from_rev _ _ _ _ Hb H2')) as E1.
      pose proof (H4' _ (path_from_rev _ _ _ _ Ha H2)) as E2.
      rewrite length_rev in E1, E2. lia.
    + pose proof (H3 _ H2). pose proof (H4 _ H1). lia.
Qed.

Lemma search_symmetric_witness :
  ∃ p q p' q',
    astar demo_blocked (0, 0) (2, 0) = Some p ∧
    astar demo_blocked (2, 0) (0, 0) = Some q ∧
    dijkstra demo_blocked (0, 0) (2, 0) = Some p' ∧
    dijkstra demo_blocked (2, 0) (0, 0) = Some q' ∧
    length p = length q ∧ length p' = length q' ∧ length p = length p'.
Proof.
  apply (search_symmetric demo_blocked (0, 0) (2, 0)); split; reflexivity.
Defined.

Lemma path_from_fewer_obstacles blocked blocked' a l c :
  (∀ x y, blocked x y = true → blocked' x y = true) →
  path_from blocked' a l c → path_from blocked a l c.
Proof.
  intros Hsub. induction 1 as [a|a b l c [Hadj [Hin Hbl]] Hp IH];
    [constructor|].
  apply path_cons with b; [|done]. split; [done|]. split; [done|].
  destruct (blocked b.1 b.2) eqn:E; [|done]. apply Hsub in E. congruence.
Qed.

(** X7: blocking more cells never shortens a way.  When [blocked'] blocks
    every cell that [blocked] blocks and the goal can still be reached
    under [blocked'], both searches find a path under [blocked] that is no
    longer than the one under [blocked']. *)
Theorem more_obstacles_longer_paths (blocked blocked' : Z → Z → bool)
    (start goal : pos) :
  (∀ x y, blocked x y = true → blocked' x y = true) →
  reachable blocked' start goal →
  ∃ p p' d d',
    astar blocked start goal = Some p ∧
    astar blocked' start goal = Some p' ∧
    dijkstra blocked start goal = Some d ∧
    dijkstra blocked' start goal = Some d' ∧
    (1 ≤ length p ≤ length p')%nat ∧ (1 ≤ length d ≤ length d')%nat.
Proof.
  intros Hsub Hr'.
  assert (reachable blocked start goal) as Hr.
  { destruct Hr' as [l Hl%path_from_is_path]. exists l.
    apply path_from_is_path. by eapply path_from_fewer_obstacles. }
  destruct (search_results _ _ _ Hr) as (p & d & Hp & Hd & Hpp & Hpd & Hop & Hod).
  destruct (search_results _ _ _ Hr')
    as (p' & d' & Hp' & Hd' & Hpp' & Hpd' & _).
  exists p, p', d, d'. split_and!; try done.
  - by eapply path_from_length.
  - apply Hop, path_from_is_path. by eapply path_from_fewer_obstacles.
  - by eapply path_from_length.
  - apply Hod, path_from_is_path. by eapply path_from_fewer_obstacles.
Qed.

Lemma more_obstacles_longer_paths_witness :
  ∃ p p' d d',
    astar (λ _ _, false) (0, 0) (2, 0) = Some p ∧
    astar demo_blocked (0, 0) (2, 0) = Some p' ∧
    dijkstra (λ _ _, false) (0, 0) (2, 0) = Some d ∧
    dijkstra demo_blocked (0, 0) (2, 0) = Some d' ∧
    (1 ≤ length p ≤ length p')%nat ∧ (1 ≤ length d ≤ length d')%nat.
Proof.
  apply (more_obstacles_longer_paths (λ _ _, false) demo_blocked (0, 0) (2, 0)).
  - done.
  - eexists. exact demo_route_is_path.
Defined.

(** * Further properties of the obstacle marking *)

Lemma bool_eq_true_iff (a b : bool) : (a = true ↔ b = true) → a = b.
Proof.
  destruct a, b; intros [H1 H2]; try done.
  - by specialize (H1 eq_refl).
  - by specialize (H2 eq_refl).
Qed.

Lemma block_hline_spec blocked x0 x1 y x' y' :
  block_hline blocked x0 x1 y x' y' = true ↔
  blocked x' y' = true ∨
  (Z.min x0 x1 <= x' <= Z.max x0 x1 ∧ y' = y ∧ in_bounds x' y' = true).
Proof.
  unfold block_hline. rewrite mark_row_spec, elem_of_py_range.
  split; intros [?|(? & ? & ?)]; (tauto || (right; split; [lia|tauto])).
Qed.

Lemma block_vline_spec blocked x y0 y1 x' y' :
  block_vline blocked x y0 y1 x' y' = true ↔
  blocked x' y' = true ∨
  (x' = x ∧ Z.min y0 y1 <= y' <= Z.max y0 y1 ∧ in_bounds x' y' = true).
Proof.
  unfold block_vline. rewrite mark_column_spec, elem_of_py_range.
  split; intros [?|(? & ? & ?)];
    (tauto || (right; split; [tauto|split; [lia|tauto]])).
Qed.

(** X8: marking never unblocks a cell; marking the same rectangle twice is
    marking it once; two rectangles can be marked in either order; a
    rectangle of width or height 0 or less marks nothing; the end points of
    a line can be given in either order; and a line is the rectangle of
    height (or width) 1 over its cells. *)
Theorem marking_algebra (blocked : Z → Z → bool)
    (x y w h x2 y2 w2 h2 x0 x1 y0 y1 px py : Z) :
  (blocked px py = true → block_rect blocked x y w h px py = true) ∧
  (blocked px py = true → block_hline blocked x0 x1 y px py = true) ∧
  (blocked px py = true → block_vline blocked x y0 y1 px py = true) ∧
  block_rect (block_rect blocked x y w h) x y w h px py
    = block_rect blocked x y w h px py ∧
  block_rect (block_rect blocked x y w h) x2 y2 w2 h2 px py
    = block_rect (block_rect blocked x2 y2 w2 h2) x y w h px py ∧
  (w <= 0 ∨ h <= 0 → block_rect blocked x y w h px py = blocked px py) ∧
  block_hline blocked x0 x1 y px py = block_hline blocked x1 x0 y px py ∧
  block_vline blocked x y0 y1 px py = block_vline blocked x y1 y0 px py ∧
  block_hline blocked x0 x1 y px py
    = block_rect blocked (Z.min x0 x1) y (Z.max x0 x1 - Z.min x0 x1 + 1) 1
        px py ∧
  block_vline blocked x y0 y1 px py
    = block_rect blocked x (Z.min y0 y1) 1 (Z.max y0 y1 - Z.min y0 y1 + 1)
        px py.
Proof.
  split_and!.
  - intros H. apply block_rect_spec. by left.
  - intros H. apply block_hline_spec. by left.
  - intros H. apply block_vline_spec. by left.
  - apply bool_eq_true_iff. rewrite !block_rect_spec. tauto.
  - apply bool_eq_true_iff. rewrite !block_rect_spec. tauto.
  - intros Hwh. apply bool_eq_true_iff. rewrite block_rect_spec.
    split; [intros [?|?]; [done|lia]|tauto].
  - unfold block_hline. by rewrite Z.min_comm, Z.max_comm.
  - unfold block_vline. by rewrite Z.min_comm, Z.max_comm.
  - apply bool_eq_true_iff. rewrite block_hline_spec, block_rect_spec.
    split; intros [?|(? & ? & ?)]; (tauto || (right; split_and!; (lia || tauto))).
  - apply bool_eq_true_iff. rewrite block_vline_spec, block_rect_spec.
    split; intros [?|(? & ? & ?)]; (tauto || (right; split_and!; (lia || tauto))).
Qed.

(** * Further properties of the frame builders *)

Lemma build_path_loop_generic CLUSTERS PCT_BY_CLUSTER THRESHOLD_PCT END_POS
    pf mode pairs frames :
  build_path_loop CLUSTERS PCT_BY_CLUSTER THRESHOLD_PCT END_POS pf mode pairs
    frames
  = frames_loop pf
      (build_path_body CLUSTERS PCT_BY_CLUSTER THRESHOLD_PCT END_POS mode)
      pairs frames.
Proof.
  revert frames. induction pairs as [|[a b] pairs IH]; intros frames; simpl;
    [done|].
  destruct (pf a b); simpl; [apply IH|done].
Qed.

Lemma build_frames_loop_generic THRESHOLD_PCT blocked CLUSTERS mode pairs
    frames :
  build_frames_loop THRESHOLD_PCT blocked CLUSTERS mode pairs frames
  = frames_loop (astar blocked) (build_frames_body THRESHOLD_PCT CLUSTERS mode)
      pairs frames.
Proof.
  revert frames. induction pairs as [|[a b] pairs IH]; intros frames; simpl;
    [done|].
  destruct (astar blocked a b); simpl; [apply IH|done].
Qed.

Lemma astar_segment_found blocked : segment_found blocked (astar blocked).
Proof.
  intros a b Hr.
  destruct (search_results _ _ _ Hr) as (pa & _ & Ha & _ & Hp & _). eauto.
Qed.

Lemma dijkstra_segment_found blocked : segment_found blocked (dijkstra blocked).
Proof.
  intros a b Hr.
  destruct (search_results _ _ _ Hr) as (_ & pd & _ & Hd & _ & Hp & _). eauto.
Qed.

Lemma short_tail_nil {A} (l : list A) : (length l ≤ 1)%nat → tail l = [].
Proof. destruct l as [|x [|y l]]; simpl; [done..|lia]. Qed.

Lemma build_path_body_appends CLUSTERS PCT_BY_CLUSTER THRESHOLD_PCT END_POS
    mode :
  appends_arrival
    (build_path_body CLUSTERS PCT_BY_CLUSTER THRESHOLD_PCT END_POS mode).
Proof.
  intros frames b seg. unfold build_path_body.
  destruct (Nat.leb_spec (length seg) 1) as [Hl|Hl].
  { exists 0%nat. by rewrite short_tail_nil, !app_nil_r. }
  repeat case_match;
    try (by eexists; rewrite <- app_assoc);
    exists 0%nat; by rewrite !app_nil_r.
Qed.

Lemma build_frames_body_appends THRESHOLD_PCT CLUSTERS mode :
  appends_arrival (build_frames_body THRESHOLD_PCT CLUSTERS mode).
Proof.
  intros frames b seg. unfold build_frames_body.
  destruct (Nat.leb_spec (length seg) 1) as [Hl|Hl].
  { exists 0%nat. by rewrite short_tail_nil, !app_nil_r. }
  repeat case_match;
    try (by eexists; rewrite <- app_assoc);
    exists 0%nat; by rewrite !app_nil_r.
Qed.

Lemma stutter_walk_cons a l :
  (∀ b, head l = Some b → a = b ∨ adjacent a b) →
  stutter_walk l → stutter_walk (a :: l).
Proof.
  intros Hh Hl [|i] p q Hp Hq; simpl in *.
  - simplify_eq. apply Hh. by rewrite head_lookup.
  - by apply (Hl i).
Qed.

Lemma stutter_walk_tail a l : stutter_walk (a :: l) → stutter_walk l.
Proof. intros H i p q Hp Hq. by apply (H (S i)). Qed.

Lemma stutter_walk_app l1 l2 :
  stutter_walk l1 → stutter_walk l2 →
  (∀ x y, last l1 = Some x → head l2 = Some y → x = y ∨ adjacent x y) →
  stutter_walk (l1 ++ l2).
Proof.
  induction l1 as [|a l1 IH]; intros H1 H2 Hj; [done|].
  simpl. apply stutter_walk_cons.
  - intros b Hb. destruct l1 as [|c l1]; simpl in *.
    + by apply Hj.
    + simplify_eq. by apply (H1 0%nat).
  - apply IH; [by eapply stutter_walk_tail|done|].
    intros x y Hx Hy. apply Hj; [|done].
    destruct l1; [done|]. by rewrite last_cons_cons.
Qed.

Lemma path_from_stutter blocked a seg b :
  path_from blocked a seg b → stutter_walk seg.
Proof.
  intros (_ & _ & Hs)%path_from_is_path i p q Hp Hq. right.
  by destruct (Hs i p q Hp Hq).
Qed.

Lemma replicate_stutter k (b : pos) : stutter_walk (replicate k b).
Proof.
  intros i p q Hp Hq. left.
  apply lookup_replicate in Hp as [-> _].
  by apply lookup_replicate in Hq as [-> _].
Qed.

Lemma last_replicate k (b : pos) :
  last (replicate k b) = if decide (k = 0%nat) then None else Some b.
Proof.
  induction k as [|k IH]; [done|]. simpl replicate.
  destruct k; [done|]. rewrite last_cons, IH. by simpl.
Qed.

Lemma arrival_walk blocked a seg b l k :
  path_from blocked a seg b → stutter_walk l → last l = Some a →
  stutter_walk (l ++ tail seg ++ replicate k b) ∧
  last (l ++ tail seg ++ replicate k b) = Some b.
Proof.
  intros Hp Hl Hlast.
  pose proof (path_from_stutter _ _ _ _ Hp) as Hseg.
  pose proof (path_from_last _ _ _ _ Hp) as Hsl.
  destruct Hp as [a|a c t b Hs Hp]; simpl tail in *.
  - split.
    + apply stutter_walk_app; [done|apply replicate_stutter|].
      intros x y Hx Hy. left. simplify_eq. destruct k; by simplify_eq/=.
    + simpl. rewrite last_app, last_replicate. by case_decide.
  - pose proof (path_from_head _ _ _ _ Hp) as Hh.
    assert (last t = Some b) as Ht.
    { destruct t; [done|]. by rewrite last_cons_cons in Hsl. }
    split.
    + apply stutter_walk_app; [done| |].
      * apply stutter_walk_app;
          [by eapply stutter_walk_tail|apply replicate_stutter|].
        intros x y Hx Hy. left. simplify_eq. destruct k; by simplify_eq/=.
      * intros x y Hx Hy. simplify_eq. right.
        destruct t as [|c' t]; [done|]. simpl in Hh, Hy. simplify_eq.
        apply Hs.
    + rewrite !last_app, last_replicate, Ht. by case_decide.
Qed.

Lemma frames_loop_walk blocked pf body :
  segment_found blocked pf → appends_arrival body →
  ∀ rest a frames o res,
    stutter_walk (o :: frames) → last (o :: frames) = Some a →
    Forall (λ ab : pos * pos, reachable blocked ab.1 ab.2)
      (segments (a :: rest)) →
    frames_loop pf body (segments (a :: rest)) frames = Some res →
    stutter_walk (o :: res) ∧ last (o :: res) = last (a :: rest) ∧
    (∀ w, w ∈ o :: frames ∨ w ∈ rest → w ∈ o :: res).
Proof.
  intros Hpf Hbody. induction rest as [|b rest IH];
    intros a frames o res Hw Hl Hr Hres.
  - simpl in Hres. simplify_eq. split; [done|]. split; [done|].
    intros w [?|[]%elem_of_nil]. done.
  - rewrite segments_cons in Hr, Hres. apply Forall_cons in Hr as [Hab Hr].
    simpl in Hab, Hres. destruct (Hpf a b Hab) as (seg & Hseg & Hp).
    rewrite Hseg in Hres. simpl in Hres.
    destruct (Hbody frames b seg) as [k Hk]. rewrite Hk in Hres.
    destruct (arrival_walk blocked a seg b (o :: frames) k Hp Hw Hl)
      as [Hw' Hl'].
    simpl in Hw', Hl'.
    destruct (IH b _ o res Hw' Hl' Hr Hres) as (H1 & H2 & H3).
    split; [done|]. split; [by rewrite last_cons_cons|].
    intros w [Hin|Hin].
    + apply H3. left. apply elem_of_cons in Hin as [->|Hin]; [by left|].
      right. apply elem_of_app. by left.
    + apply elem_of_cons in Hin as [->|Hin]; [|apply H3; by right].
      apply H3. left. by eapply last_Some_elem_of.
Qed.

Lemma build_path_walk blocked CLUSTERS PCT_BY_CLUSTER THRESHOLD_PCT END_POS
    s rest mode pathfinder :
  Forall (λ ab : pos * pos, reachable blocked ab.1 ab.2)
    (segments (s :: rest)) →
  ∃ frames,
    build_path blocked CLUSTERS PCT_BY_CLUSTER THRESHOLD_PCT END_POS
      (s :: rest) mode pathfinder = Some frames ∧
    stutter_walk (s :: frames) ∧
    last (s :: frames) = last (s :: rest) ∧
    (∀ w, w ∈ s :: rest → w ∈ s :: frames).
Proof.
  intros Hr.
  assert (stutter_walk [s]) as Hs by (intros [|i] p q Hp Hq; done).
  set (pf := if bool_decide (pathfinder = "astar"%string)
             then astar blocked else dijkstra blocked).
  assert (segment_found blocked pf ∧ segment_ok blocked pf) as [Hpf Hok].
  { unfold pf. case_bool_decide;
      [split; [apply astar_segment_found|apply astar_segment_ok]
      |split; [apply dijkstra_segment_found|apply dijkstra_segment_ok]]. }
  rewrite build_path_unfold. fold pf.
  destruct (build_path_loop_total blocked CLUSTERS PCT_BY_CLUSTER
              THRESHOLD_PCT END_POS pf mode (segments (s :: rest)) [] Hok)
    as [frames Hf].
  exists frames. split; [done|]. rewrite build_path_loop_generic in Hf.
  destruct (frames_loop_walk blocked pf _ Hpf
              (build_path_body_appends CLUSTERS PCT_BY_CLUSTER
                 THRESHOLD_PCT END_POS mode)
              rest s [] s frames Hs eq_refl Hr Hf) as (H1 & H2 & H3).
  split; [done|]. split; [done|].
  intros w [->|Hw]%elem_of_cons; apply H3; [left; by left|by right].
Qed.

Lemma build_frames_walk THRESHOLD_PCT blocked CLUSTERS s rest mode :
  Forall (λ ab : pos * pos, reachable blocked ab.1 ab.2)
    (segments (s :: rest)) →
  ∃ frames,
    build_frames THRESHOLD_PCT blocked (s :: rest) CLUSTERS mode
      = Some frames ∧
    stutter_walk (s :: frames) ∧
    last (s :: frames) = last (s :: rest) ∧
    (∀ w, w ∈ s :: rest → w ∈ s :: frames).
Proof.
  intros Hr.
  assert (stutter_walk [s]) as Hs by (intros [|i] p q Hp Hq; done).
  rewrite build_frames_unfold.
  destruct (build_frames_loop_total THRESHOLD_PCT blocked CLUSTERS mode
              (segments (s :: rest)) []) as [frames Hf].
  exists frames. split; [done|]. rewrite build_frames_loop_generic in Hf.
  destruct (frames_loop_walk blocked (astar blocked) _
              (astar_segment_found blocked)
              (build_frames_body_appends THRESHOLD_PCT CLUSTERS mode)
              rest s [] s frames Hs eq_refl Hr Hf) as (H1 & H2 & H3).
  split; [done|]. split; [done|].
  intros w [->|Hw]%elem_of_cons; apply H3; [left; by left|by right].
Qed.

(** X9: when every waypoint of a route can be reached from the one before
    it, the frames are a trajectory without jumps: prefixed with the first
    waypoint, each frame is the previous cell or axis-adjacent to it, the
    last frame is the last waypoint, and every waypoint occurs among the
    frames.  This holds for [build_path] with either search and for
    [build_frames], in every mode. *)
Theorem frames_continuous (blocked : Z → Z → bool) (CLUSTERS : list cluster)
    (PCT_BY_CLUSTER : gmap string Q) (THRESHOLD_PCT : Q)
    (END_POS : option pos) (s : pos) (rest : list pos)
    (mode pathfinder : string) :
  Forall (λ ab : pos * pos, reachable blocked ab.1 ab.2)
    (segments (s :: rest)) →
  (∃ frames,
     build_path blocked CLUSTERS PCT_BY_CLUSTER THRESHOLD_PCT END_POS
       (s :: rest) mode pathfinder = Some frames ∧
     stutter_walk (s :: frames) ∧
     last (s :: frames) = last (s :: rest) ∧
     (∀ w, w ∈ s :: rest → w ∈ s :: frames)) ∧
  (∃ frames,
     build_frames THRESHOLD_PCT blocked (s :: rest) CLUSTERS mode
       = Some frames ∧
     stutter_walk (s :: frames) ∧
     last (s :: frames) = last (s :: rest) ∧
     (∀ w, w ∈ s :: rest → w ∈ s :: frames)).
Proof.
  intros Hr. split; [by apply build_path_walk|by apply build_frames_walk].
Qed.

Lemma open_floor_segment :
  Forall (λ ab : pos * pos, reachable (λ _ _, false) ab.1 ab.2)
    (segments [(1, 19); (2, 19)]).
Proof.
  unfold segments. simpl. constructor; [|constructor].
  exists [(1, 19); (2, 19)]. split; [done|]. split; [done|].
  intros i p q Hi Hj. destruct i as [|[|i]]; by simplify_eq/=.
Defined.

Lemma frames_continuous_witness :
  (∃ frames,
     build_path (λ _ _, false) floor1_clusters ∅ (80 # 1) (Some (1, 19))
       [(1, 19); (2, 19)] "patrol" "dijkstra" = Some frames ∧
     stutter_walk ((1, 19) :: frames) ∧
     last ((1, 19) :: frames) = last [(1, 19); (2, 19)] ∧
     (∀ w, w ∈ [(1, 19); (2, 19)] → w ∈ (1, 19) :: frames)) ∧
  (∃ frames,
     build_frames (80 # 1) (λ _ _, false) [(1, 19); (2, 19)] floor1_clusters
       "patrol" = Some frames ∧
     stutter_walk ((1, 19) :: frames) ∧
     last ((1, 19) :: frames) = last [(1, 19); (2, 19)] ∧
     (∀ w, w ∈ [(1, 19); (2, 19)] → w ∈ (1, 19) :: frames)).
Proof.
  apply (frames_continuous (λ _ _, false) floor1_clusters ∅ (80 # 1)
           (Some (1, 19)) (1, 19) [(2, 19)] "patrol" "dijkstra").
  exact open_floor_segment.
Defined.

Lemma build_path_body_shape CLUSTERS PCT_BY_CLUSTER THRESHOLD_PCT END_POS
    mode :
  ∃ k : pos → nat, ∀ frames b seg,
    build_path_body CLUSTERS PCT_BY_CLUSTER THRESHOLD_PCT END_POS mode frames
      b seg
    = if (length seg <=? 1)%nat then frames
      else frames ++ tail seg ++ replicate (k b) b.
Proof.
  exists (λ b,
    if bool_decide (END_POS = None ∨ END_POS ≠ Some b) then
      if bool_decide (mode = "nn"%string) then
        if bool_decide (b ∈ DUE_POINTS CLUSTERS PCT_BY_CLUSTER THRESHOLD_PCT)
        then dwell_frames SERVICE_PAUSE_SEC else 0%nat
      else if bool_decide (mode = "patrol"%string) then
        dwell_frames
          (if bool_decide (b ∈ DUE_POINTS CLUSTERS PCT_BY_CLUSTER THRESHOLD_PCT)
           then SERVICE_PAUSE_SEC else QUICK_CHECK_SEC)
      else 0%nat
    else 0%nat).
  intros frames b seg. unfold build_path_body.
  destruct (length seg <=? 1)%nat; [done|].
  repeat case_bool_decide; simpl; by rewrite ?app_nil_r, <- ?app_assoc.
Qed.

Lemma last_tail_long {A} (l : list A) :
  (1 < length l)%nat → last (tail l) = last l ∧ tail l ≠ [].
Proof. destruct l as [|x [|y l]]; simpl; try lia. done. Qed.

Lemma length_tail_pred {A} (l : list A) : length (tail l) = pred (length l).
Proof. by destruct l. Qed.

Lemma last_arrival (f seg : list pos) k b :
  (1 < length seg)%nat →
  last (f ++ tail seg ++ replicate k b)
  = if decide (k = 0%nat) then last seg else Some b.
Proof.
  intros Hl. destruct (last_tail_long seg Hl) as [Ht Hne].
  rewrite !last_app, last_replicate. case_decide; [|done].
  rewrite Ht. destruct (last seg) eqn:E; [done|].
  apply last_None in E. subst. simpl in Hl. lia.
Qed.

Lemma frames_loop_same_length pf1 pf2 (k : pos → nat) body :
  (∀ a b, ∃ s1 s2, pf1 a b = Some s1 ∧ pf2 a b = Some s2 ∧
                   length s1 = length s2 ∧ last s1 = last s2) →
  (∀ frames b seg, body frames b seg
     = if (length seg <=? 1)%nat then frames
       else frames ++ tail seg ++ replicate (k b) b) →
  ∀ pairs f1 f2, length f1 = length f2 → last f1 = last f2 →
  ∃ r1 r2, frames_loop pf1 body pairs f1 = Some r1 ∧
           frames_loop pf2 body pairs f2 = Some r2 ∧
           length r1 = length r2 ∧ last r1 = last r2.
Proof.
  intros Hpf Hbody. induction pairs as [|[a b] pairs IH]; intros f1 f2 Hl Hla.
  - simpl. by exists f1, f2.
  - simpl. destruct (Hpf a b) as (s1 & s2 & -> & -> & Hs & Hsl). simpl.
    apply IH; rewrite !Hbody, <- Hs.
    + destruct (length s1 <=? 1)%nat; [done|].
      rewrite !length_app, !length_tail_pred, !length_replicate. lia.
    + destruct (Nat.leb_spec (length s1) 1) as [|Hlong]; [done|].
      rewrite !last_arrival by lia. by rewrite Hsl.
Qed.

Lemma searches_same_length blocked a b :
  ∃ s1 s2, astar blocked a b = Some s1 ∧ dijkstra blocked a b = Some s2 ∧
           length s1 = length s2 ∧ last s1 = last s2.
Proof.
  destruct (search_total blocked a b)
    as (pa & pd & Ha & Hd & [(-> & -> & _)|(Hpa & Hpd & Hoa & Hod)]).
  - by exists [], [].
  - exists pa, pd. split; [done|]. split; [done|]. split.
    + specialize (Hoa _ Hpd). specialize (Hod _ Hpa). lia.
    + by rewrite (path_from_last _ _ _ _ Hpa), (path_from_last _ _ _ _ Hpd).
Qed.

(** X10: the choice of the search does not change the length of the
    animation: for every floor, route and mode, [build_path] returns with
    [astar] and with [dijkstra], the two frame lists have the same number of
    frames and they end on the same cell. *)
Theorem frame_count_search_independent (blocked : Z → Z → bool)
    (CLUSTERS : list cluster) (PCT_BY_CLUSTER : gmap string Q)
    (THRESHOLD_PCT : Q) (END_POS : option pos) (route : list pos)
    (mode : string) :
  ∃ fa fd,
    build_path blocked CLUSTERS PCT_BY_CLUSTER THRESHOLD_PCT END_POS route
      mode "astar" = Some fa ∧
    build_path blocked CLUSTERS PCT_BY_CLUSTER THRESHOLD_PCT END_POS route
      mode "dijkstra" = Some fd ∧
    length fa = length fd ∧ last fa = last fd.
Proof.
  rewrite !build_path_unfold, !build_path_loop_generic.
  rewrite bool_decide_eq_true_2 by done.
  rewrite bool_decide_eq_false_2 by done.
  destruct (build_path_body_shape CLUSTERS PCT_BY_CLUSTER THRESHOLD_PCT
              END_POS mode) as [k Hk].
  apply (frames_loop_same_length _ _ k); try done.
  apply searches_same_length.
Qed.

(** * Further properties of the routes *)

Lemma due_pts_inject PCT CLUSTERS threshold_pct :
  omap (λ c, if Qle_bool threshold_pct (pct c) then Some (service c) else None)
       (inject_pct PCT CLUSTERS)
  = DUE_POINTS CLUSTERS PCT threshold_pct.
Proof.
  rewrite DUE_POINTS_spec. unfold due_points_spec, inject_pct.
  rewrite <- (omap_filter_fmap
                (λ c, Qle_bool threshold_pct (fill_by_name PCT c)) service).
  induction CLUSTERS as [|c l IH]; [done|].
  rewrite fmap_cons. cbn [omap list_omap]. fold (@omap list _).
  change (pct (set_pct PCT c)) with (fill_by_name PCT c).
  change (service (set_pct PCT c)) with (service c).
  destruct (Qle_bool threshold_pct (fill_by_name PCT c)); simpl;
    [f_equal|]; apply IH.
Qed.

Lemma sp2zone_inject PCT CLUSTERS :
  sp2zone_of (inject_pct PCT CLUSTERS) = sp2zone_of CLUSTERS.
Proof.
  unfold sp2zone_of, inject_pct. generalize (∅ : gmap pos string).
  induction CLUSTERS as [|c l IH]; intros m; [done|apply IH].
Qed.

Lemma sp2name_inject PCT CLUSTERS :
  sp2name_of (inject_pct PCT CLUSTERS) = sp2name_of CLUSTERS.
Proof.
  unfold sp2name_of, inject_pct. generalize (∅ : gmap pos string).
  induction CLUSTERS as [|c l IH]; intros m; [done|apply IH].
Qed.

Lemma service_inject PCT CLUSTERS :
  service <$> inject_pct PCT CLUSTERS = service <$> CLUSTERS.
Proof. unfold inject_pct. by rewrite <- list_fmap_compose. Qed.

(** X11: the two scripts build the same routes.  After the driver of
    [multifloor_reference.py] has planted the percentages of a table in the
    clusters, [build_routes] returns in mode ["nn"] the route of
    [build_route_nn] and in mode ["patrol"] the route of
    [build_route_patrol_real] of [reference.py] for that table, together
    with the DUE points of [reference.py]. *)
Theorem build_routes_agree (CLUSTERS : list cluster) (PCT : gmap string Q)
    (threshold_pct : Q) (start : pos) (end_pos : option pos)
    (blocked : Z → Z → bool) :
  build_routes (inject_pct PCT CLUSTERS) threshold_pct start end_pos "nn"
    blocked
  = (route ← build_route_nn CLUSTERS PCT threshold_pct end_pos start;
     Some (route, DUE_POINTS CLUSTERS PCT threshold_pct, sp2name_of CLUSTERS))
  ∧
  build_routes (inject_pct PCT CLUSTERS) threshold_pct start end_pos "patrol"
    blocked
  = Some (build_route_patrol_real CLUSTERS end_pos start,
          DUE_POINTS CLUSTERS PCT threshold_pct, sp2name_of CLUSTERS).
Proof.
  unfold build_routes, build_route_nn, build_route_patrol_real, sp2zone,
    service_points.
  rewrite due_pts_inject, sp2zone_inject, sp2name_inject, service_inject.
  split.
  - rewrite bool_decide_eq_true_2 by done.
    by destruct (nn_loop _ _ _ _).
  - by rewrite bool_decide_eq_false_2.
Qed.

Lemma elem_of_due_set_inject THRESHOLD_PCT PCT CLUSTERS b :
  b ∈ due_set THRESHOLD_PCT (inject_pct PCT CLUSTERS) ↔
  b ∈ DUE_POINTS CLUSTERS PCT THRESHOLD_PCT.
Proof. unfold due_set. by rewrite elem_of_list_to_set, due_pts_inject. Qed.

Lemma frame_bodies_agree THRESHOLD_PCT PCT CLUSTERS END_POS mode frames b seg :
  mode = "nn"%string ∨ mode = "patrol"%string → END_POS ≠ Some b →
  build_frames_body THRESHOLD_PCT (inject_pct PCT CLUSTERS) mode frames b seg
  = build_path_body CLUSTERS PCT THRESHOLD_PCT END_POS mode frames b seg.
Proof.
  intros Hmode Hend. unfold build_frames_body, build_path_body.
  destruct (length seg <=? 1)%nat; [done|].
  rewrite (bool_decide_ext _ _
             (elem_of_due_set_inject THRESHOLD_PCT PCT CLUSTERS b)).
  rewrite (bool_decide_eq_true_2 (END_POS = None ∨ END_POS ≠ Some b))
    by by right.
  destruct Hmode as [-> | ->]; simpl; by repeat case_bool_decide.
Qed.

Lemma segments_elem route a b :
  (a, b) ∈ segments route → a ∈ route ∧ b ∈ tail route.
Proof.
  unfold segments. intros H. split.
  - apply elem_of_zip_l in H. revert H. clear.
    induction route as [|x [|y l] IH]; simpl;
      [done|by intros ?%elem_of_nil|].
    intros [->|H]%elem_of_cons; [by left|]. right. by apply IH.
  - by apply elem_of_zip_r in H.
Qed.

(** X12: the two scripts build the same frames on the way.  For a route
    that does not arrive at the end configured in [reference.py], and in
    the modes ["nn"] and ["patrol"], [build_frames] on the clusters with the
    planted percentages returns exactly what [build_path] returns with
    [astar]. *)
Theorem build_frames_agree (blocked : Z → Z → bool) (CLUSTERS : list cluster)
    (PCT : gmap string Q) (THRESHOLD_PCT : Q) (END_POS : option pos)
    (route : list pos) (mode : string) :
  mode = "nn"%string ∨ mode = "patrol"%string →
  (∀ e, END_POS = Some e → e ∉ tail route) →
  build_frames THRESHOLD_PCT blocked route (inject_pct PCT CLUSTERS) mode
  = build_path blocked CLUSTERS PCT THRESHOLD_PCT END_POS route mode "astar".
Proof.
  intros Hmode Hend. rewrite build_frames_unfold, build_path_unfold.
  rewrite bool_decide_eq_true_2 by done.
  assert (∀ a b, (a, b) ∈ segments route → END_POS ≠ Some b) as Hpairs.
  { intros a b [_ Hb]%segments_elem He. by apply (Hend b). }
  clear Hend. revert Hpairs. generalize (segments route), (@nil pos).
  intros pairs. induction pairs as [|[a b] pairs IH]; intros frames Hp;
    simpl; [done|].
  destruct (astar blocked a b) as [seg|]; simpl; [|done].
  rewrite (frame_bodies_agree _ _ _ END_POS) by (try done; apply (Hp a); by left).
  apply IH. intros a' b' Hin. apply (Hp a'). by right.
Qed.

Lemma build_frames_agree_witness :
  build_frames (80 # 1) (λ _ _, false) [(1, 19); (2, 16); (3, 6)]
    (inject_pct floor1_pct floor1_clusters) "nn"
  = build_path (λ _ _, false) floor1_clusters floor1_pct (80 # 1)
      (Some (1, 19)) [(1, 19); (2, 16); (3, 6)] "nn" "astar".
Proof.
  apply (build_frames_agree (λ _ _, false) floor1_clusters floor1_pct (80 # 1)
           (Some (1, 19)) [(1, 19); (2, 16); (3, 6)] "nn").
  - by left.
  - intros e [= <-]. simpl. rewrite !elem_of_cons, elem_of_nil.
    intros [[=]|[[=]|[]]].
Defined.

Lemma due_omap_sublist (b1 b2 : cluster → bool) (l : list cluster) :
  (∀ c, c ∈ l → b1 c = true → b2 c = true) →
  omap (λ c, if b1 c then Some (service c) else None) l
    `sublist_of` omap (λ c, if b2 c then Some (service c) else None) l.
Proof.
  induction l as [|c l IH]; intros Hl; [constructor|].
  cbn [omap list_omap]. fold (@omap list _).
  assert (∀ c', c' ∈ l → b1 c' = true → b2 c' = true) as Hl'
    by (intros c' Hc'; apply Hl; by right).
  specialize (Hl c (list_elem_of_here _ _)).
  destruct (b1 c), (b2 c); simpl.
  - apply sublist_skip. by apply IH.
  - by discriminate Hl.
  - apply sublist_cons. by apply IH.
  - by apply IH.
Qed.

Lemma due_sublist_service CLUSTERS PCT T :
  DUE_POINTS CLUSTERS PCT T `sublist_of` service <$> CLUSTERS.
Proof.
  unfold DUE_POINTS. generalize (is_due CLUSTERS PCT T). intros b.
  induction CLUSTERS as [|c l IH]; [constructor|].
  cbn [omap list_omap]. fold (@omap list _). rewrite fmap_cons.
  destruct (b c); simpl; [by apply sublist_skip|by apply sublist_cons].
Qed.

(** X13: the DUE list is monotone.  Raising the threshold or lowering
    percentages can only remove points from the DUE list, keeping the order
    of the others (the DUE list after the change is a sub-list of the one
    before), and the DUE list is always a sub-list of the service points in
    cluster order. *)
Theorem due_points_monotone (CLUSTERS : list cluster)
    (PCT PCT' : gmap string Q) (T T' : Q) :
  (T <= T')%Q →
  (∀ c, c ∈ CLUSTERS → (fill_by_name PCT' c <= fill_by_name PCT c)%Q) →
  DUE_POINTS CLUSTERS PCT' T' `sublist_of` DUE_POINTS CLUSTERS PCT T ∧
  DUE_POINTS CLUSTERS PCT T `sublist_of` service <$> CLUSTERS.
Proof.
  intros HT Hfill. split; [|apply due_sublist_service].
  rewrite !DUE_POINTS_spec. unfold due_points_spec.
  rewrite <- (omap_filter_fmap
                (λ c, Qle_bool T' (fill_by_name PCT' c)) service).
  rewrite <- (omap_filter_fmap
                (λ c, Qle_bool T (fill_by_name PCT c)) service).
  apply due_omap_sublist. intros c Hc H1.
  apply Qle_bool_iff in H1. apply Qle_bool_iff.
  eapply Qle_trans; [exact HT|]. eapply Qle_trans; [exact H1|].
  by apply Hfill.
Qed.

Lemma due_points_monotone_witness :
  DUE_POINTS floor1_clusters floor1_pct (90 # 1)
    `sublist_of` DUE_POINTS floor1_clusters floor1_pct (80 # 1) ∧
  DUE_POINTS floor1_clusters floor1_pct (80 # 1)
    `sublist_of` service <$> floor1_clusters.
Proof.
  apply (due_points_monotone floor1_clusters floor1_pct floor1_pct
           (80 # 1) (90 # 1)).
  - by vm_compute.
  - intros c _. apply Qle_refl.
Defined.

(** X14: the nearest-due route stays within the patrol route.  For the same
    clusters, start and end, [build_route_nn] returns a route all of whose
    waypoints are waypoints of the route of [build_route_patrol_real], and
    it has no more waypoints than that route. *)
Theorem nn_route_within_patrol (CLUSTERS : list cluster)
    (PCT_BY_CLUSTER : gmap string Q) (THRESHOLD_PCT : Q)
    (END_POS : option pos) (start : pos) :
  ∃ route_nn,
    build_route_nn CLUSTERS PCT_BY_CLUSTER THRESHOLD_PCT END_POS start
      = Some route_nn ∧
    (∀ w, w ∈ route_nn → w ∈ build_route_patrol_real CLUSTERS END_POS start) ∧
    (length route_nn
       ≤ length (build_route_patrol_real CLUSTERS END_POS start))%nat.
Proof.
  unfold build_route_nn.
  destruct (nn_loop_route start END_POS
              (DUE_POINTS CLUSTERS PCT_BY_CLUSTER THRESHOLD_PCT))
    as (route & -> & seq & Hroute & _ & _ & Hperm & _ & _).
  simpl. eexists. split; [done|]. rewrite Hroute. clear Hroute route.
  assert (build_route_patrol_real CLUSTERS END_POS start
          = [start] ++ py_sorted (patrol_key (sp2zone_of CLUSTERS))
                         (service <$> CLUSTERS) ++ option_list END_POS) as ->.
  { unfold build_route_patrol_real, sp2zone, service_points.
    destruct END_POS; simpl; by rewrite ?app_nil_r. }
  pose proof (due_sublist_service CLUSTERS PCT_BY_CLUSTER THRESHOLD_PCT)
    as Hsub.
  pose proof (py_sorted_perm (patrol_key (sp2zone_of CLUSTERS))
                (service <$> CLUSTERS)) as Hsort.
  split.
  - intros w. rewrite !elem_of_app, Hperm, Hsort.
    intros [?|[?|?]]; [by left| |by right; right].
    right; left. by eapply elem_of_sublist.
  - rewrite !length_app, Hperm, Hsort.
    apply sublist_length in Hsub. lia.
Qed.

(** * Further properties of the layouts *)

Lemma np_index_spec n i :
  0 < n →
  match np_index n i with
  | Some j => - n <= i < n ∧ j = i `mod` n
  | None => ¬ (- n <= i < n)
  end.
Proof.
  intros Hn. unfold np_index.
  destruct (Z.leb_spec 0 i), (Z.ltb_spec i n); simpl;
    try (split; [lia|by rewrite Z.mod_small by lia]);
    destruct (Z.leb_spec (- n) i), (Z.ltb_spec i 0); simpl; try lia.
  split; [lia|]. rewrite <- (Z.mod_add i 1 n) by lia.
  rewrite Z.mod_small; lia.
Qed.

Lemma np_setitem_spec blocked x y v :
  match np_setitem blocked x y v with
  | Some g => valid_index (x, y) ∧
              g = set_cell blocked (wrapped (x, y)).1 (wrapped (x, y)).2 v
  | None => ¬ valid_index (x, y)
  end.
Proof.
  unfold np_setitem, valid_index, wrapped. simpl.
  pose proof (np_index_spec GRID_W x eq_refl) as Hx.
  pose proof (np_index_spec GRID_H y eq_refl) as Hy.
  destruct (np_index GRID_W x) as [x'|]; simpl; [|tauto].
  destruct (np_index GRID_H y) as [y'|]; simpl; [|tauto].
  destruct Hx as [? ->], Hy as [? ->]. done.
Qed.

(** X15: the unguarded writes of the layouts (bins set to blocked, service
    points set to free).  The loop fails exactly when one of the positions
    has an index outside [[-GRID_W, GRID_W)] or [[-GRID_H, GRID_H)];
    otherwise the listed cells, a negative index counting from the far
    edge, take the value written and every other cell keeps its value. *)
Theorem np_fill_spec (blocked : Z → Z → bool) (cells : list pos) (v : bool) :
  match np_fill blocked cells v with
  | Some g =>
      Forall valid_index cells ∧
      ∀ x y, g x y = if bool_decide ((x, y) ∈ wrapped <$> cells) then v
                     else blocked x y
  | None => Exists (λ p, ¬ valid_index p) cells
  end.
Proof.
  revert blocked. induction cells as [|[x y] cells IH]; intros blocked.
  - simpl. split; [constructor|done].
  - cbn [np_fill]. pose proof (np_setitem_spec blocked x y v) as Hs.
    destruct (np_setitem blocked x y v) as [g1|]; simpl;
      [|by apply Exists_cons_hd].
    destruct Hs as [Hv ->]. specialize (IH
      (set_cell blocked (wrapped (x, y)).1 (wrapped (x, y)).2 v)).
    destruct (np_fill _ cells v) as [g|]; [|by apply Exists_cons_tl].
    destruct IH as [Hall Hg]. split; [by constructor|].
    intros a b. rewrite Hg, ?fmap_cons. unfold set_cell.
    change (list_fmap _ _ wrapped cells) with (wrapped <$> cells).
    destruct (decide ((a, b) = ((wrapped (x, y)).1, (wrapped (x, y)).2)))
      as [Heq|Hne].
    + rewrite (bool_decide_eq_true_2 (_ ∈ _ :: _)); [by case_bool_decide|].
      rewrite Heq. by left.
    + rewrite (bool_decide_ext ((a, b) ∈ wrapped (x, y) :: (wrapped <$> cells))
                 ((a, b) ∈ wrapped <$> cells)); [done|].
      rewrite elem_of_cons.
      split; [|by right]. intros [Heq|?]; [|done]. by destruct Hne.
Qed.

(** X16: walls.  [line_wall] of [reference.py] raises exactly for a line
    that is neither horizontal nor vertical, where [line_wall] of
    [multifloor_reference.py] marks nothing; otherwise the two mark the
    same cells.  After the call a cell is blocked when it was blocked
    before or when it lies on the segment and inside the grid, so a wall
    along [x = GRID_W] or [y = GRID_H], as the outlines of the layouts draw
    them, marks nothing. *)
Theorem line_wall_spec (blocked : Z → Z → bool) (x1 y1 x2 y2 x y : Z) :
  (Single.line_wall blocked x1 y1 x2 y2 = None ↔ x1 ≠ x2 ∧ y1 ≠ y2) ∧
  (∀ g, Single.line_wall blocked x1 y1 x2 y2 = Some g →
        g = Multi.line_wall blocked x1 y1 x2 y2) ∧
  (Multi.line_wall blocked x1 y1 x2 y2 x y = true ↔
   blocked x y = true ∨
   (on_wall x1 y1 x2 y2 (x, y) ∧ in_bounds x y = true)) ∧
  Multi.line_wall blocked 0 GRID_H GRID_W GRID_H x y = blocked x y ∧
  Multi.line_wall blocked GRID_W 0 GRID_W GRID_H x y = blocked x y.
Proof.
  assert (∀ x1 y1 x2 y2,
            Multi.line_wall blocked x1 y1 x2 y2 x y = true ↔
            blocked x y = true ∨
            (on_wall x1 y1 x2 y2 (x, y) ∧ in_bounds x y = true)) as Hspec.
  { clear. intros x1 y1 x2 y2. unfold Multi.line_wall, on_wall. simpl.
    destruct (Z.eqb_spec y1 y2) as [Hy|Hy].
    - rewrite block_hline_spec. intuition lia.
    - destruct (Z.eqb_spec x1 x2) as [Hx|Hx].
      + rewrite block_vline_spec. intuition lia.
      + intuition lia. }
  assert (∀ px py, in_bounds px py = true →
                   0 <= px < GRID_W ∧ 0 <= py < GRID_H) as Hin.
  { intros px py. unfold in_bounds. rewrite !andb_true_iff.
    rewrite !Z.leb_le, !Z.ltb_lt. lia. }
  split_and!.
  - unfold Single.line_wall.
    destruct (Z.eqb_spec y1 y2), (Z.eqb_spec x1 x2); split;
      (done || tauto || (intros [? ?]; done)).
  - intros g. unfold Single.line_wall, Multi.line_wall.
    destruct (y1 =? y2); [by intros [= <-]|].
    destruct (x1 =? x2); [by intros [= <-]|done].
  - apply Hspec.
  - apply bool_eq_true_iff. rewrite Hspec. unfold on_wall. simpl.
    split; [intros [?|[Hw Hb]]; [done|]|tauto].
    apply Hin in Hb. unfold GRID_H, GRID_W in *. lia.
  - apply bool_eq_true_iff. rewrite Hspec. unfold on_wall. simpl.
    split; [intros [?|[Hw Hb]]; [done|]|tauto].
    apply Hin in Hb. unfold GRID_H, GRID_W in *. lia.
Qed.

(** * When no frame is produced *)

Lemma build_frames_body_shape THRESHOLD_PCT CLUSTERS mode :
  ∃ k : pos → nat, ∀ frames b seg,
    build_frames_body THRESHOLD_PCT CLUSTERS mode frames b seg
    = if (length seg <=? 1)%nat then frames
      else frames ++ tail seg ++ replicate (k b) b.
Proof.
  exists (λ b,
    if bool_decide (b ∈ due_set THRESHOLD_PCT CLUSTERS)
    then dwell_frames SERVICE_PAUSE_SEC
    else if bool_decide (mode = "patrol"%string)
         then dwell_frames QUICK_CHECK_SEC else 0%nat).
  intros frames b seg. unfold build_frames_body.
  destruct (length seg <=? 1)%nat; [done|].
  repeat case_bool_decide; simpl; by rewrite ?app_nil_r, <- ?app_assoc.
Qed.

Lemma search_short blocked pf a b :
  pf = astar blocked ∨ pf = dijkstra blocked →
  ∃ seg, pf a b = Some seg ∧
         ((length seg ≤ 1)%nat ↔ a = b ∨ ¬ reachable blocked a b).
Proof.
  intros Hpf. destruct (decide (a = b)) as [->|Hne].
  - exists [b]. split; [|simpl; split; auto].
    destruct Hpf as [-> | ->]; unfold astar, dijkstra; by rewrite decide_True.
  - destruct (search_total blocked a b)
      as (pa & pd & Ha & Hd & [(-> & -> & Hno)|(Hpa & Hpd & _)]).
    + exists []. split; [by destruct Hpf as [-> | ->]|].
      split; [by right|simpl; lia].
    + pose proof (path_from_ne_length _ _ _ _ Hpa Hne).
      pose proof (path_from_ne_length _ _ _ _ Hpd Hne).
      assert (reachable blocked a b)
        by (exists pa; by apply path_from_is_path).
      destruct Hpf as [-> | ->]; [exists pa|exists pd];
        (split; [done|]); (split; [lia|]); by intros [?|?].
Qed.

Lemma frames_loop_nil blocked pf body (k : pos → nat) :
  (∀ a b, ∃ seg, pf a b = Some seg ∧
      ((length seg ≤ 1)%nat ↔ a = b ∨ ¬ reachable blocked a b)) →
  (∀ frames b seg, body frames b seg
     = if (length seg <=? 1)%nat then frames
       else frames ++ tail seg ++ replicate (k b) b) →
  ∀ pairs frames, ∃ res,
    frames_loop pf body pairs frames = Some res ∧
    (res = [] ↔
     frames = [] ∧
     ∀ a b, (a, b) ∈ pairs → a = b ∨ ¬ reachable blocked a b).
Proof.
  intros Hpf Hbody. induction pairs as [|[a b] pairs IH]; intros frames.
  - exists frames. split; [done|]. split; [|by intros [-> _]].
    intros ->. split; [done|]. by intros ? ? ?%elem_of_nil.
  - simpl. destruct (Hpf a b) as (seg & -> & Hshort). simpl.
    destruct (IH (body frames b seg)) as (res & Hres & Hiff).
    exists res. split; [done|]. rewrite Hiff, Hbody.
    destruct (Nat.leb_spec (length seg) 1) as [Hle|Hgt].
    + split; intros [Hf Hp]; (split; [done|]); intros a' b' Hin.
      * apply elem_of_cons in Hin as [[= -> ->]|Hin];
          [by apply Hshort|by apply Hp].
      * apply Hp. by right.
    + split.
      * intros [Hf _]. apply app_eq_nil in Hf as [_ Hf].
        apply app_eq_nil in Hf as [Ht _].
        destruct seg as [|? [|? ?]]; simpl in *; (lia || done).
      * intros [_ Hp]. specialize (Hp a b (list_elem_of_here _ _)).
        apply Hshort in Hp. lia.
Qed.

(** X17: when the animation is skipped.  The frame list is empty exactly
    when no segment of the route moves the agent: on each segment the
    target is the cell the agent is on, or it cannot be reached from
    there.  This holds for [build_path] with either search and for
    [build_frames]; in particular a route of fewer than two waypoints gives
    no frame. *)
Theorem frames_empty_iff (blocked : Z → Z → bool) (CLUSTERS : list cluster)
    (PCT_BY_CLUSTER : gmap string Q) (THRESHOLD_PCT : Q)
    (END_POS : option pos) (route : list pos) (mode pathfinder : string) :
  (build_path blocked CLUSTERS PCT_BY_CLUSTER THRESHOLD_PCT END_POS route mode
     pathfinder = Some [] ↔ still blocked route) ∧
  (build_frames THRESHOLD_PCT blocked route CLUSTERS mode = Some [] ↔
   still blocked route).
Proof.
  split.
  - rewrite build_path_unfold, build_path_loop_generic.
    destruct (build_path_body_shape CLUSTERS PCT_BY_CLUSTER THRESHOLD_PCT
                END_POS mode) as [k Hk].
    set (pf := if bool_decide (pathfinder = "astar"%string)
               then astar blocked else dijkstra blocked).
    assert (pf = astar blocked ∨ pf = dijkstra blocked) as Hpf
      by (unfold pf; case_bool_decide; auto).
    destruct (frames_loop_nil blocked pf _ k
                (λ a b, search_short blocked pf a b Hpf) Hk
                (segments route) []) as (res & -> & Hiff).
    split; [intros [= ->]; by destruct (proj1 Hiff eq_refl)|].
    intros Hst. f_equal. by apply (proj2 Hiff).
  - rewrite build_frames_unfold, build_frames_loop_generic.
    destruct (build_frames_body_shape THRESHOLD_PCT CLUSTERS mode) as [k Hk].
    destruct (frames_loop_nil blocked (astar blocked) _ k
                (λ a b, search_short blocked _ a b (or_introl eq_refl)) Hk
                (segments route) []) as (res & -> & Hiff).
    split; [intros [= ->]; by destruct (proj1 Hiff eq_refl)|].
    intros Hst. f_equal. by apply (proj2 Hiff).
Qed.

(** * The runs of the floor driver on its own layouts *)

Lemma path_from_app blocked a l1 b l2 c :
  path_from blocked a l1 b → path_from blocked b l2 c →
  path_from blocked a (l1 ++ tail l2) c.
Proof.
  induction 1 as [a|a b' l c' Hs Hp IH]; intros H2.
  - pose proof (path_from_head _ _ _ _ H2). destruct l2; by simplify_eq/=.
  - simpl. apply path_cons with b'; [done|by apply IH].
Qed.

Lemma connected_from_paths blocked s ps :
  connected_from blocked s ps = true →
  ∀ p, p ∈ ps → ∃ l, path_from blocked s l p.
Proof.
  unfold connected_from. induction ps as [|a ps IH]; simpl; intros H p Hp;
    [by apply elem_of_nil in Hp|].
  apply andb_true_iff in H as [H1 H2].
  apply elem_of_cons in Hp as [->|Hp]; [|by apply IH].
  destruct (astar blocked s a) as [[|x l]|] eqn:E; try done.
  exists (x :: l). by apply astar_sound.
Qed.

Lemma connected_waypoints blocked s ps :
  passable blocked s → connected_from blocked s ps = true →
  ∀ a b, a ∈ s :: ps → b ∈ s :: ps → reachable blocked a b.
Proof.
  intros Hs Hc.
  assert (∀ p, p ∈ s :: ps → ∃ l, path_from blocked s l p) as Hall.
  { intros p [->|Hp]%elem_of_cons; [exists [s]; constructor|].
    by eapply connected_from_paths. }
  intros a b Ha Hb.
  destruct (Hall a Ha) as [la Hla], (Hall b Hb) as [lb Hlb].
  exists (rev la ++ tail lb). apply path_from_is_path.
  eapply path_from_app; [by apply path_from_rev|done].
Qed.

Lemma route_segments_reachable blocked (W route : list pos) :
  (∀ a b, a ∈ W → b ∈ W → reachable blocked a b) →
  (∀ w, w ∈ route → w ∈ W) →
  Forall (λ ab : pos * pos, reachable blocked ab.1 ab.2) (segments route).
Proof.
  intros HW Hr. apply Forall_forall. intros [a b] [Ha Hb]%segments_elem.
  simpl. apply HW; apply Hr; [done|].
  destruct route; [done|by right].
Qed.

Lemma build_frames_playable THRESHOLD_PCT blocked CLUSTERS s rest e mode :
  Forall (λ ab : pos * pos, reachable blocked ab.1 ab.2)
    (segments (s :: rest)) →
  last (s :: rest) = Some e →
  ∃ frames,
    build_frames THRESHOLD_PCT blocked (s :: rest) CLUSTERS mode
      = Some frames ∧
    playable blocked s e frames ∧
    (∀ w, w ∈ s :: rest → w ∈ s :: frames).
Proof.
  intros Hr Hl.
  destruct (build_frames_walk THRESHOLD_PCT blocked CLUSTERS s rest mode Hr)
    as (frames & Hf & Hw & Hla & Hin).
  exists frames. split; [done|]. split; [|done].
  split; [done|]. split; [by rewrite Hla|].
  rewrite build_frames_unfold in Hf.
  eapply build_frames_loop_passable; [apply Forall_nil_2|exact Hf].
Qed.

Lemma nn_route_waypoints CLUSTERS PCT T e s :
  ∃ seq, build_route_nn CLUSTERS PCT T (Some e) s = Some (s :: seq ++ [e]) ∧
         seq ≡ₚ DUE_POINTS CLUSTERS PCT T.
Proof.
  unfold build_route_nn.
  destruct (nn_loop_route s (Some e) (DUE_POINTS CLUSTERS PCT T))
    as (route & -> & seq & Hroute & _ & _ & Hperm & _ & _).
  exists seq. simpl. by rewrite Hroute.
Qed.

Lemma patrol_route_waypoints CLUSTERS e s :
  ∃ ordered,
    build_route_patrol_real CLUSTERS (Some e) s = s :: ordered ++ [e] ∧
    ordered ≡ₚ service <$> CLUSTERS.
Proof.
  eexists. split; [reflexivity|]. apply py_sorted_perm.
Qed.

Lemma last_snoc_cons {A} (s : A) l e : last (s :: l ++ [e]) = Some e.
Proof. by rewrite app_comm_cons, last_snoc. Qed.

(** The routes of a floor whose waypoints are connected. *)
Lemma connected_routes blocked CLUSTERS PCT T s e :
  passable blocked s →
  connected_from blocked s (e :: (service <$> CLUSTERS)) = true →
  ∃ rest_nn rest_pat,
    build_route_nn CLUSTERS PCT T (Some e) s = Some (s :: rest_nn) ∧
    build_route_patrol_real CLUSTERS (Some e) s = s :: rest_pat ∧
    last (s :: rest_nn) = Some e ∧ last (s :: rest_pat) = Some e ∧
    (∀ p, p ∈ DUE_POINTS CLUSTERS PCT T → p ∈ s :: rest_nn) ∧
    (∀ c, c ∈ CLUSTERS → service c ∈ s :: rest_pat) ∧
    Forall (λ ab : pos * pos, reachable blocked ab.1 ab.2)
      (segments (s :: rest_nn)) ∧
    Forall (λ ab : pos * pos, reachable blocked ab.1 ab.2)
      (segments (s :: rest_pat)).
Proof.
  intros Hs Hc.
  pose proof (connected_waypoints blocked s _ Hs Hc) as HW.
  destruct (nn_route_waypoints CLUSTERS PCT T e s) as (seq & Hnn & Hperm).
  destruct (patrol_route_waypoints CLUSTERS e s) as (ord & Hpat & Hord).
  pose proof (due_sublist_service CLUSTERS PCT T) as Hsub.
  exists (seq ++ [e]), (ord ++ [e]).
  split; [done|]. split; [done|].
  split; [apply last_snoc_cons|]. split; [apply last_snoc_cons|].
  split_and!.
  - intros p Hp. right. apply elem_of_app. left. by rewrite Hperm.
  - intros c Hc'. right. apply elem_of_app. left. rewrite Hord.
    by apply list_elem_of_fmap_2.
  - apply (route_segments_reachable blocked _ _ HW).
    intros w. rewrite !elem_of_cons, elem_of_app, Hperm, list_elem_of_singleton.
    intros [?|[?|?]]; [by left| |by right; left].
    right; right. by eapply elem_of_sublist.
  - apply (route_segments_reachable blocked _ _ HW).
    intros w. rewrite !elem_of_cons, elem_of_app, Hord, list_elem_of_singleton.
    intros [?|[?|?]]; [by left|by right; right|by right; left].
Qed.

Lemma passable_check blocked (p : pos) :
  in_bounds p.1 p.2 && negb (blocked p.1 p.2) = true → passable blocked p.
Proof.
  intros [? ?%negb_true_iff]%andb_true_iff. by split.
Qed.

Lemma floor1_layout_connected :
  ∃ blocked,
    Multi.draw_layout_floor1
      = Some (blocked, floor1_clusters, (1, 19), Multi.TRANSFER_POS) ∧
    in_bounds 1 19 && negb (blocked 1 19) &&
    connected_from blocked (1, 19)
      (Multi.TRANSFER_POS :: (service <$> floor1_clusters)) = true.
Proof. eexists. split; [reflexivity|]. by vm_compute. Qed.

Lemma floor456_layout_connected :
  ∃ blocked,
    Multi.draw_layout_floor456
      = Some (blocked, Multi.floor456_clusters, Multi.TRANSFER_POS,
              Multi.TRANSFER_POS) ∧
    in_bounds 17 1 && negb (blocked 17 1) &&
    connected_from blocked Multi.TRANSFER_POS
      (Multi.TRANSFER_POS :: (service <$> Multi.floor456_clusters)) = true.
Proof. eexists. split; [reflexivity|]. by vm_compute. Qed.

(** One floor of the driver, on a floor whose waypoints are connected. *)
Lemma run_floor_playable THRESHOLD_PCT blocked CLUSTERS s e PCT :
  passable blocked s →
  connected_from blocked s (e :: (service <$> CLUSTERS)) = true →
  ∃ route_nn frames_nn frames_pat,
    Multi.run_floor THRESHOLD_PCT (Some (blocked, CLUSTERS, s, e)) PCT
      = Some (route_nn, build_route_patrol_real CLUSTERS (Some e) s,
              frames_nn, frames_pat) ∧
    build_route_nn CLUSTERS PCT THRESHOLD_PCT (Some e) s = Some route_nn ∧
    playable blocked s e frames_nn ∧
    playable blocked s e frames_pat ∧
    (∀ p, p ∈ DUE_POINTS CLUSTERS PCT THRESHOLD_PCT → p ∈ s :: frames_nn) ∧
    (∀ c, c ∈ CLUSTERS → service c ∈ s :: frames_pat).
Proof.
  intros Hs Hc.
  destruct (connected_routes blocked CLUSTERS PCT THRESHOLD_PCT s e Hs Hc)
    as (rn & rp & Hrn & Hrp & Hln & Hlp & Hdue & Hall & Hsn & Hsp).
  destruct (build_frames_playable THRESHOLD_PCT blocked
              (inject_pct PCT CLUSTERS) s rn e "nn" Hsn Hln)
    as (fn & Hfn & Hpn & Hin).
  destruct (build_frames_playable THRESHOLD_PCT blocked
              (inject_pct PCT CLUSTERS) s rp e "patrol" Hsp Hlp)
    as (fp & Hfp & Hpp & Hip).
  exists (s :: rn), fn, fp. split; [|split_and!; auto].
  unfold Multi.run_floor. cbn [mbind option_bind].
  unfold build_routes.
  rewrite due_pts_inject, sp2zone_inject, sp2name_inject, service_inject.
  rewrite (bool_decide_eq_true_2 ("nn"%string = "nn"%string)) by done.
  rewrite (bool_decide_eq_false_2 ("patrol"%string = "nn"%string)) by done.
  unfold build_route_nn in Hrn.
  destruct (nn_loop _ _ _ _) as [route|]; [|done].
  cbn [mbind option_bind] in *. injection Hrn as Hrn. rewrite Hrn.
  unfold build_route_patrol_real, sp2zone, service_points in Hrp.
  rewrite Hrp. rewrite Hfn. cbn [mbind option_bind]. rewrite Hfp.
  cbn [mbind option_bind]. by rewrite <- Hrp.
Qed.

(** X19: the runs of [multifloor_reference.py] on its own floor plans.
    Both layouts are built without an error, and on the first floor and on
    the floors 4 to 6, for every table of percentages and every threshold,
    the driver obtains both routes (those of [build_route_nn] and
    [build_route_patrol_real] for the table) and both frame lists; each
    frame list plays back without a jump, never enters a blocked cell or
    leaves the grid, and ends on the transfer cell; prefixed with the start,
    the nearest-due frames pass over every DUE service point and the patrol
    frames over every service point. *)
Theorem multifloor_runs_playable (PCT : gmap string Q) (THRESHOLD_PCT : Q) :
  Forall (λ layout,
    ∃ blocked clusters s e route_nn frames_nn frames_pat,
      layout = Some (blocked, clusters, s, e) ∧
      e = Multi.TRANSFER_POS ∧
      Multi.run_floor THRESHOLD_PCT layout PCT
        = Some (route_nn, build_route_patrol_real clusters (Some e) s,
                frames_nn, frames_pat) ∧
      build_route_nn clusters PCT THRESHOLD_PCT (Some e) s = Some route_nn ∧
      playable blocked s e frames_nn ∧
      playable blocked s e frames_pat ∧
      (∀ p, p ∈ DUE_POINTS clusters PCT THRESHOLD_PCT → p ∈ s :: frames_nn) ∧
      (∀ c, c ∈ clusters → service c ∈ s :: frames_pat))
    [Multi.draw_layout_floor1; Multi.draw_layout_floor456].
Proof.
  repeat apply Forall_cons_2; [| |apply Forall_nil_2].
  - destruct floor1_layout_connected as (B & -> & [Hp Hc]%andb_true_iff).
    apply (passable_check B (1, 19)) in Hp.
    destruct (run_floor_playable THRESHOLD_PCT B floor1_clusters (1, 19)
                Multi.TRANSFER_POS PCT Hp Hc)
      as (rn & fn & fp & H1 & H2 & H3 & H4 & H5 & H6).
    exists B, floor1_clusters, (1, 19), Multi.TRANSFER_POS, rn, fn, fp.
    split_and!; done.
  - destruct floor456_layout_connected as (B & -> & [Hp Hc]%andb_true_iff).
    apply (passable_check B (17, 1)) in Hp.
    destruct (run_floor_playable THRESHOLD_PCT B Multi.floor456_clusters
                Multi.TRANSFER_POS Multi.TRANSFER_POS PCT Hp Hc)
      as (rn & fn & fp & H1 & H2 & H3 & H4 & H5 & H6).
    exists B, Multi.floor456_clusters, Multi.TRANSFER_POS, Multi.TRANSFER_POS,
      rn, fn, fp.
    split_and!; done.
Qed.
